(** * AudioVisualizer: playback controller, signal graph and render loop

    A shallow embedding of [apps/gnsvrs/src/app/components/AudioVisualizer.tsx].

    The React component keeps its data in three places, and the model keeps
    them apart in the same way:
    - [useState] cells (playlist, selection, loop flags, viewport size);
    - [useRef] cells (DOM elements, the audio context, the frame handle);
    - the browser itself (pending animation frames and timers, the blob URL
      store, the console).

    Every handler is a computation in a small state-and-exception monad, so
    that the [try]/[catch] of [setupAudioSource] is modelled and not assumed.
    The bar geometry and the vibration offset are modelled as exact
    rationals.  The time display and the prices of the store are computed as
    the source computes them, in binary64: every operation is the exact one
    followed by rounding to the nearest double, and the rounding is written
    out ([round_double]). *)

From Stdlib Require Import ZArith QArith Qabs Qround Qpower Lqa String List Bool Lia.
From Stdlib Require Import SpecFloat.
From Stdlib Require Import DecimalString.
From Stdlib.Strings Require Import Byte.
From stdpp Require Import base list gmap strings.
Import ListNotations.

Local Open Scope string_scope.
Local Open Scope Z_scope.

(** ** Data model *)

(** [interface Track]. The [file] handle is opaque to the component (it is only
    stored) and is left out; [id] is [Date.now() + Math.random()], a number
    that is only ever compared with [===]. *)
Record Track := {
  id : Z;
  name : string;
  url : string;
  duration : Q
}.

(** The [<audio>] element, as far as the component reads or writes it.
    [captured] is the element's hidden slot saying that a
    [MediaElementAudioSourceNode] was already created for it;
    [autoplayAllowed] is the browser's autoplay verdict, which decides whether
    the promise of [play()] resolves or rejects; [loading] is the resource the
    element is currently fetching; [loadedListeners] counts the registered
    [loadeddata] listeners. *)
Record Audio := {
  src : string;
  currentTime : Q;
  paused : bool;
  ended : bool;
  captured : bool;
  autoplayAllowed : bool;
  loading : option string;
  loadedListeners : nat
}.

Definition with_src (v : string) (a : Audio) : Audio :=
  {| src := v; currentTime := currentTime a; paused := paused a; ended := ended a;
     captured := captured a; autoplayAllowed := autoplayAllowed a; loading := loading a;
     loadedListeners := loadedListeners a |}.

Definition with_currentTime (v : Q) (a : Audio) : Audio :=
  {| src := src a; currentTime := v; paused := paused a; ended := ended a; captured :=
     captured a; autoplayAllowed := autoplayAllowed a; loading := loading a;
     loadedListeners := loadedListeners a |}.

Definition with_paused (v : bool) (a : Audio) : Audio :=
  {| src := src a; currentTime := currentTime a; paused := v; ended := ended a; captured
     := captured a; autoplayAllowed := autoplayAllowed a; loading := loading a;
     loadedListeners := loadedListeners a |}.

Definition with_ended (v : bool) (a : Audio) : Audio :=
  {| src := src a; currentTime := currentTime a; paused := paused a; ended := v;
     captured := captured a; autoplayAllowed := autoplayAllowed a; loading := loading a;
     loadedListeners := loadedListeners a |}.

Definition with_captured (v : bool) (a : Audio) : Audio :=
  {| src := src a; currentTime := currentTime a; paused := paused a; ended := ended a;
     captured := v; autoplayAllowed := autoplayAllowed a; loading := loading a;
     loadedListeners := loadedListeners a |}.

Definition with_loading (v : option string) (a : Audio) : Audio :=
  {| src := src a; currentTime := currentTime a; paused := paused a; ended := ended a;
     captured := captured a; autoplayAllowed := autoplayAllowed a; loading := v;
     loadedListeners := loadedListeners a |}.

Definition with_loadedListeners (v : nat) (a : Audio) : Audio :=
  {| src := src a; currentTime := currentTime a; paused := paused a; ended := ended a;
     captured := captured a; autoplayAllowed := autoplayAllowed a; loading := loading a;
     loadedListeners := v |}.

(** A bar painted by [ctx.fillRect], with the hue of its fill style. *)
Record Bar := {
  bar_x : Q;
  bar_y : Q;
  bar_w : Q;
  bar_h : Q;
  bar_hue : Q
}.

(** The canvas holds what was painted since it was last cleared. *)
Definition Canvas := list Bar.

(** [background.style.transform]: empty until first written, afterwards
    [translate(x px, y px)]. *)
Inductive Transform :=
| NoTransform
| Translate (x y : Q).

Definition offset (t : Transform) : Q * Q :=
  match t with
  | NoTransform => (0%Q, 0%Q)
  | Translate x y => (x, y)
  end.

(** The string test [transform !== 'translate(0px, 0px)']. *)
Definition is_zero_translate (t : Transform) : bool :=
  match t with
  | NoTransform => false
  | Translate x y => Qeq_bool x 0 && Qeq_bool y 0
  end.

(** Nodes and connections of the Web Audio graph. *)
Inductive Node := SourceNode | AnalyserNode | Destination.

Definition Edge := (Node * Node)%type.

Definition node_eqb (a b : Node) : bool :=
  match a, b with
  | SourceNode, SourceNode | AnalyserNode, AnalyserNode
  | Destination, Destination => true
  | _, _ => false
  end.

Definition edge_eqb (e f : Edge) : bool :=
  node_eqb (fst e) (fst f) && node_eqb (snd e) (snd f).

Inductive ContextState := Suspended | Running | Closed.

(** What a caller chained to the promise that [resume()] returned: the
    [then] and [catch] callbacks of [ensureAudioContextActive] (lines
    119-123), or nothing at all ([animate], line 142). *)
Inductive ResumeCallbacks := LogsOutcome | NoCallbacks.

(** The [AudioContext] together with the analyser it created: the mount
    effect assigns [audioContextRef] and [analyserRef] in the same breath and
    nothing resets either, so one optional cell stands for both.
    [pendingResumes] are the promises of [resume()] that have not settled
    yet, oldest first. *)
Record AudioContext := {
  ctx_state : ContextState;
  fftSize : Z;
  edges : list Edge;
  pendingResumes : list ResumeCallbacks
}.

Definition frequencyBinCount (c : AudioContext) : Z := fftSize c / 2.

(** What a render closure captured from the render that created it
    (the dependency list of [animate] is [vw, vh, vibrationEnabled]). *)
Record RenderEnv := {
  env_vw : Z;
  env_vh : Z;
  env_vibration : bool
}.

(** What a pending [setTimeout] will run: the deferred start of the render
    loop registered by [handlePlay], or the deferred first selection
    registered by [addToPlaylist], which calls the [playTrackFromPlaylist] of
    the render that created it and so sees that render's playlist. *)
Inductive TimerCallback :=
| StartLoop (env : RenderEnv)
| AutoPlay (captured : list Track) (index : Z).

Inductive LogEntry :=
| LogInfo (msg : string)
| LogError (msg : string).

Inductive Exn := InvalidStateError.

(** The whole state: [useState] cells, [useRef] cells, then the browser.
    A present [canvasRef] stands for the canvas together with its 2D context;
    [frames] and [timers] are the callbacks the browser has pending, [revoked]
    lists the calls of [URL.revokeObjectURL] in order. *)
Record State := {
  playlist : list Track;
  currentTrackIndex : Z;
  loopTrack : bool;
  loopPlaylist : bool;
  vibrationEnabled : bool;
  vw : Z;
  vh : Z;
  audioRef : option Audio;
  canvasRef : option Canvas;
  backgroundRef : option Transform;
  audioContextRef : option AudioContext;
  sourceRef : bool;
  animationIdRef : option positive;
  isSourceCreatedRef : bool;
  dataArrayRef : option (list byte);
  bufferLengthRef : Z;
  frames : list (positive * RenderEnv);
  nextHandle : positive;
  timers : list TimerCallback;
  revoked : list string;
  console : list LogEntry
}.

Definition set_playlist (v : list Track) (s : State) : State :=
  {| playlist := v; currentTrackIndex := currentTrackIndex s; loopTrack := loopTrack s;
     loopPlaylist := loopPlaylist s; vibrationEnabled := vibrationEnabled s; vw := vw s;
     vh := vh s; audioRef := audioRef s; canvasRef := canvasRef s; backgroundRef :=
     backgroundRef s; audioContextRef := audioContextRef s; sourceRef := sourceRef s;
     animationIdRef := animationIdRef s; isSourceCreatedRef := isSourceCreatedRef s;
     dataArrayRef := dataArrayRef s; bufferLengthRef := bufferLengthRef s; frames :=
     frames s; nextHandle := nextHandle s; timers := timers s; revoked := revoked s;
     console := console s |}.

Definition set_currentTrackIndex (v : Z) (s : State) : State :=
  {| playlist := playlist s; currentTrackIndex := v; loopTrack := loopTrack s;
     loopPlaylist := loopPlaylist s; vibrationEnabled := vibrationEnabled s; vw := vw s;
     vh := vh s; audioRef := audioRef s; canvasRef := canvasRef s; backgroundRef :=
     backgroundRef s; audioContextRef := audioContextRef s; sourceRef := sourceRef s;
     animationIdRef := animationIdRef s; isSourceCreatedRef := isSourceCreatedRef s;
     dataArrayRef := dataArrayRef s; bufferLengthRef := bufferLengthRef s; frames :=
     frames s; nextHandle := nextHandle s; timers := timers s; revoked := revoked s;
     console := console s |}.

Definition set_loopTrack (v : bool) (s : State) : State :=
  {| playlist := playlist s; currentTrackIndex := currentTrackIndex s; loopTrack := v;
     loopPlaylist := loopPlaylist s; vibrationEnabled := vibrationEnabled s; vw := vw s;
     vh := vh s; audioRef := audioRef s; canvasRef := canvasRef s; backgroundRef :=
     backgroundRef s; audioContextRef := audioContextRef s; sourceRef := sourceRef s;
     animationIdRef := animationIdRef s; isSourceCreatedRef := isSourceCreatedRef s;
     dataArrayRef := dataArrayRef s; bufferLengthRef := bufferLengthRef s; frames :=
     frames s; nextHandle := nextHandle s; timers := timers s; revoked := revoked s;
     console := console s |}.

Definition set_loopPlaylist (v : bool) (s : State) : State :=
  {| playlist := playlist s; currentTrackIndex := currentTrackIndex s; loopTrack :=
     loopTrack s; loopPlaylist := v; vibrationEnabled := vibrationEnabled s; vw := vw s;
     vh := vh s; audioRef := audioRef s; canvasRef := canvasRef s; backgroundRef :=
     backgroundRef s; audioContextRef := audioContextRef s; sourceRef := sourceRef s;
     animationIdRef := animationIdRef s; isSourceCreatedRef := isSourceCreatedRef s;
     dataArrayRef := dataArrayRef s; bufferLengthRef := bufferLengthRef s; frames :=
     frames s; nextHandle := nextHandle s; timers := timers s; revoked := revoked s;
     console := console s |}.

Definition set_vibrationEnabled (v : bool) (s : State) : State :=
  {| playlist := playlist s; currentTrackIndex := currentTrackIndex s; loopTrack :=
     loopTrack s; loopPlaylist := loopPlaylist s; vibrationEnabled := v; vw := vw s; vh
     := vh s; audioRef := audioRef s; canvasRef := canvasRef s; backgroundRef :=
     backgroundRef s; audioContextRef := audioContextRef s; sourceRef := sourceRef s;
     animationIdRef := animationIdRef s; isSourceCreatedRef := isSourceCreatedRef s;
     dataArrayRef := dataArrayRef s; bufferLengthRef := bufferLengthRef s; frames :=
     frames s; nextHandle := nextHandle s; timers := timers s; revoked := revoked s;
     console := console s |}.

Definition set_audioRef (v : option Audio) (s : State) : State :=
  {| playlist := playlist s; currentTrackIndex := currentTrackIndex s; loopTrack :=
     loopTrack s; loopPlaylist := loopPlaylist s; vibrationEnabled := vibrationEnabled
     s; vw := vw s; vh := vh s; audioRef := v; canvasRef := canvasRef s; backgroundRef
     := backgroundRef s; audioContextRef := audioContextRef s; sourceRef := sourceRef s;
     animationIdRef := animationIdRef s; isSourceCreatedRef := isSourceCreatedRef s;
     dataArrayRef := dataArrayRef s; bufferLengthRef := bufferLengthRef s; frames :=
     frames s; nextHandle := nextHandle s; timers := timers s; revoked := revoked s;
     console := console s |}.

Definition set_canvasRef (v : option Canvas) (s : State) : State :=
  {| playlist := playlist s; currentTrackIndex := currentTrackIndex s; loopTrack :=
     loopTrack s; loopPlaylist := loopPlaylist s; vibrationEnabled := vibrationEnabled
     s; vw := vw s; vh := vh s; audioRef := audioRef s; canvasRef := v; backgroundRef :=
     backgroundRef s; audioContextRef := audioContextRef s; sourceRef := sourceRef s;
     animationIdRef := animationIdRef s; isSourceCreatedRef := isSourceCreatedRef s;
     dataArrayRef := dataArrayRef s; bufferLengthRef := bufferLengthRef s; frames :=
     frames s; nextHandle := nextHandle s; timers := timers s; revoked := revoked s;
     console := console s |}.

Definition set_backgroundRef (v : option Transform) (s : State) : State :=
  {| playlist := playlist s; currentTrackIndex := currentTrackIndex s; loopTrack :=
     loopTrack s; loopPlaylist := loopPlaylist s; vibrationEnabled := vibrationEnabled
     s; vw := vw s; vh := vh s; audioRef := audioRef s; canvasRef := canvasRef s;
     backgroundRef := v; audioContextRef := audioContextRef s; sourceRef := sourceRef s;
     animationIdRef := animationIdRef s; isSourceCreatedRef := isSourceCreatedRef s;
     dataArrayRef := dataArrayRef s; bufferLengthRef := bufferLengthRef s; frames :=
     frames s; nextHandle := nextHandle s; timers := timers s; revoked := revoked s;
     console := console s |}.

Definition set_audioContextRef (v : option AudioContext) (s : State) : State :=
  {| playlist := playlist s; currentTrackIndex := currentTrackIndex s; loopTrack :=
     loopTrack s; loopPlaylist := loopPlaylist s; vibrationEnabled := vibrationEnabled
     s; vw := vw s; vh := vh s; audioRef := audioRef s; canvasRef := canvasRef s;
     backgroundRef := backgroundRef s; audioContextRef := v; sourceRef := sourceRef s;
     animationIdRef := animationIdRef s; isSourceCreatedRef := isSourceCreatedRef s;
     dataArrayRef := dataArrayRef s; bufferLengthRef := bufferLengthRef s; frames :=
     frames s; nextHandle := nextHandle s; timers := timers s; revoked := revoked s;
     console := console s |}.

Definition set_sourceRef (v : bool) (s : State) : State :=
  {| playlist := playlist s; currentTrackIndex := currentTrackIndex s; loopTrack :=
     loopTrack s; loopPlaylist := loopPlaylist s; vibrationEnabled := vibrationEnabled
     s; vw := vw s; vh := vh s; audioRef := audioRef s; canvasRef := canvasRef s;
     backgroundRef := backgroundRef s; audioContextRef := audioContextRef s; sourceRef
     := v; animationIdRef := animationIdRef s; isSourceCreatedRef := isSourceCreatedRef
     s; dataArrayRef := dataArrayRef s; bufferLengthRef := bufferLengthRef s; frames :=
     frames s; nextHandle := nextHandle s; timers := timers s; revoked := revoked s;
     console := console s |}.

Definition set_animationIdRef (v : option positive) (s : State) : State :=
  {| playlist := playlist s; currentTrackIndex := currentTrackIndex s; loopTrack :=
     loopTrack s; loopPlaylist := loopPlaylist s; vibrationEnabled := vibrationEnabled
     s; vw := vw s; vh := vh s; audioRef := audioRef s; canvasRef := canvasRef s;
     backgroundRef := backgroundRef s; audioContextRef := audioContextRef s; sourceRef
     := sourceRef s; animationIdRef := v; isSourceCreatedRef := isSourceCreatedRef s;
     dataArrayRef := dataArrayRef s; bufferLengthRef := bufferLengthRef s; frames :=
     frames s; nextHandle := nextHandle s; timers := timers s; revoked := revoked s;
     console := console s |}.

Definition set_isSourceCreatedRef (v : bool) (s : State) : State :=
  {| playlist := playlist s; currentTrackIndex := currentTrackIndex s; loopTrack :=
     loopTrack s; loopPlaylist := loopPlaylist s; vibrationEnabled := vibrationEnabled
     s; vw := vw s; vh := vh s; audioRef := audioRef s; canvasRef := canvasRef s;
     backgroundRef := backgroundRef s; audioContextRef := audioContextRef s; sourceRef
     := sourceRef s; animationIdRef := animationIdRef s; isSourceCreatedRef := v;
     dataArrayRef := dataArrayRef s; bufferLengthRef := bufferLengthRef s; frames :=
     frames s; nextHandle := nextHandle s; timers := timers s; revoked := revoked s;
     console := console s |}.

Definition set_dataArrayRef (v : option (list byte)) (s : State) : State :=
  {| playlist := playlist s; currentTrackIndex := currentTrackIndex s; loopTrack :=
     loopTrack s; loopPlaylist := loopPlaylist s; vibrationEnabled := vibrationEnabled
     s; vw := vw s; vh := vh s; audioRef := audioRef s; canvasRef := canvasRef s;
     backgroundRef := backgroundRef s; audioContextRef := audioContextRef s; sourceRef
     := sourceRef s; animationIdRef := animationIdRef s; isSourceCreatedRef :=
     isSourceCreatedRef s; dataArrayRef := v; bufferLengthRef := bufferLengthRef s;
     frames := frames s; nextHandle := nextHandle s; timers := timers s; revoked :=
     revoked s; console := console s |}.

Definition set_bufferLengthRef (v : Z) (s : State) : State :=
  {| playlist := playlist s; currentTrackIndex := currentTrackIndex s; loopTrack :=
     loopTrack s; loopPlaylist := loopPlaylist s; vibrationEnabled := vibrationEnabled
     s; vw := vw s; vh := vh s; audioRef := audioRef s; canvasRef := canvasRef s;
     backgroundRef := backgroundRef s; audioContextRef := audioContextRef s; sourceRef
     := sourceRef s; animationIdRef := animationIdRef s; isSourceCreatedRef :=
     isSourceCreatedRef s; dataArrayRef := dataArrayRef s; bufferLengthRef := v; frames
     := frames s; nextHandle := nextHandle s; timers := timers s; revoked := revoked s;
     console := console s |}.

Definition set_frames (v : list (positive * RenderEnv)) (s : State) : State :=
  {| playlist := playlist s; currentTrackIndex := currentTrackIndex s; loopTrack :=
     loopTrack s; loopPlaylist := loopPlaylist s; vibrationEnabled := vibrationEnabled
     s; vw := vw s; vh := vh s; audioRef := audioRef s; canvasRef := canvasRef s;
     backgroundRef := backgroundRef s; audioContextRef := audioContextRef s; sourceRef
     := sourceRef s; animationIdRef := animationIdRef s; isSourceCreatedRef :=
     isSourceCreatedRef s; dataArrayRef := dataArrayRef s; bufferLengthRef :=
     bufferLengthRef s; frames := v; nextHandle := nextHandle s; timers := timers s;
     revoked := revoked s; console := console s |}.

Definition set_nextHandle (v : positive) (s : State) : State :=
  {| playlist := playlist s; currentTrackIndex := currentTrackIndex s; loopTrack :=
     loopTrack s; loopPlaylist := loopPlaylist s; vibrationEnabled := vibrationEnabled
     s; vw := vw s; vh := vh s; audioRef := audioRef s; canvasRef := canvasRef s;
     backgroundRef := backgroundRef s; audioContextRef := audioContextRef s; sourceRef
     := sourceRef s; animationIdRef := animationIdRef s; isSourceCreatedRef :=
     isSourceCreatedRef s; dataArrayRef := dataArrayRef s; bufferLengthRef :=
     bufferLengthRef s; frames := frames s; nextHandle := v; timers := timers s; revoked
     := revoked s; console := console s |}.

Definition set_timers (v : list TimerCallback) (s : State) : State :=
  {| playlist := playlist s; currentTrackIndex := currentTrackIndex s; loopTrack :=
     loopTrack s; loopPlaylist := loopPlaylist s; vibrationEnabled := vibrationEnabled
     s; vw := vw s; vh := vh s; audioRef := audioRef s; canvasRef := canvasRef s;
     backgroundRef := backgroundRef s; audioContextRef := audioContextRef s; sourceRef
     := sourceRef s; animationIdRef := animationIdRef s; isSourceCreatedRef :=
     isSourceCreatedRef s; dataArrayRef := dataArrayRef s; bufferLengthRef :=
     bufferLengthRef s; frames := frames s; nextHandle := nextHandle s; timers := v;
     revoked := revoked s; console := console s |}.

Definition set_revoked (v : list string) (s : State) : State :=
  {| playlist := playlist s; currentTrackIndex := currentTrackIndex s; loopTrack :=
     loopTrack s; loopPlaylist := loopPlaylist s; vibrationEnabled := vibrationEnabled
     s; vw := vw s; vh := vh s; audioRef := audioRef s; canvasRef := canvasRef s;
     backgroundRef := backgroundRef s; audioContextRef := audioContextRef s; sourceRef
     := sourceRef s; animationIdRef := animationIdRef s; isSourceCreatedRef :=
     isSourceCreatedRef s; dataArrayRef := dataArrayRef s; bufferLengthRef :=
     bufferLengthRef s; frames := frames s; nextHandle := nextHandle s; timers := timers
     s; revoked := v; console := console s |}.

Definition set_console (v : list LogEntry) (s : State) : State :=
  {| playlist := playlist s; currentTrackIndex := currentTrackIndex s; loopTrack :=
     loopTrack s; loopPlaylist := loopPlaylist s; vibrationEnabled := vibrationEnabled
     s; vw := vw s; vh := vh s; audioRef := audioRef s; canvasRef := canvasRef s;
     backgroundRef := backgroundRef s; audioContextRef := audioContextRef s; sourceRef
     := sourceRef s; animationIdRef := animationIdRef s; isSourceCreatedRef :=
     isSourceCreatedRef s; dataArrayRef := dataArrayRef s; bufferLengthRef :=
     bufferLengthRef s; frames := frames s; nextHandle := nextHandle s; timers := timers
     s; revoked := revoked s; console := v |}.

(** ** The monad of handlers *)

Inductive Outcome (A : Type) :=
| Normal (a : A)
| Threw (e : Exn).
Arguments Normal {A} a.
Arguments Threw {A} e.

Definition M (A : Type) : Type := State -> Outcome A * State.

#[global] Instance M_ret : MRet M := fun A a s => (Normal a, s).

#[global] Instance M_bind : MBind M := fun A B k m s =>
  match m s with
  | (Normal a, s') => k a s'
  | (Threw e, s') => (Threw e, s')
  end.

Definition throw {A} (e : Exn) : M A := fun s => (Threw e, s).

(** [try { m } catch (e) { h e }]: what [m] did to the state before it threw
    stays done. *)
Definition try_catch {A} (m : M A) (h : Exn -> M A) : M A :=
  fun s =>
    match m s with
    | (Normal a, s') => (Normal a, s')
    | (Threw e, s') => h e s'
    end.

Definition get : M State := fun s => (Normal s, s).
Definition modify (f : State -> State) : M unit := fun s => (Normal tt, f s).
Definition skip : M unit := mret tt.

Definition exec {A} (m : M A) (s : State) : State := snd (m s).
Definition outcome {A} (m : M A) (s : State) : Outcome A := fst (m s).

(** ** Browser operations

    The few facts about the platform that the handlers rely on, each as the
    HTML and Web Audio specifications give it. *)

Definition log (e : LogEntry) : M unit :=
  modify (fun s => set_console (console s ++ [e]) s).

(** A method call on [audioRef.current] when the caller has checked or
    optional-chained the reference. *)
Definition on_audio (f : Audio -> Audio) : M unit :=
  modify (fun s => set_audioRef (f <$> audioRef s) s).

(** [audio.pause()]. *)
Definition audio_pause : M unit := on_audio (with_paused true).

(** [audio.currentTime = 0]: a seek to the start, after which the element is
    no longer at its end. *)
Definition audio_rewind : M unit :=
  on_audio (fun a => with_ended false (with_currentTime 0%Q a)).

(** [audio.src = u]. *)
Definition audio_set_src (u : string) : M unit := on_audio (with_src u).

(** [audio.load()]: the element is reset and starts fetching its [src]. *)
Definition audio_load : M unit :=
  on_audio (fun a =>
    with_loading (Some (src a))
      (with_ended false (with_paused true (with_currentTime 0%Q a)))).

(** [audio.play().catch(e => console.log('Auto-play prevented:', e))]:
    when the browser allows playback the element leaves the paused state
    (restarting from 0 if it had ended); when it does not, the promise rejects
    and the rejection is logged. *)
Definition audio_play : M unit :=
  s ← get;
  match audioRef s with
  | Some a =>
      if autoplayAllowed a then
        on_audio (fun a =>
          with_paused false
            (with_ended false
               (with_currentTime (if ended a then 0%Q else currentTime a) a)))
      else log (LogInfo "Auto-play prevented:")
  | None => skip
  end.

(** The element once playback has started: it is not paused, and if it had
    ended it was first taken back to the start. *)
Definition playback_started (a : Audio) : Audio :=
  with_paused false
    (with_ended false
       (with_currentTime (if ended a then 0%Q else currentTime a) a)).

(** [audio.addEventListener('loadeddata', handleLoadedData, { once: true })]. *)
Definition add_loaded_listener : M unit :=
  on_audio (fun a => with_loadedListeners (S (loadedListeners a)) a).

(** [URL.revokeObjectURL(u)]; the model keeps the list of all calls. *)
Definition revokeObjectURL (u : string) : M unit :=
  modify (fun s => set_revoked (revoked s ++ [u]) s).

(** [audioContext.createMediaElementSource(audio)]: throws
    [InvalidStateError] when the element was already used to create a source
    node, and otherwise binds the element to the new node. *)
Definition createMediaElementSource : M unit :=
  s ← get;
  match audioRef s with
  | Some a =>
      if captured a then throw InvalidStateError
      else on_audio (with_captured true)
  | None => skip
  end.

Definition add_edge (e : Edge) (c : AudioContext) : AudioContext :=
  {| ctx_state := ctx_state c;
     fftSize := fftSize c;
     edges := if existsb (edge_eqb e) (edges c) then edges c else edges c ++ [e];
     pendingResumes := pendingResumes c |}.

(** [a.connect(b)] between nodes of one context: a connection that already
    exists is ignored. *)
Definition connect (e : Edge) : M unit :=
  modify (fun s => set_audioContextRef (add_edge e <$> audioContextRef s) s).

Definition add_pending_resume (cb : ResumeCallbacks) (c : AudioContext) : AudioContext :=
  {| ctx_state := ctx_state c; fftSize := fftSize c; edges := edges c;
     pendingResumes := pendingResumes c ++ [cb] |}.

(** [audioContext.resume()] with the callbacks [cb] chained to its result.
    The call only returns a promise: the context keeps its state until the
    browser has started it, or has failed to, and settles the promise (the
    event [EvResumeSettled] below). *)
Definition resume (cb : ResumeCallbacks) : M unit :=
  modify (fun s => set_audioContextRef (add_pending_resume cb <$> audioContextRef s) s).

(** The state of a context after an attempt to start it succeeded. *)
Definition resumed (st : ContextState) : ContextState :=
  match st with
  | Suspended => Running
  | other => other
  end.

(** The browser settles the oldest pending promise: on success the context
    is running by the time the promise resolves. *)
Definition settle_resume (ok : bool) (rest : list ResumeCallbacks) (c : AudioContext)
    : AudioContext :=
  {| ctx_state := if ok then resumed (ctx_state c) else ctx_state c;
     fftSize := fftSize c; edges := edges c; pendingResumes := rest |}.

(** The callbacks of a settled promise (lines 119-123): the [then] callback
    on success, the [catch] callback on failure. *)
Definition resumeSettled (ok : bool) (cb : ResumeCallbacks) : M unit :=
  match cb with
  | LogsOutcome =>
      if ok then log (LogInfo "Audio context resumed")
      else log (LogError "Error resuming audio context:")
  | NoCallbacks => skip
  end.

Definition is_suspended (c : option AudioContext) : bool :=
  match c with
  | Some {| ctx_state := Suspended |} => true
  | _ => false
  end.

(** [requestAnimationFrame(cb)]: registers the closure and returns a fresh
    non-zero handle (which is why the truthiness tests on
    [animationIdRef.current] are tests for [null]). *)
Definition requestAnimationFrame (env : RenderEnv) : M positive :=
  s ← get;
  let h := nextHandle s in
  modify (fun s => set_nextHandle (Pos.succ h) (set_frames (frames s ++ [(h, env)]) s));;
  mret h.

(** [cancelAnimationFrame(h)]. *)
Definition cancelAnimationFrame (h : positive) : M unit :=
  modify (fun s =>
    set_frames (List.filter (fun f => negb (Pos.eqb (fst f) h)) (frames s)) s).

(** [ctx.clearRect(0, 0, vw, vh)] on a canvas that the resize effect keeps at
    [vw] by [vh]. *)
Definition clearRect : M unit :=
  modify (fun s => set_canvasRef ((fun _ => []) <$> canvasRef s) s).

(** [analyser.getByteFrequencyData(dataArray)]: overwrites as many entries
    as both sides have. *)
Definition getByteFrequencyData (spectrum arr : list byte) : list byte :=
  take (length arr) spectrum ++ drop (length spectrum) arr.

(** ** The component *)

(** Mount effect (lines 45-56). *)
Definition mountEffect (st : ContextState) : M unit :=
  let analyser := {| ctx_state := st; fftSize := 256; edges := [];
                     pendingResumes := [] |} in
  let bufferLength := frequencyBinCount analyser in
  modify (set_audioContextRef (Some analyser));;
  modify (set_dataArrayRef (Some (repeat "000"%byte (Z.to_nat bufferLength))));;
  modify (set_bufferLengthRef bufferLength).

(** The [try] block of [setupAudioSource] (lines 98-103). *)
Definition construct_graph : M unit :=
  createMediaElementSource;;
  connect (SourceNode, AnalyserNode);;
  connect (AnalyserNode, Destination);;
  modify (set_sourceRef true);;
  modify (set_isSourceCreatedRef true);;
  log (LogInfo "Audio source connected successfully").

(** Its [catch] block (lines 105-110). *)
Definition connect_fallback (e : Exn) : M unit :=
  log (LogError "Error creating audio source:");;
  try_catch
    (connect (AnalyserNode, Destination))
    (fun err => log (LogError "Error connecting analyser:")).

(** [setupAudioSource] (lines 89-113). *)
Definition setupAudioSource : M unit :=
  s ← get;
  match audioRef s, audioContextRef s with
  | Some audio, Some _ =>
      if negb (isSourceCreatedRef s) && negb (String.eqb (src audio) "") then
        try_catch construct_graph connect_fallback
      else skip
  | _, _ => skip
  end.

(** [ensureAudioContextActive] (lines 116-125). *)
Definition ensureAudioContextActive : M unit :=
  s ← get;
  if is_suspended (audioContextRef s) then resume LogsOutcome
  else skip.

(** [stopAnimation] (lines 178-193). *)
Definition stopAnimation : M unit :=
  s ← get;
  match animationIdRef s with
  | Some h => cancelAnimationFrame h;; modify (set_animationIdRef None)
  | None => skip
  end;;
  clearRect;;
  modify (fun s => set_backgroundRef ((fun _ => Translate 0 0) <$> backgroundRef s) s).

(** The bar loop of [animate] (lines 149-158): [i] counts up, [fuel] is the
    number of iterations left, [x] the running left edge. *)
Fixpoint draw_bars (env : RenderEnv) (n : Z) (data : list byte)
    (i fuel : nat) (x : Q) : list Bar :=
  match fuel with
  | O => []
  | S fuel' =>
      let barWidth := (inject_Z (env_vw env) / inject_Z n * (5 # 2))%Q in
      match data !! i with
      | Some b =>
          let barHeight := inject_Z (Z.of_N (Byte.to_N b)) in
          [{| bar_x := x;
              bar_y := (inject_Z (env_vh env) - barHeight)%Q;
              bar_w := barWidth;
              bar_h := barHeight;
              bar_hue := (inject_Z (Z.of_nat i) / inject_Z n * 360)%Q |}]
      | None => []
      end ++ draw_bars env n data (S i) fuel' (x + barWidth + 1)%Q
  end.

(** [dataArray.reduce((acc, val) => acc + val, 0)]. *)
Definition spectrum_sum (data : list byte) : Z :=
  fold_left (fun acc val => acc + Z.of_N (Byte.to_N val)) data 0.

Definition maxVibration : Q := 10.

(** [(average / 255) * maxVibration], with
    [average = sum / bufferLengthRef.current]. *)
Definition intensity (n : Z) (data : list byte) : Q :=
  (inject_Z (spectrum_sum data) / inject_Z n / 255 * maxVibration)%Q.

(** [(Math.random() - 0.5) * 2 * intensity]. *)
Definition shake (r i : Q) : Q := ((r - (1 # 2)) * 2 * i)%Q.

(** [animate] (lines 128-175), run by the closure that captured [env].
    [spectrum] is what the analyser holds at this frame, [rx] and [ry] are the
    two draws of [Math.random()]. *)
Definition animate (env : RenderEnv) (spectrum : list byte) (rx ry : Q) : M unit :=
  s ← get;
  match audioRef s, canvasRef s, audioContextRef s, dataArrayRef s with
  | Some audio, Some _, Some _, Some dataArray =>
      if negb (paused audio) && negb (ended audio) then
        h ← requestAnimationFrame env;
        modify (set_animationIdRef (Some h));;
        (if is_suspended (audioContextRef s) then resume NoCallbacks else skip);;
        let data := getByteFrequencyData spectrum dataArray in
        modify (set_dataArrayRef (Some data));;
        clearRect;;
        let n := bufferLengthRef s in
        modify (fun s =>
          set_canvasRef
            ((fun c => (c ++ draw_bars env n data 0 (Z.to_nat n) 0%Q)%list)
               <$> canvasRef s) s);;
        match backgroundRef s with
        | Some t =>
            if env_vibration env then
              let i := intensity n data in
              modify (set_backgroundRef (Some (Translate (shake rx i) (shake ry i))))
            else if is_zero_translate t then skip
            else modify (set_backgroundRef (Some (Translate 0 0)))
        | None => skip
        end
      else stopAnimation
  | _, _, _, _ => skip
  end.

(** [handleLoadedData] (lines 217-221). *)
Definition handleLoadedData : M unit :=
  setupAudioSource;;
  audio_play;;
  on_audio (fun a => with_loadedListeners (pred (loadedListeners a)) a).

(** The body of [playTrackFromPlaylist] (lines 196-225) in a closure that
    captured [playlist]. *)
Definition playTrackFromPlaylist_in (playlist : list Track) (index : Z) : M unit :=
  s ← get;
  if (0 <=? index) && (index <? Z.of_nat (length playlist)) then
    match playlist !! Z.to_nat index, audioRef s with
    | Some track, Some audio =>
        modify (set_currentTrackIndex index);;
        stopAnimation;;
        audio_pause;;
        audio_rewind;;
        (if negb (String.eqb (src audio) "") && String.prefix "blob:" (src audio)
         then revokeObjectURL (src audio) else skip);;
        audio_set_src (url track);;
        audio_load;;
        ensureAudioContextActive;;
        add_loaded_listener
    | _, _ => skip
    end
  else skip.

(** [playTrackFromPlaylist] as the current render defines it: its playlist is
    the current one. *)
Definition playTrackFromPlaylist (index : Z) : M unit :=
  s ← get;
  playTrackFromPlaylist_in (playlist s) index.

(** The render environment of the current render. *)
Definition current_env (s : State) : RenderEnv :=
  {| env_vw := vw s; env_vh := vh s; env_vibration := vibrationEnabled s |}.

(** [handlePlay] (lines 232-240): the loop start is deferred by a timer. *)
Definition handlePlay : M unit :=
  ensureAudioContextActive;;
  setupAudioSource;;
  modify (fun s => set_timers (timers s ++ [StartLoop (current_env s)]) s).

(** The body of that timer (lines 236-238). *)
Definition playTimerFired (env : RenderEnv) (spectrum : list byte) (rx ry : Q) : M unit :=
  s ← get;
  match animationIdRef s with
  | None => animate env spectrum rx ry
  | Some _ => skip
  end.

(** [handlePause] (lines 242-244). *)
Definition handlePause : M unit := stopAnimation.

(** [handleEnded] (lines 246-265). *)
Definition handleEnded : M unit :=
  stopAnimation;;
  s ← get;
  let len := Z.of_nat (length (playlist s)) in
  if loopTrack s && (0 <=? currentTrackIndex s) then
    audio_rewind;;
    audio_play
  else if loopPlaylist s && (0 <? len) then
    if (0 <=? currentTrackIndex s) && (currentTrackIndex s <? len - 1) then
      playTrackFromPlaylist (currentTrackIndex s + 1)
    else
      playTrackFromPlaylist 0
  else
    if (0 <=? currentTrackIndex s) && (currentTrackIndex s <? len - 1) then
      playTrackFromPlaylist (currentTrackIndex s + 1)
    else
      modify (set_currentTrackIndex (-1)).

(** [removeFromPlaylist] (lines 306-328). *)
Definition removeFromPlaylist (trackId : Z) : M unit :=
  s ← get;
  let prev := playlist s in
  match list_find (fun t => id t = trackId) prev with
  | None => skip
  | Some (index, track) =>
      (if String.prefix "blob:" (url track) then revokeObjectURL (url track) else skip);;
      let newPlaylist := filter (fun t => id t <> trackId) prev in
      (if currentTrackIndex s =? Z.of_nat index then
         audio_pause;;
         modify (set_currentTrackIndex (-1));;
         stopAnimation
       else if Z.of_nat index <? currentTrackIndex s then
         modify (fun s => set_currentTrackIndex (currentTrackIndex s - 1) s)
       else skip);;
      modify (set_playlist newPlaylist)
  end.

(** [addToPlaylist] (lines 279-297), called by [handleAudioUpload] with the
    blob URL it created; [trackId] is the value of
    [Date.now() + Math.random()]. *)
Definition addToPlaylist (trackId : Z) (fileName url : string) : M unit :=
  s ← get;
  let track := {| id := trackId; name := fileName; url := url; duration := 0 |} in
  let prev := playlist s in
  let newPlaylist := (prev ++ [track])%list in
  (if (currentTrackIndex s =? -1) && (Z.of_nat (length prev) =? 0) then
     modify (fun s' =>
       set_timers
         (timers s' ++ [AutoPlay (playlist s) (Z.of_nat (length newPlaylist) - 1)]) s')
   else skip);;
  modify (set_playlist newPlaylist).

(** The [loadedmetadata] listener of [addToPlaylist] (lines 299-302). *)
Definition metadataLoaded (trackId : Z) (d : Q) : M unit :=
  modify (fun s =>
    set_playlist
      ((fun t =>
          if id t =? trackId
          then {| id := id t; name := name t; url := url t; duration := d |}
          else t) <$> playlist s) s).

(** The two loop buttons and the vibration button (lines 409-412, 462-465
    and 420). *)
Definition toggleLoopTrack : M unit :=
  s ← get;
  modify (set_loopTrack (negb (loopTrack s)));;
  if negb (loopTrack s) then modify (set_loopPlaylist false) else skip.

Definition toggleLoopPlaylist : M unit :=
  s ← get;
  modify (set_loopPlaylist (negb (loopPlaylist s)));;
  if negb (loopPlaylist s) then modify (set_loopTrack false) else skip.

Definition toggleVibration : M unit :=
  s ← get;
  modify (set_vibrationEnabled (negb (vibrationEnabled s))).

(** ** Initial and sample states *)

Definition fresh_audio : Audio :=
  {| src := ""; currentTime := 0; paused := true; ended := false;
     captured := false; autoplayAllowed := true; loading := None;
     loadedListeners := 0 |}.

(** The component after its first commit: the three DOM references are set,
    nothing is selected, vibration is on (lines 14-32). *)
Definition initialState (w h : Z) : State :=
  {| playlist := []; currentTrackIndex := -1; loopTrack := false;
     loopPlaylist := false; vibrationEnabled := true; vw := w; vh := h;
     audioRef := Some fresh_audio; canvasRef := Some [];
     backgroundRef := Some NoTransform; audioContextRef := None;
     sourceRef := false; animationIdRef := None; isSourceCreatedRef := false;
     dataArrayRef := None; bufferLengthRef := 0; frames := []; nextHandle := 1;
     timers := []; revoked := []; console := [] |}.

Definition mountedState : State := exec (mountEffect Running) (initialState 800 600).

Definition track_a : Track := {| id := 1; name := "a.mp3"; url := "blob:a"; duration := 0 |}.
Definition track_b : Track := {| id := 2; name := "b.mp3"; url := "blob:b"; duration := 0 |}.
Definition track_c : Track := {| id := 3; name := "c.mp3"; url := "blob:c"; duration := 0 |}.

Definition three_tracks : State := set_playlist [track_a; track_b; track_c] mountedState.

(** The last of the three tracks is selected with loop-playlist on. *)
Definition looping_last_track : State :=
  set_loopPlaylist true (set_currentTrackIndex 2 three_tracks).

(** The third track is selected. *)
Definition playing_third : State :=
  set_currentTrackIndex 2 three_tracks.

(** [track_a] is playing on the mounted component. *)
Definition playing_first : State :=
  set_audioRef (Some (with_paused false (with_src "blob:a" fresh_audio)))
    (set_currentTrackIndex 0 three_tracks).

(** A state in which [track_a] is loaded into an element that some other
    party already routed into a Web Audio graph. *)
Definition foreign_capture : State :=
  set_audioRef
    (Some {| src := "blob:a"; currentTime := 0; paused := true; ended := false;
             captured := true; autoplayAllowed := true; loading := None;
             loadedListeners := 0 |})
    (set_currentTrackIndex 0 three_tracks).

(** ** Running events *)

(** What can happen to the component: user actions, element events, and the
    deferred callbacks.  The browser hands a frame or timer callback the
    closure it was registered with; timers may fire in any order ([k] says
    which one does); a frame carries the analyser's spectrum and the two
    random draws of that tick; the promises of [resume()] settle oldest
    first, each with success or failure.

    When the browser dispatches [play], playback has started: the element is
    no longer paused, and if it had ended it was first taken back to the
    start, so that it is not ended either. *)
Inductive Event :=
| EvUpload (trackId : Z) (fileName url : string)
| EvMetadata (trackId : Z) (d : Q)
| EvSelect (index : Z)
| EvRemove (trackId : Z)
| EvToggleLoopTrack
| EvToggleLoopPlaylist
| EvToggleVibration
| EvPlay
| EvPause
| EvEnded
| EvLoadedData
| EvResumeSettled (ok : bool)
| EvTimer (k : nat) (spectrum : list byte) (rx ry : Q)
| EvFrame (spectrum : list byte) (rx ry : Q).

Definition step (e : Event) : M unit :=
  match e with
  | EvUpload trackId fileName url => addToPlaylist trackId fileName url
  | EvMetadata trackId d => metadataLoaded trackId d
  | EvSelect index => playTrackFromPlaylist index
  | EvRemove trackId => removeFromPlaylist trackId
  | EvToggleLoopTrack => toggleLoopTrack
  | EvToggleLoopPlaylist => toggleLoopPlaylist
  | EvToggleVibration => toggleVibration
  | EvPlay => on_audio playback_started;; handlePlay
  | EvPause => on_audio (with_paused true);; handlePause
  | EvEnded => on_audio (fun a => with_ended true (with_paused true a));; handleEnded
  | EvLoadedData =>
      s ← get;
      match audioRef s with
      | Some a =>
          on_audio (with_loading None);;
          Nat.iter (loadedListeners a) (fun rest => handleLoadedData;; rest) skip
      | None => skip
      end
  | EvResumeSettled ok =>
      s ← get;
      match audioContextRef s with
      | Some c =>
          match pendingResumes c with
          | cb :: rest =>
              modify (set_audioContextRef (Some (settle_resume ok rest c)));;
              resumeSettled ok cb
          | [] => skip
          end
      | None => skip
      end
  | EvTimer k spectrum rx ry =>
      s ← get;
      match timers s !! k with
      | Some cb =>
          modify (set_timers (delete k (timers s)));;
          match cb with
          | StartLoop env => playTimerFired env spectrum rx ry
          | AutoPlay captured index => playTrackFromPlaylist_in captured index
          end
      | None => skip
      end
  | EvFrame spectrum rx ry =>
      s ← get;
      match frames s with
      | (h, env) :: rest =>
          modify (set_frames rest);;
          animate env spectrum rx ry
      | [] => skip
      end
  end.

Definition run (events : list Event) (s : State) : State :=
  fold_left (fun s e => exec (step e) s) events s.

(** The user uploads three files, one after the other. *)
Definition uploads : list Event :=
  [EvUpload 1 "a.mp3" "blob:a"; EvUpload 2 "b.mp3" "blob:b";
   EvUpload 3 "c.mp3" "blob:c"].

(** The two loop buttons, for sequences of clicks. *)
Inductive LoopButton := LoopTrackBtn | LoopPlaylistBtn.

Definition click (b : LoopButton) : M unit :=
  match b with
  | LoopTrackBtn => toggleLoopTrack
  | LoopPlaylistBtn => toggleLoopPlaylist
  end.

Definition clicks (bs : list LoopButton) (s : State) : State :=
  fold_left (fun s b => exec (click b) s) bs s.

(** ** Outcomes of the [ended] policy *)

Definition track_count (s : State) : Z := Z.of_nat (length (playlist s)).

(** The selection is valid: nothing selected, or an index into the playlist. *)
Definition selection_ok (s : State) : Prop :=
  currentTrackIndex s = -1 \/ 0 <= currentTrackIndex s < track_count s.

(** The same resource plays again from 0: selection and source are kept,
    nothing is reloaded or released, and playback resumes as far as the
    browser allows. *)
Definition restarted (s s' : State) : Prop :=
  currentTrackIndex s' = currentTrackIndex s /\
  revoked s' = revoked s /\
  exists a a', audioRef s = Some a /\ audioRef s' = Some a' /\
    src a' = src a /\ loading a' = loading a /\ currentTime a' = 0%Q /\
    (autoplayAllowed a = true -> paused a' = false).

(** Track [i] of the playlist becomes the selection and starts loading. *)
Definition advanced_to (i : Z) (s s' : State) : Prop :=
  0 <= i /\ currentTrackIndex s' = i /\
  exists t a', playlist s !! Z.to_nat i = Some t /\ audioRef s' = Some a' /\
    src a' = url t /\ loading a' = Some (url t).

(** Nothing is selected any more and the element is left as it was. *)
Definition selection_cleared (s s' : State) : Prop :=
  currentTrackIndex s' = -1 /\ audioRef s' = audioRef s.

(** Branch 3 of the policy read to the letter: with both loop flags off, any
    current index other than the last one advances to the index after it. *)
Definition advances_unless_last (s : State) : Prop :=
  loopTrack s = false -> loopPlaylist s = false ->
  currentTrackIndex s <> track_count s - 1 ->
  advanced_to (currentTrackIndex s + 1) s (exec handleEnded s).

(** The frame bookkeeping is consistent: the browser holds no pending frame,
    or exactly one, the one whose handle [animationIdRef] remembers. *)
Definition frames_ok (s : State) : Prop :=
  match frames s with
  | [] => True
  | [(h, _)] => animationIdRef s = Some h
  | _ => False
  end.

(** [handleEnded] is [stopAnimation] followed by a decision taken on the
    flags, the selection and the playlist, none of which [stopAnimation]
    touches. *)
Definition ended_decision (s : State) : M unit :=
  let cur := currentTrackIndex s in
  let len := track_count s in
  if loopTrack s && (0 <=? cur) then audio_rewind;; audio_play
  else if loopPlaylist s && (0 <? len) then
    if (0 <=? cur) && (cur <? len - 1)
    then playTrackFromPlaylist (cur + 1) else playTrackFromPlaylist 0
  else if (0 <=? cur) && (cur <? len - 1)
    then playTrackFromPlaylist (cur + 1)
    else modify (set_currentTrackIndex (-1)).

(** ** Attaching more than once *)

(** Attaching a second time changes nothing at all: the second call of
    [setupAudioSource] returns normally and leaves the state it found. *)
Definition second_attach_is_noop (s : State) : Prop :=
  let s1 := exec setupAudioSource s in
  setupAudioSource s1 = (Normal tt, s1).

(** [n] calls of [setupAudioSource] in a row. *)
Definition attach_times (n : nat) (s : State) : State :=
  Nat.iter n (exec setupAudioSource) s.

(** ** Preservation properties of computations *)

(** A computation that leaves a view [f] of the state as it found it. *)
Definition keeps {A B} (f : State -> B) (m : M A) : Prop :=
  forall s, f (exec m s) = f s.

(** The frame side of the state: the pending frames and the recorded handle. *)
Definition frame_view (s : State) : list (positive * RenderEnv) * option positive :=
  (frames s, animationIdRef s).

(** The playlist side: the tracks, the selection and the pending timers. *)
Definition playlist_view (s : State) : list Track * Z * list TimerCallback :=
  (playlist s, currentTrackIndex s, timers s).

Definition both_views (s : State) := (frame_view s, playlist_view s).

(** A computation that preserves an invariant [P] of the state. *)
Definition preserves {A} (P : State -> Prop) (m : M A) : Prop :=
  forall s, P s -> P (exec m s).

(** A pending first selection captured the empty playlist. *)
Definition captured_nothing (cb : TimerCallback) : Prop :=
  match cb with
  | StartLoop _ => True
  | AutoPlay captured _ => captured = []
  end.

(** The playlist invariant of the data model: unique ids and a valid
    selection (and, to carry it through timers, only empty captures). *)
Definition playlist_ok (s : State) : Prop :=
  NoDup (id <$> playlist s) /\ selection_ok s /\ Forall captured_nothing (timers s).

(** An upload brings an id that no track of the playlist has. *)
Definition fresh_upload (s : State) (e : Event) : Prop :=
  match e with
  | EvUpload trackId _ _ => trackId ∉ id <$> playlist s
  | _ => True
  end.

(** The states the component reaches from its mount. *)
Inductive reachable : State -> Prop :=
| reach_mount w h st : reachable (exec (mountEffect st) (initialState w h))
| reach_step s e : reachable s -> fresh_upload s e -> reachable (exec (step e) s).

(** ** Bar geometry *)

(** The [barWidth] of [animate] (line 149) and the height of a bar. *)
Definition barWidth (env : RenderEnv) (n : Z) : Q :=
  (inject_Z (env_vw env) / inject_Z n * (5 # 2))%Q.

Definition magnitude (b : byte) : Q := inject_Z (Z.of_N (Byte.to_N b)).

(** ** JavaScript numbers

    A number is an IEEE 754 binary64 value.  A finite one is modelled by the
    rational it denotes (the sign of zero is not kept: nothing modelled here
    can tell the two zeros apart). *)
Inductive JsNumber :=
| Finite (q : Q)
| NaN
| Infinity
| NegInfinity.

Definition Qpow2 (e : Z) : Q := (2 ^ e)%Q.

(** The binade of a positive rational: the [k] with [2^k <= x < 2^(k+1)]. *)
Definition Qlog2 (x : Q) : Z :=
  let k := Z.log2 (Qnum x) - Z.log2 (Zpos (Qden x)) in
  if Qle_bool (Qpow2 k) x then k else k - 1.

(** The nearest integer, the even one of two that are equally near. *)
Definition round_half_even (x : Q) : Z :=
  let f := Qfloor x in
  match (x - inject_Z f ?= 1 # 2)%Q with
  | Lt => f
  | Gt => f + 1
  | Eq => if Z.even f then f else f + 1
  end.

(** The exponent of the last of the 53 mantissa bits of a double near [x];
    it stops at -1074, where the subnormal numbers begin. *)
Definition ulp_exponent (x : Q) : Z := Z.max (Qlog2 (Qabs x) - 52) (-1074).

(** The double nearest to the real number [x] (round to nearest, ties to
    even); beyond the largest double the result is an infinity.  The value is
    returned in lowest terms. *)
Definition round_double (x : Q) : JsNumber :=
  if Qeq_bool x 0 then Finite 0
  else
    let e := ulp_exponent x in
    let y := (inject_Z (round_half_even (x / Qpow2 e)) * Qpow2 e)%Q in
    if Qle_bool (Qpow2 1024) (Qabs y)
    then (if Qle_bool 0 x then Infinity else NegInfinity)
    else Finite (Qred y).

(** The number that a decimal literal of the source denotes. *)
Definition js_literal (q : Q) : JsNumber := round_double q.

(** [a + b]. *)
Definition js_add (a b : JsNumber) : JsNumber :=
  match a, b with
  | Finite x, Finite y => round_double (x + y)
  | NaN, _ | _, NaN => NaN
  | Infinity, NegInfinity | NegInfinity, Infinity => NaN
  | Infinity, _ | _, Infinity => Infinity
  | NegInfinity, _ | _, NegInfinity => NegInfinity
  end.

(** Rounding towards zero, as the [%] operator does with its quotient. *)
Definition Qtrunc (x : Q) : Z :=
  if Qle_bool 0 x then Qfloor x else Qceiling x.

(** [a % b] on finite numbers with [b] not zero: the remainder takes the sign
    of [a].  The remainder of two doubles is a double, so that this operation
    does not round. *)
Definition js_rem (a b : Q) : Q := (a - b * inject_Z (Qtrunc (a / b)))%Q.

(** The decimal digits of an integer. *)
Definition show_int (z : Z) : string := NilZero.string_of_int (Z.to_int z).

Definition decimal_digits (z : Z) : Z := Z.of_nat (String.length (show_int z)).

(** [Number::toString] looks for the shortest decimal [s * 10^(n - k)], with
    [s] of [k] digits, that reads back as the number.  [reads_back] is that
    test for the integer-valued double [z]. *)
Definition reads_back (z s n k : Z) : bool :=
  (10 ^ (k - 1) <=? s) && (s <? 10 ^ k) &&
  match round_double (inject_Z (s * 10 ^ (n - k))) with
  | Finite y => Qeq_bool y (inject_Z z)
  | _ => false
  end.

(** The decimals of [k] digits that can read back as [z], the nearer one
    first: the two around [z] and, where the upper one has a digit more, the
    power of ten above [z]. *)
Definition candidates (z n k : Z) : list (Z * Z) :=
  let p := 10 ^ (n - k) in
  let lo := z / p in
  let hi := lo + 1 in
  (if 2 * (z - lo * p) <=? p then [(lo, n); (hi, n)] else [(hi, n); (lo, n)])
    ++ [(10 ^ (k - 1), n + 1)].

Fixpoint shortest_from (z n k : Z) (fuel : nat) : Z * Z * Z :=
  match fuel with
  | O => (z, n, n)
  | S fuel' =>
      match List.find (fun c => reads_back z (fst c) (snd c) k) (candidates z n k) with
      | Some (s, n') => (s, n', k)
      | None => shortest_from z n (k + 1) fuel'
      end
  end.

(** [Number::toString] of a positive integer-valued double.  Below [2^53]
    the integers are a unit apart and the shortest decimal is the integer
    itself; above, the digits that are not needed to tell the number from its
    neighbours are printed as zeros, and from [10^21] on the exponent is
    written out. *)
Definition show_positive_integer (z : Z) : string :=
  if z <? 2 ^ 53 then show_int z
  else
    let '(s, n, k) := shortest_from z (decimal_digits z) 1 17 in
    let digits := show_int s in
    if n <=? 21 then digits ++ String.concat "" (repeat "0" (Z.to_nat (n - k)))
    else
      match digits with
      | String d rest =>
          String d (if k =? 1 then "" else "." ++ rest) ++ "e+" ++ show_int (n - 1)
      | EmptyString => ""
      end.

(** An integer-valued number printed by a template literal or [toString]. *)
Definition show_integer (z : Z) : string :=
  match z with
  | Z0 => "0"
  | Zpos _ => show_positive_integer z
  | Zneg _ => "-" ++ show_positive_integer (- z)
  end.

(** [Math.floor(x)] printed. *)
Definition show_floor (x : JsNumber) : string :=
  match x with
  | Finite q => show_integer (Qfloor q)
  | NaN => "NaN"
  | Infinity => "Infinity"
  | NegInfinity => "-Infinity"
  end.

(** [s.padStart(n, '0')]. *)
Definition padStart0 (n : nat) (s : string) : string :=
  String.concat "" (repeat "0" (n - String.length s)) ++ s.

(** ** Time display and the rendered playlist *)

(** [formatTime] (lines 37-42). *)
Definition formatTime (seconds : JsNumber) : string :=
  match seconds with
  | Finite q =>
      let mins := show_floor (round_double (q / 60)) in
      let secs := show_integer (Qfloor (js_rem q 60)) in
      mins ++ ":" ++ padStart0 2 secs
  | _ => "0:00"
  end.

(** One [<li>] of the playlist (lines 486-511): its key, its two class flags,
    its title and its duration text. *)
Record PlaylistItem := {
  item_key : Z;
  item_active : bool;
  item_playing : bool;
  item_title : string;
  item_duration : string
}.

Definition playlistItem (s : State) (index : nat) (track : Track) : PlaylistItem :=
  let isActive := Z.of_nat index =? currentTrackIndex s in
  let isPlaying :=
    isActive && negb (match audioRef s with Some a => paused a | None => false end) in
  let durationText :=
    if Qle_bool (duration track) 0 then "--:--"
    else formatTime (Finite (duration track)) in
  {| item_key := id track; item_active := isActive; item_playing := isPlaying;
     item_title := name track; item_duration := durationText |}.

(** The content of the playlist window (lines 479-513). *)
Inductive PlaylistContent :=
| PlaylistEmpty
| PlaylistList (items : list PlaylistItem).

Definition renderPlaylist (s : State) : PlaylistContent :=
  if (length (playlist s) =? 0)%nat then PlaylistEmpty
  else PlaylistList (imap (playlistItem s) (playlist s)).

(** The two click handlers of an item (lines 495 and 504-507). *)
Definition clickItem (index : nat) : M unit :=
  playTrackFromPlaylist (Z.of_nat index).

Definition clickRemove (track : Track) : M unit :=
  removeFromPlaylist (id track).

(** ** The background image and its persistence *)

(** The four style properties the component writes on the background layer. *)
Record BackgroundStyle := {
  backgroundImage : string;
  backgroundSize : string;
  backgroundPosition : string;
  backgroundRepeat : string
}.

(** The browser's [localStorage] and the background element of the screen
    that is mounted ([None] when there is no such element). *)
Record Backdrop := {
  localStorage : gmap string string;
  background : option BackgroundStyle
}.

Definition coverWith (bgImage : string) : BackgroundStyle :=
  {| backgroundImage := "url(" ++ bgImage ++ ")"; backgroundSize := "cover";
     backgroundPosition := "center"; backgroundRepeat := "no-repeat" |}.

(** [handleImageUpload] (lines 341-357) starts reading the file only when a
    file was chosen and the background element exists. *)
Definition imageUploadStarts (file : option string) (b : Backdrop) : bool :=
  match file, background b with
  | Some _, Some _ => true
  | _, _ => false
  end.

(** The [reader.onload] callback (lines 345-354), with the data URL read. *)
Definition imageLoaded (bgImage : string) (b : Backdrop) : Backdrop :=
  match background b with
  | Some _ =>
      {| localStorage := <["backgroundImage" := bgImage]> (localStorage b);
         background := Some (coverWith bgImage) |}
  | None => b
  end.

(** The mount effect that restores the image (lines 360-368; the store screen
    has the same effect at lines 608-617). *)
Definition loadSavedBackground (b : Backdrop) : Backdrop :=
  match localStorage b !! "backgroundImage", background b with
  | Some savedBgImage, Some _ =>
      if String.eqb savedBgImage "" then b
      else {| localStorage := localStorage b;
              background := Some (coverWith savedBgImage) |}
  | _, _ => b
  end.

(** Another screen is mounted: same storage, its own background element. *)
Definition remount (element : option BackgroundStyle) (b : Backdrop) : Backdrop :=
  {| localStorage := localStorage b; background := element |}.

(** ** The beat store *)

(** [interface Beat] (lines 526-533); [cartId] is absent on catalogue
    entries. *)
Record Beat := {
  beat_id : Z;
  title : string;
  artist : string;
  price : JsNumber;
  image : option string;
  cartId : option Z
}.

(** The catalogue (lines 537-546); [p] is the decimal literal of the price. *)
Definition catalogue_entry (i : Z) (t : string) (p : Q) : Beat :=
  {| beat_id := i; title := t; artist := "GNSVRS"; price := js_literal p;
     image := None; cartId := None |}.

Definition beats : list Beat :=
  [ catalogue_entry 1 "Urban Dreams" (999 # 100);
    catalogue_entry 2 "Midnight Vibes" (1299 # 100);
    catalogue_entry 3 "City Lights" (1499 # 100);
    catalogue_entry 4 "Neon Nights" (1199 # 100);
    catalogue_entry 5 "Street Flow" (1099 # 100);
    catalogue_entry 6 "Electric Pulse" (1399 # 100);
    catalogue_entry 7 "Digital Waves" (1599 # 100);
    catalogue_entry 8 "Future Bass" (1299 # 100) ].

Inductive Alert :=
| AlertPreview (beatTitle beatArtist : string)
| AlertCartEmpty
| AlertCheckout (total : string).

(** The store screen: its two [useState] cells and the alerts shown so far. *)
Record Store := {
  cart : list Beat;
  cartModalOpen : bool;
  alerts : list Alert
}.

Definition emptyStore : Store :=
  {| cart := []; cartModalOpen := false; alerts := [] |}.

(** [x.toFixed(2)]: from [10^21] on the number is printed as [toString]
    prints it (such a double is an integer); below, the nearest number of
    hundredths to the exact value of the double is printed, the larger one on
    a tie, with two decimals. *)
Definition toFixed2 (x : JsNumber) : string :=
  match x with
  | NaN => "NaN"
  | Infinity => "Infinity"
  | NegInfinity => "-Infinity"
  | Finite q =>
      if Qle_bool (inject_Z (10 ^ 21)) (Qabs q) then show_integer (Qfloor q)
      else
        let n := Qfloor (Qabs q * 100 + (1 # 2)) in
        (if Qle_bool 0 q then "" else "-")
          ++ show_int (n / 100) ++ "." ++ padStart0 2 (show_int (n mod 100))
  end.

(** [formatPrice] (lines 565-567): [parseFloat(price.toString())] gives the
    number back. *)
Definition formatPrice (p : JsNumber) : string := toFixed2 p.

(** [beats.find(b => b.id === beatId)]. *)
Definition findBeat (beatId : Z) : option Beat :=
  List.find (fun b => beat_id b =? beatId) beats.

(** [addToCart] (lines 570-575); [newCartId] stands for the number
    [Date.now() + Math.random()], which the code only ever compares with
    [!==]. *)
Definition addToCart (beatId newCartId : Z) (st : Store) : Store :=
  match findBeat beatId with
  | Some beat =>
      {| cart := cart st ++
                 [{| beat_id := beat_id beat; title := title beat;
                     artist := artist beat; price := price beat;
                     image := image beat; cartId := Some newCartId |}];
         cartModalOpen := cartModalOpen st; alerts := alerts st |}
  | None => st
  end.

(** [removeFromCart] (lines 578-580). *)
Definition removeFromCart (cid : Z) (st : Store) : Store :=
  {| cart := filter (fun item => cartId item <> Some cid) (cart st);
     cartModalOpen := cartModalOpen st; alerts := alerts st |}.

(** [previewBeat] (lines 583-588). *)
Definition previewBeat (beatId : Z) (st : Store) : Store :=
  match findBeat beatId with
  | Some beat =>
      {| cart := cart st; cartModalOpen := cartModalOpen st;
         alerts := alerts st ++ [AlertPreview (title beat) (artist beat)] |}
  | None => st
  end.

(** [cart.reduce((sum, item) => sum + item.price, 0)] (lines 597 and 605). *)
Definition cartTotal (c : list Beat) : JsNumber :=
  fold_left (fun sum item => js_add sum (price item)) c (Finite 0).

(** [handleCheckout] (lines 591-601). *)
Definition handleCheckout (st : Store) : Store :=
  if (length (cart st) =? 0)%nat then
    {| cart := cart st; cartModalOpen := cartModalOpen st;
       alerts := alerts st ++ [AlertCartEmpty] |}
  else
    {| cart := []; cartModalOpen := false;
       alerts := alerts st ++ [AlertCheckout (formatPrice (cartTotal (cart st)))] |}.

(** What the user does on the store screen. *)
Inductive StoreAction :=
| AddToCart (beatId newCartId : Z)
| RemoveFromCart (cid : Z)
| Preview (beatId : Z)
| OpenCart
| CloseCart
| Checkout.

Definition act (a : StoreAction) (st : Store) : Store :=
  match a with
  | AddToCart beatId newCartId => addToCart beatId newCartId st
  | RemoveFromCart cid => removeFromCart cid st
  | Preview beatId => previewBeat beatId st
  | OpenCart => {| cart := cart st; cartModalOpen := true; alerts := alerts st |}
  | CloseCart => {| cart := cart st; cartModalOpen := false; alerts := alerts st |}
  | Checkout => handleCheckout st
  end.

Definition acts (l : list StoreAction) (st : Store) : Store :=
  fold_left (fun st a => act a st) l st.

(** ** Views, predicates and sample states of the further properties *)

(** The first track is playing and the render loop has its first frame
    pending. *)
Definition loop_running : State :=
  set_animationIdRef (Some 1%positive)
    (set_nextHandle 2
       (set_frames [(1%positive, current_env playing_first)] playing_first)).

(** A computation that returns normally from every state. *)
Definition never_throws {A} (m : M A) : Prop :=
  forall s, exists a, m s = (Normal a, exec m s).

(** What a render tick reads and writes. *)
Definition loop_inputs (s : State) :=
  (frames s, animationIdRef s, nextHandle s, canvasRef s, dataArrayRef s,
   bufferLengthRef s, vw s, vh s, vibrationEnabled s, backgroundRef s).

(** The audio element without its capture slot. *)
Definition element_view (s : State) :=
  (fun a => (src a, paused a, ended a, currentTime a, loading a,
             loadedListeners a, autoplayAllowed a)) <$> audioRef s.

(** The state of the audio context, if there is one. *)
Definition context_state (s : State) : option ContextState :=
  ctx_state <$> audioContextRef s.

(** The state of the audio context together with its unsettled promises. *)
Definition resume_view (s : State) :=
  (fun c => (ctx_state c, pendingResumes c)) <$> audioContextRef s.

(** What the guarded call [if (state === 'suspended') resume()] makes of the
    context. *)
Definition request_resume (cb : ResumeCallbacks) (c : AudioContext) : AudioContext :=
  match ctx_state c with
  | Suspended => add_pending_resume cb c
  | _ => c
  end.


Definition paused_first : State :=
  set_audioRef (Some (with_src "blob:a" fresh_audio))
    (set_currentTrackIndex 0 three_tracks).


(** The element plays [u], is bound to the graph and has [k] [loadeddata]
    listeners left; the graph is attached and [log] is the console. *)
Definition attached_playing (u : string) (c : AudioContext) (log : list LogEntry)
    (k : nat) (t : State) : Prop :=
  (exists a, audioRef t = Some a /\ src a = u /\ paused a = false /\
     ended a = false /\ captured a = true /\ loading a = None /\
     autoplayAllowed a = true /\ loadedListeners a = k) /\
  isSourceCreatedRef t = true /\
  audioContextRef t = Some c /\
  console t = log.

(** The first track was selected twice before its data arrived. *)
Definition selected_twice : State :=
  exec (step (EvSelect 0);; step (EvSelect 0)) three_tracks.

Definition is_blob (u : string) : bool := String.prefix "blob:" u.

(** The two decimal digits of a number below 100. *)
Definition two_digits (n : Z) : string :=
  String (Ascii.ascii_of_nat (48 + Z.to_nat (n / 10)))
    (String (Ascii.ascii_of_nat (48 + Z.to_nat (n mod 10))) "").

Definition rendered_items (c : PlaylistContent) : list PlaylistItem :=
  match c with
  | PlaylistEmpty => []
  | PlaylistList items => items
  end.

(** The rational [q] is the value of a double, in lowest terms: rounding it
    changes nothing. *)
Definition is_double (q : Q) : Prop := round_double q = Finite q.

(** The price of an item in cents. *)
Definition cents (b : Beat) : Z :=
  match price b with
  | Finite p => round_half_even (p * 100)
  | _ => 0
  end.

Definition cart_cents (l : list Beat) : Z :=
  fold_right (fun b acc => cents b + acc) 0 l.

(** Reading the Standard Library's binary64 numbers as [JsNumber]s, to
    compare [round_double] with its operations. *)
Definition of_spec_float (f : spec_float) : JsNumber :=
  match f with
  | S754_zero _ => Finite 0
  | S754_finite sign m e =>
      Finite (Qred ((if sign then -1 else 1) * inject_Z (Zpos m) * Qpow2 e))
  | S754_nan => NaN
  | S754_infinity sign => if sign then NegInfinity else Infinity
  end.

Definition spec_float_of_Z (z : Z) : spec_float := binary_normalize 53 1024 z 0 false.

(** The item is a copy of a catalogue entry, up to its cart id. *)
Definition from_catalogue (item : Beat) : Prop :=
  exists entry, In entry beats /\ beat_id item = beat_id entry /\
    title item = title entry /\ price item = price entry.

(** The eight beats of the catalogue are put into the cart, one after the
    other. *)
Definition all_beats : list StoreAction :=
  [AddToCart 1 101; AddToCart 2 102; AddToCart 3 103; AddToCart 4 104;
   AddToCart 5 105; AddToCart 6 106; AddToCart 7 107; AddToCart 8 108].

Definition first_visit : Backdrop :=
  {| localStorage := ∅;
     background := Some {| backgroundImage := ""; backgroundSize := "";
                           backgroundPosition := ""; backgroundRepeat := "" |} |}.

(** * Proofs *)

Ltac unfold_M :=
  unfold exec, outcome, mbind, M_bind, mret, M_ret, get, modify, skip, throw,
    try_catch in *.

Ltac unfold_ops :=
  unfold audio_pause, audio_rewind, audio_set_src, audio_load,
    add_loaded_listener, revokeObjectURL, on_audio, cancelAnimationFrame,
    clearRect, resume, log, connect in *.

(** ** [stopAnimation] *)

(** What [stopAnimation] leaves behind, field by field. *)
Lemma stopAnimation_effect s :
  let s' := exec stopAnimation s in
  stopAnimation s = (Normal tt, s') /\
  animationIdRef s' = None /\
  canvasRef s' = (fun _ => []) <$> canvasRef s /\
  backgroundRef s' = (fun _ => Translate 0 0) <$> backgroundRef s /\
  frames s' =
    match animationIdRef s with
    | Some h => List.filter (fun f => negb (Pos.eqb (fst f) h)) (frames s)
    | None => frames s
    end.
Proof.
  unfold stopAnimation. unfold_ops. unfold_M.
  destruct (animationIdRef s) eqn:E; simpl; rewrite ?E; auto.
Qed.

(** And what it leaves alone. *)
Lemma stopAnimation_frame s :
  let s' := exec stopAnimation s in
  playlist s' = playlist s /\ currentTrackIndex s' = currentTrackIndex s /\
  loopTrack s' = loopTrack s /\ loopPlaylist s' = loopPlaylist s /\
  audioRef s' = audioRef s /\ audioContextRef s' = audioContextRef s /\
  isSourceCreatedRef s' = isSourceCreatedRef s /\ revoked s' = revoked s /\
  timers s' = timers s /\ console s' = console s.
Proof.
  unfold stopAnimation. unfold_ops. unfold_M.
  destruct (animationIdRef s); simpl; repeat split.
Qed.

(** ** [playTrackFromPlaylist] *)

Lemma in_range_test (i n : Z) :
  (0 <=? i) && (i <? n) = true <-> 0 <= i < n.
Proof. rewrite andb_true_iff, Z.leb_le, Z.ltb_lt. tauto. Qed.

Lemma playlist_lookup_in_range (l : list Track) (i : Z) :
  0 <= i < Z.of_nat (length l) -> exists t, l !! Z.to_nat i = Some t.
Proof.
  intros Hi. destruct (l !! Z.to_nat i) eqn:E; eauto.
  apply lookup_ge_None in E. lia.
Qed.

Lemma playTrack_in_range s i track audio :
  0 <= i < Z.of_nat (length (playlist s)) ->
  playlist s !! Z.to_nat i = Some track ->
  audioRef s = Some audio ->
  let s' := exec (playTrackFromPlaylist i) s in
  outcome (playTrackFromPlaylist i) s = Normal tt /\
  currentTrackIndex s' = i /\
  playlist s' = playlist s /\
  animationIdRef s' = None /\
  exists a', audioRef s' = Some a' /\ src a' = url track /\
             loading a' = Some (url track) /\ paused a' = true /\
             currentTime a' = 0%Q.
Proof.
  intros Hi Ht Ha.
  unfold playTrackFromPlaylist, playTrackFromPlaylist_in, stopAnimation,
    ensureAudioContextActive.
  unfold_ops. unfold_M. cbn beta.
  apply in_range_test in Hi. rewrite Hi, Ht, Ha. simpl.
  destruct (animationIdRef s) eqn:Eid; simpl; rewrite ?Ha, ?Eid; simpl.
  all: destruct (negb (String.eqb (src audio) "") && String.prefix "blob:" (src audio));
    simpl; rewrite ?Ha; simpl.
  all: destruct (is_suspended (audioContextRef s)); simpl.
  all: repeat split; eauto 10.
Qed.

Lemma playTrack_out_of_range s i :
  ~ 0 <= i < Z.of_nat (length (playlist s)) ->
  playTrackFromPlaylist i s = (Normal tt, s).
Proof.
  intros Hi. unfold playTrackFromPlaylist, playTrackFromPlaylist_in. unfold_M.
  destruct ((0 <=? i) && (i <? Z.of_nat (length (playlist s)))) eqn:E; [|reflexivity].
  apply in_range_test in E. contradiction.
Qed.

(** C7. Selecting an index inside the playlist makes it the current index and
    puts exactly that track's resource into the audio element, which starts
    loading it; selecting any index outside the playlist changes nothing and
    raises nothing. *)
Theorem selectTrack_loads_exactly_that_track (s : State) (i : Z) :
  (0 <= i < Z.of_nat (length (playlist s)) ->
   forall audio, audioRef s = Some audio ->
   let s' := exec (playTrackFromPlaylist i) s in
   outcome (playTrackFromPlaylist i) s = Normal tt /\
   currentTrackIndex s' = i /\
   exists track a', playlist s !! Z.to_nat i = Some track /\
     audioRef s' = Some a' /\ src a' = url track /\
     loading a' = Some (url track)) /\
  (~ 0 <= i < Z.of_nat (length (playlist s)) ->
   playTrackFromPlaylist i s = (Normal tt, s)).
Proof.
  split.
  - intros Hi audio Ha.
    destruct (playlist_lookup_in_range _ _ Hi) as [track Ht].
    destruct (playTrack_in_range s i track audio Hi Ht Ha)
      as (Hn & Hc & _ & _ & a' & Ha' & Hs & Hl & _).
    cbv zeta. repeat split; eauto 10.
  - apply playTrack_out_of_range.
Qed.

Lemma selectTrack_witness :
  currentTrackIndex (exec (playTrackFromPlaylist 1) three_tracks) = 1 /\
  playTrackFromPlaylist 3 three_tracks = (Normal tt, three_tracks).
Proof.
  split.
  - refine (proj1 (proj2 (proj1 (selectTrack_loads_exactly_that_track three_tracks 1)
                            _ fresh_audio eq_refl))).
    simpl; lia.
  - apply (proj2 (selectTrack_loads_exactly_that_track three_tracks 3)).
    simpl; lia.
Defined.

(** ** [handleEnded] *)

Lemma handleEnded_unfold s :
  handleEnded s = ended_decision s (exec stopAnimation s).
Proof.
  unfold handleEnded at 1, ended_decision, track_count.
  destruct (stopAnimation_effect s) as (Hrun & _).
  destruct (stopAnimation_frame s) as (Hp & Hc & Hlt & Hlp & _).
  unfold mbind at 1, M_bind. rewrite Hrun.
  unfold mbind at 1, M_bind, get. rewrite Hp, Hc, Hlt, Hlp. reflexivity.
Qed.

Lemma restart_run s a :
  audioRef s = Some a ->
  let s' := exec (audio_rewind;; audio_play) s in
  outcome (audio_rewind;; audio_play) s = Normal tt /\
  currentTrackIndex s' = currentTrackIndex s /\
  revoked s' = revoked s /\
  exists a', audioRef s' = Some a' /\ src a' = src a /\
    loading a' = loading a /\ currentTime a' = 0%Q /\
    (autoplayAllowed a = true -> paused a' = false).
Proof.
  intros Ha. unfold audio_play. unfold_ops. unfold_M. simpl.
  rewrite Ha. simpl.
  destruct (autoplayAllowed a) eqn:E; simpl; rewrite ?Ha; simpl;
    repeat split; eexists; repeat split; auto; discriminate.
Qed.

Lemma advance_run s i a :
  0 <= i < track_count s ->
  audioRef s = Some a ->
  outcome (playTrackFromPlaylist i) (exec stopAnimation s) = Normal tt /\
  advanced_to i s (exec (playTrackFromPlaylist i) (exec stopAnimation s)).
Proof.
  intros Hi Ha. unfold track_count in Hi.
  destruct (stopAnimation_frame s) as (Hp & _ & _ & _ & Hau & _).
  destruct (playlist_lookup_in_range _ _ Hi) as [t Ht].
  destruct (playTrack_in_range (exec stopAnimation s) i t a)
    as (Hn & Hc & _ & _ & a' & Ha' & Hs & Hl & _);
    rewrite ?Hp, ?Hau; auto.
  split; [exact Hn|]. unfold advanced_to. repeat split; eauto 10; lia.
Qed.

(** C1 (as amended). [handleEnded] never throws and follows this precedence:
    (1) loop-track on and a track selected: the same track restarts from 0;
    (2) else loop-playlist on and the playlist non-empty: the next index is
    selected and loaded, index 0 after the last track (and whenever the
    current index does not point before the last track);
    (3) else, when a track is selected and it is not the last one, the next
    track is selected and loaded;
    (4) else, which includes the case where nothing is selected, the
    selection becomes -1 and the element is left untouched. *)
Theorem handleEnded_precedence (s : State) (a : Audio) :
  audioRef s = Some a ->
  let s' := exec handleEnded s in
  let cur := currentTrackIndex s in
  let len := track_count s in
  let first := loopTrack s = true /\ 0 <= cur in
  let second := loopPlaylist s = true /\ 0 < len in
  outcome handleEnded s = Normal tt /\
  (first -> restarted s s') /\
  (~ first -> second ->
     (0 <= cur < len - 1 -> advanced_to (cur + 1) s s') /\
     (~ 0 <= cur < len - 1 -> advanced_to 0 s s')) /\
  (~ first -> ~ second -> 0 <= cur < len - 1 -> advanced_to (cur + 1) s s') /\
  (~ first -> ~ second -> ~ 0 <= cur < len - 1 -> selection_cleared s s').
Proof.
  intros Ha. cbv zeta.
  replace (exec handleEnded s)
    with (exec (ended_decision s) (exec stopAnimation s))
    by (unfold exec; now rewrite handleEnded_unfold).
  replace (outcome handleEnded s)
    with (outcome (ended_decision s) (exec stopAnimation s))
    by (unfold outcome; now rewrite handleEnded_unfold).
  destruct (stopAnimation_frame s) as (Hp & Hc & _ & _ & Hau & _ & _ & Hrv & _).
  unfold ended_decision.
  set (cur := currentTrackIndex s). set (len := track_count s).
  destruct (loopTrack s && (0 <=? cur)) eqn:E1.
  { apply andb_true_iff in E1. destruct E1 as [Hl Hc0]. apply Z.leb_le in Hc0.
    destruct (restart_run (exec stopAnimation s) a)
      as (Hn & Hi & Hr & a' & Ha' & Hs & Hld & Ht & Hpl); [congruence|].
    split; [exact Hn|]. split.
    - intros _. unfold restarted. rewrite Hi, Hr, Hc, Hrv.
      repeat split. exists a, a'. repeat split; auto.
    - tauto. }
  assert (Hn1 : ~ (loopTrack s = true /\ 0 <= cur)).
  { intros [H1 H2]. apply Z.leb_le in H2. rewrite H1, H2 in E1. discriminate. }
  destruct (loopPlaylist s && (0 <? len)) eqn:E2.
  { apply andb_true_iff in E2. destruct E2 as [Hl Hlen]. apply Z.ltb_lt in Hlen.
    destruct ((0 <=? cur) && (cur <? len - 1)) eqn:E3.
    - apply in_range_test in E3.
      destruct (advance_run s (cur + 1) a) as [Hn Hadv]; [lia|auto|].
      split; [exact Hn|]. tauto.
    - assert (~ 0 <= cur < len - 1) by (rewrite <- in_range_test; congruence).
      destruct (advance_run s 0 a) as [Hn Hadv]; [lia|auto|].
      split; [exact Hn|]. tauto. }
  assert (Hn2 : ~ (loopPlaylist s = true /\ 0 < len)).
  { intros [H1 H2]. apply Z.ltb_lt in H2. rewrite H1, H2 in E2. discriminate. }
  destruct ((0 <=? cur) && (cur <? len - 1)) eqn:E3.
  - apply in_range_test in E3.
    destruct (advance_run s (cur + 1) a) as [Hn Hadv]; [lia|auto|].
    split; [exact Hn|]. tauto.
  - assert (~ 0 <= cur < len - 1) by (rewrite <- in_range_test; congruence).
    unfold modify, exec, outcome, selection_cleared. simpl. tauto.
Qed.

Lemma handleEnded_precedence_witness :
  advanced_to 0 looping_last_track (exec handleEnded looping_last_track).
Proof.
  refine (proj2 (proj1 (proj2 (proj2
    (handleEnded_precedence looping_last_track fresh_audio eq_refl))) _ _) _).
  - simpl. intros [H _]. discriminate H.
  - split; reflexivity.
  - unfold track_count. simpl. lia.
Defined.

(** C1, counterexample. Three tracks, nothing selected, both loop flags off:
    the index -1 is not the last index 2, yet the handler does not advance to
    index 0; it keeps the selection at -1. *)
Lemma handleEnded_unselected_does_not_advance :
  currentTrackIndex three_tracks = -1 /\
  currentTrackIndex (exec handleEnded three_tracks) = -1 /\
  ~ advances_unless_last three_tracks.
Proof.
  split; [reflexivity|]. split; [reflexivity|].
  intros H. destruct H as (_ & Hc & _); try reflexivity.
  - vm_compute. discriminate.
  - vm_compute in Hc. discriminate Hc.
Qed.

(** ** Loop flags *)

Lemma click_keeps_exclusive b s :
  loopTrack s && loopPlaylist s = false ->
  loopTrack (exec (click b) s) && loopPlaylist (exec (click b) s) = false.
Proof.
  intros H.
  destruct b; unfold click, toggleLoopTrack, toggleLoopPlaylist; unfold_M;
    destruct (loopTrack s) eqn:E1, (loopPlaylist s) eqn:E2;
    simpl; rewrite ?E1, ?E2; simpl; auto.
Qed.

Lemma clicks_keep_exclusive bs : forall s,
  loopTrack s && loopPlaylist s = false ->
  loopTrack (clicks bs s) && loopPlaylist (clicks bs s) = false.
Proof.
  induction bs as [|b bs IH]; intros s H; simpl; [exact H|].
  apply IH, click_keeps_exclusive, H.
Qed.

(** C4. Starting with both loop flags off, after any sequence of clicks on
    the two loop buttons the flags are not both on; and from any such state a
    click that turns one flag on leaves the other off. *)
Theorem loop_flags_mutually_exclusive (bs : list LoopButton) (s : State) :
  loopTrack s = false -> loopPlaylist s = false ->
  let s' := clicks bs s in
  loopTrack s' && loopPlaylist s' = false /\
  (loopTrack s' = false ->
     loopTrack (exec toggleLoopTrack s') = true /\
     loopPlaylist (exec toggleLoopTrack s') = false) /\
  (loopPlaylist s' = false ->
     loopPlaylist (exec toggleLoopPlaylist s') = true /\
     loopTrack (exec toggleLoopPlaylist s') = false).
Proof.
  intros H1 H2. cbv zeta. split.
  - apply clicks_keep_exclusive. rewrite H1. reflexivity.
  - unfold toggleLoopTrack, toggleLoopPlaylist. unfold_M. simpl.
    split; intros H; rewrite H; simpl; auto.
Qed.

Lemma loop_flags_witness :
  let s' := clicks [LoopTrackBtn; LoopPlaylistBtn; LoopPlaylistBtn; LoopTrackBtn]
                   mountedState in
  loopTrack s' && loopPlaylist s' = false.
Proof.
  exact (proj1 (loop_flags_mutually_exclusive
    [LoopTrackBtn; LoopPlaylistBtn; LoopPlaylistBtn; LoopTrackBtn]
    mountedState eq_refl eq_refl)).
Defined.

(** ** [setupAudioSource] *)

Lemma src_nonempty_test (u : string) : u <> "" -> negb (String.eqb u "") = true.
Proof.
  intros H. destruct (String.eqb_spec u ""); [contradiction | reflexivity].
Qed.

Lemma in_add_edge e c : In e (edges (add_edge e c)).
Proof.
  unfold add_edge. simpl. destruct (existsb (edge_eqb e) (edges c)) eqn:E.
  - apply existsb_exists in E. destruct E as ([x y] & Hin & Heq).
    destruct e as [a b]. unfold edge_eqb in Heq. simpl in Heq.
    apply andb_true_iff in Heq. destruct Heq as [H1 H2].
    destruct a, x; try discriminate; destruct b, y; try discriminate; exact Hin.
  - apply in_or_app. right. left. reflexivity.
Qed.

Lemma in_add_edge_other e f c : In e (edges c) -> In e (edges (add_edge f c)).
Proof.
  unfold add_edge. simpl. destruct (existsb (edge_eqb f) (edges c)); auto.
  intros H. apply in_or_app. now left.
Qed.

Lemma edge_eqb_refl e : edge_eqb e e = true.
Proof. destruct e as [[] []]; reflexivity. Qed.

Lemma add_edge_idem e c : add_edge e (add_edge e c) = add_edge e c.
Proof.
  assert (H : existsb (edge_eqb e) (edges (add_edge e c)) = true).
  { apply existsb_exists. exists e. split; [apply in_add_edge | apply edge_eqb_refl]. }
  set (d := add_edge e c) in *. unfold add_edge. rewrite H. now destruct d.
Qed.

(** The [try] block throws exactly when the element already has a source
    node, and then it has changed nothing. *)
Lemma construct_graph_throws s a :
  audioRef s = Some a -> captured a = true ->
  construct_graph s = (Threw InvalidStateError, s).
Proof.
  intros Ha Hc. unfold construct_graph, createMediaElementSource. unfold_M.
  rewrite Ha, Hc. reflexivity.
Qed.

Lemma construct_graph_failure s a e :
  audioRef s = Some a -> outcome construct_graph s = Threw e -> captured a = true.
Proof.
  intros Ha. unfold construct_graph, createMediaElementSource. unfold_ops. unfold_M.
  rewrite Ha. destruct (captured a); [reflexivity | discriminate].
Qed.

Lemma construct_graph_succeeds s a c :
  audioRef s = Some a -> audioContextRef s = Some c -> captured a = false ->
  let s' := exec construct_graph s in
  construct_graph s = (Normal tt, s') /\
  isSourceCreatedRef s' = true /\
  audioRef s' = Some (with_captured true a) /\
  audioContextRef s' =
    Some (add_edge (AnalyserNode, Destination) (add_edge (SourceNode, AnalyserNode) c)).
Proof.
  intros Ha Hc Hcap. unfold construct_graph, createMediaElementSource.
  unfold_ops. unfold_M. rewrite Ha, Hcap. simpl. rewrite Ha, Hc. simpl. auto.
Qed.

Lemma fallback_run s c e :
  audioContextRef s = Some c ->
  let s' := exec (connect_fallback e) s in
  connect_fallback e s = (Normal tt, s') /\
  audioContextRef s' = Some (add_edge (AnalyserNode, Destination) c) /\
  audioRef s' = audioRef s /\
  isSourceCreatedRef s' = isSourceCreatedRef s /\
  console s' = (console s ++ [LogError "Error creating audio source:"])%list /\
  playlist s' = playlist s /\ currentTrackIndex s' = currentTrackIndex s.
Proof.
  intros Hc. unfold connect_fallback. unfold_ops. unfold_M. simpl.
  rewrite Hc. simpl. auto 10.
Qed.

(** The guard of [setupAudioSource] on a mounted element with a source that
    is not yet marked attached: the [try]/[catch] runs. *)
Lemma setupAudioSource_attempts s a c :
  audioRef s = Some a -> audioContextRef s = Some c ->
  isSourceCreatedRef s = false -> src a <> "" ->
  setupAudioSource s = try_catch construct_graph connect_fallback s.
Proof.
  intros Ha Hc Hf Hs. unfold setupAudioSource at 1.
  unfold mbind, M_bind, get. rewrite Ha, Hc, Hf, (src_nonempty_test _ Hs). reflexivity.
Qed.

Lemma setupAudioSource_attached s :
  isSourceCreatedRef s = true -> setupAudioSource s = (Normal tt, s).
Proof.
  intros Hf. unfold setupAudioSource. unfold_M. rewrite Hf. simpl.
  destruct (audioRef s), (audioContextRef s); reflexivity.
Qed.

(** The failing path as a whole. *)
Lemma setupAudioSource_degrades s a c :
  audioRef s = Some a -> audioContextRef s = Some c ->
  isSourceCreatedRef s = false -> src a <> "" -> captured a = true ->
  let s' := exec setupAudioSource s in
  setupAudioSource s = (Normal tt, s') /\
  audioContextRef s' = Some (add_edge (AnalyserNode, Destination) c) /\
  audioRef s' = Some a /\
  isSourceCreatedRef s' = false /\
  console s' = (console s ++ [LogError "Error creating audio source:"])%list /\
  playlist s' = playlist s /\ currentTrackIndex s' = currentTrackIndex s.
Proof.
  intros Ha Hc Hf Hs Hcap. cbv zeta. unfold exec.
  rewrite (setupAudioSource_attempts s a c Ha Hc Hf Hs).
  unfold try_catch. rewrite (construct_graph_throws s a Ha Hcap).
  destruct (fallback_run s c InvalidStateError Hc) as (Hr & Hctx & Hau & Hfl & Hco & Hp & Hi).
  rewrite Hr. simpl. unfold exec in *. rewrite Hr in *. simpl in *.
  repeat split; congruence.
Qed.

(** C9. If constructing the capture node fails, [setupAudioSource] still
    returns normally, the analyser ends up connected to the output device
    (and nothing else is connected), and the element and the selection are
    exactly as they were. *)
Theorem failed_capture_falls_back_to_direct_output
    (s : State) (a : Audio) (c : AudioContext) (e : Exn) :
  audioRef s = Some a -> audioContextRef s = Some c ->
  isSourceCreatedRef s = false -> src a <> "" ->
  outcome construct_graph s = Threw e ->
  let s' := exec setupAudioSource s in
  outcome setupAudioSource s = Normal tt /\
  audioContextRef s' = Some (add_edge (AnalyserNode, Destination) c) /\
  (exists c', audioContextRef s' = Some c' /\ In (AnalyserNode, Destination) (edges c')) /\
  audioRef s' = audioRef s /\
  playlist s' = playlist s /\ currentTrackIndex s' = currentTrackIndex s.
Proof.
  intros Ha Hc Hf Hs Hthrow. cbv zeta.
  pose proof (construct_graph_failure s a e Ha Hthrow) as Hcap.
  destruct (setupAudioSource_degrades s a c Ha Hc Hf Hs Hcap)
    as (Hr & Hctx & Hau & _ & _ & Hp & Hi).
  unfold outcome. rewrite Hr. simpl. repeat split; try congruence.
  eexists. split; [exact Hctx | apply in_add_edge].
Qed.

Lemma failed_capture_witness :
  exists c', audioContextRef (exec setupAudioSource foreign_capture) = Some c' /\
             In (AnalyserNode, Destination) (edges c').
Proof.
  refine (proj1 (proj2 (proj2
    (failed_capture_falls_back_to_direct_output foreign_capture _ _ InvalidStateError
       eq_refl eq_refl eq_refl _ eq_refl)))).
  discriminate.
Defined.

Lemma attach_times_failing n : forall s a c,
  audioRef s = Some a -> audioContextRef s = Some c ->
  isSourceCreatedRef s = false -> captured a = true -> src a <> "" ->
  let sn := attach_times n s in
  audioRef sn = Some a /\ (exists c', audioContextRef sn = Some c') /\
  isSourceCreatedRef sn = false.
Proof.
  induction n as [|n IH]; intros s a c Ha Hc Hf Hcap Hs; cbv zeta.
  - simpl. eauto.
  - unfold attach_times. simpl. fold (attach_times n s).
    destruct (IH s a c Ha Hc Hf Hcap Hs) as (Ha' & [c' Hc'] & Hf').
    destruct (setupAudioSource_degrades _ a c' Ha' Hc' Hf' Hs Hcap)
      as (_ & Hctx & Hau & Hfl & _).
    eauto.
Qed.

(** C10. After capture-node construction has failed, the attached flag is
    still false, and this stays so however often attach is called: every
    further call runs the [try] block again, whose construction throws
    again, and the call is not a no-op (it reports the error once more). *)
Theorem failed_attach_is_retried
    (n : nat) (s : State) (a : Audio) (c : AudioContext) (e : Exn) :
  audioRef s = Some a -> audioContextRef s = Some c ->
  isSourceCreatedRef s = false -> src a <> "" ->
  outcome construct_graph s = Threw e ->
  let sn := attach_times (S n) s in
  isSourceCreatedRef sn = false /\
  setupAudioSource sn = try_catch construct_graph connect_fallback sn /\
  outcome construct_graph sn = Threw InvalidStateError /\
  console (exec setupAudioSource sn) =
    (console sn ++ [LogError "Error creating audio source:"])%list /\
  setupAudioSource sn <> (Normal tt, sn).
Proof.
  intros Ha Hc Hf Hs Hthrow. cbv zeta.
  pose proof (construct_graph_failure s a e Ha Hthrow) as Hcap.
  destruct (attach_times_failing (S n) s a c Ha Hc Hf Hcap Hs) as (Ha' & [c' Hc'] & Hf').
  set (sn := attach_times (S n) s) in *.
  destruct (setupAudioSource_degrades sn a c' Ha' Hc' Hf' Hs Hcap)
    as (Hr & _ & _ & _ & Hco & _).
  split; [exact Hf'|]. split; [now apply (setupAudioSource_attempts sn a c')|].
  split; [unfold outcome; now rewrite (construct_graph_throws sn a Ha' Hcap)|].
  split; [exact Hco|].
  intros Heq. rewrite Hr in Heq. injection Heq as Heq.
  rewrite Heq in Hco. apply (f_equal (@length LogEntry)) in Hco.
  rewrite length_app in Hco. simpl in Hco. lia.
Qed.

Lemma failed_attach_witness :
  isSourceCreatedRef (attach_times 3 foreign_capture) = false.
Proof.
  refine (proj1 (failed_attach_is_retried 2 foreign_capture _ _ InvalidStateError
                   eq_refl eq_refl eq_refl _ eq_refl)).
  discriminate.
Defined.

(** C3 (as amended). On an element with a non-empty source, attach never
    throws, and two calls leave the same graph connections, the same element
    and the same attached flag as one call.  When the capture node can be
    constructed, the first call builds capture -> analysis -> output and
    marks the element attached, and the second call is a no-op; once the
    element is marked attached every call is a no-op. *)
Theorem attach_twice_same_graph (s : State) (a : Audio) (c : AudioContext) :
  audioRef s = Some a -> audioContextRef s = Some c -> src a <> "" ->
  let s1 := exec setupAudioSource s in
  let s2 := exec setupAudioSource s1 in
  outcome setupAudioSource s = Normal tt /\
  outcome setupAudioSource s1 = Normal tt /\
  audioContextRef s2 = audioContextRef s1 /\
  audioRef s2 = audioRef s1 /\
  isSourceCreatedRef s2 = isSourceCreatedRef s1 /\
  (isSourceCreatedRef s = false -> captured a = false ->
     isSourceCreatedRef s1 = true /\
     (exists c1, audioContextRef s1 = Some c1 /\
        In (SourceNode, AnalyserNode) (edges c1) /\
        In (AnalyserNode, Destination) (edges c1)) /\
     second_attach_is_noop s) /\
  (isSourceCreatedRef s = true ->
     setupAudioSource s = (Normal tt, s) /\ second_attach_is_noop s).
Proof.
  intros Ha Hc Hs. cbv zeta. unfold second_attach_is_noop.
  destruct (isSourceCreatedRef s) eqn:Hf.
  - (* already attached *)
    pose proof (setupAudioSource_attached s Hf) as Hr.
    unfold exec, outcome. rewrite !Hr. simpl. rewrite !Hr. simpl.
    repeat split; auto; discriminate.
  - destruct (captured a) eqn:Hcap.
    + (* construction fails, twice *)
      destruct (setupAudioSource_degrades s a c Ha Hc Hf Hs Hcap)
        as (Hr & Hctx & Hau & Hfl & _).
      set (s1 := exec setupAudioSource s) in *.
      destruct (setupAudioSource_degrades s1 a _ Hau Hctx Hfl Hs Hcap)
        as (Hr2 & Hctx2 & Hau2 & Hfl2 & _).
      unfold outcome. rewrite Hr, Hr2. simpl.
      rewrite Hctx2, Hctx, add_edge_idem, Hau2, Hau, Hfl2, Hfl.
      repeat split; auto; discriminate.
    + (* construction succeeds, then nothing more happens *)
      destruct (construct_graph_succeeds s a c Ha Hc Hcap) as (Hr & Hfl & Hau & Hctx).
      assert (Hrun : setupAudioSource s = (Normal tt, exec construct_graph s)).
      { rewrite (setupAudioSource_attempts s a c Ha Hc Hf Hs).
        unfold try_catch. rewrite Hr. reflexivity. }
      assert (Hs1 : exec setupAudioSource s = exec construct_graph s)
        by (unfold exec at 1; now rewrite Hrun).
      rewrite Hs1. set (s1 := exec construct_graph s) in *.
      pose proof (setupAudioSource_attached s1 Hfl) as Hr2.
      unfold exec at 1 2 3, outcome. rewrite Hrun, !Hr2. simpl.
      repeat split; auto; try discriminate.
      eexists. split; [exact Hctx|]. split.
      * apply in_add_edge_other, in_add_edge.
      * apply in_add_edge.
Qed.

Lemma attach_twice_witness :
  second_attach_is_noop (set_audioRef (Some (with_src "blob:a" fresh_audio)) three_tracks).
Proof.
  refine (proj2 (proj2 (proj1 (proj2 (proj2 (proj2 (proj2 (proj2
    (attach_twice_same_graph
       (set_audioRef (Some (with_src "blob:a" fresh_audio)) three_tracks)
       _ _ eq_refl eq_refl _)))))) eq_refl eq_refl))).
  discriminate.
Defined.

(** C3, counterexample. On an element that already has a capture node the
    first attach fails and the second one is not a no-op: it tries again and
    reports the failure again. *)
Lemma second_attach_after_failure_is_not_noop :
  (exists a, audioRef foreign_capture = Some a /\ src a <> "") /\
  ~ second_attach_is_noop foreign_capture.
Proof.
  split.
  - eexists. split; [reflexivity | discriminate].
  - unfold second_attach_is_noop. cbv zeta. intros H.
    apply (f_equal (fun r => List.length (console (snd r)))) in H.
    vm_compute in H. discriminate H.
Qed.

(** ** [removeFromPlaylist] *)

Lemma frames_ok_stop s : frames_ok s -> frames (exec stopAnimation s) = [].
Proof.
  intros Hok. destruct (stopAnimation_effect s) as (_ & _ & _ & _ & Hf).
  rewrite Hf. unfold frames_ok in Hok.
  destruct (frames s) as [|[h env] [|f fs]]; [now destruct (animationIdRef s)| |contradiction].
  rewrite Hok. simpl. now rewrite Pos.eqb_refl.
Qed.

Lemma filter_other_ids (l : list Track) (tid : Z) :
  tid ∉ id <$> l -> filter (fun t => id t <> tid) l = l.
Proof.
  induction l as [|x l IH]; intros Hn; [reflexivity|].
  rewrite fmap_cons in Hn. apply not_elem_of_cons in Hn. destruct Hn as [Hx Hl].
  rewrite filter_cons_True by congruence. now rewrite IH.
Qed.

(** With unique ids, filtering out an id drops exactly the entry that
    [findIndex] found. *)
Lemma filter_drops_found (l : list Track) (tid : Z) : forall i t,
  NoDup (id <$> l) ->
  list_find (fun t => id t = tid) l = Some (i, t) ->
  filter (fun t => id t <> tid) l = delete i l.
Proof.
  induction l as [|x l IH]; intros i t Hnd Hfind; [discriminate|].
  rewrite fmap_cons in Hnd. apply NoDup_cons in Hnd. destruct Hnd as [Hx Hnd].
  simpl in Hfind. destruct (decide (id x = tid)) as [Heq|Hne].
  - injection Hfind as <- <-. rewrite filter_cons_False by tauto.
    simpl. apply filter_other_ids. now rewrite <- Heq.
  - destruct (list_find (fun t => id t = tid) l) as [[j u]|] eqn:E; [|discriminate].
    simpl in Hfind. injection Hfind as <- <-.
    rewrite filter_cons_True by exact Hne. simpl. f_equal. now apply (IH j u).
Qed.

Lemma list_find_index_lt (l : list Track) (tid : Z) i t :
  list_find (fun t => id t = tid) l = Some (i, t) -> (i < length l)%nat.
Proof.
  intros H. apply list_find_Some in H. destruct H as (H & _).
  now apply lookup_lt_Some in H.
Qed.

(** The state after removing a track that is in the playlist. *)
Lemma removeFromPlaylist_found s tid index track :
  list_find (fun t => id t = tid) (playlist s) = Some (index, track) ->
  let s' := exec (removeFromPlaylist tid) s in
  let cur := currentTrackIndex s in
  outcome (removeFromPlaylist tid) s = Normal tt /\
  playlist s' = filter (fun t => id t <> tid) (playlist s) /\
  (cur = Z.of_nat index ->
     currentTrackIndex s' = -1 /\
     audioRef s' = with_paused true <$> audioRef s /\
     animationIdRef s' = None /\
     canvasRef s' = (fun _ => []) <$> canvasRef s /\
     backgroundRef s' = (fun _ => Translate 0 0) <$> backgroundRef s /\
     frames s' = frames (exec stopAnimation s)) /\
  (Z.of_nat index < cur -> currentTrackIndex s' = cur - 1) /\
  (cur < Z.of_nat index -> currentTrackIndex s' = cur) /\
  timers s' = timers s.
Proof.
  intros Hfind. cbv zeta.
  unfold removeFromPlaylist, stopAnimation. unfold_ops. unfold_M. cbn beta.
  rewrite Hfind.
  destruct (String.prefix "blob:" (url track)); simpl.
  all: destruct (currentTrackIndex s =? Z.of_nat index) eqn:E1; simpl;
    [apply Z.eqb_eq in E1 | apply Z.eqb_neq in E1].
  all: try (destruct (animationIdRef s) eqn:Eid; simpl; rewrite ?Eid; simpl;
            repeat split; auto; lia).
  all: destruct (Z.of_nat index <? currentTrackIndex s) eqn:E2; simpl;
    [apply Z.ltb_lt in E2 | apply Z.ltb_ge in E2].
  all: repeat split; auto; lia.
Qed.

Lemma removeFromPlaylist_absent s tid :
  list_find (fun t => id t = tid) (playlist s) = None ->
  removeFromPlaylist tid s = (Normal tt, s).
Proof.
  intros Hfind. unfold removeFromPlaylist. unfold_M. now rewrite Hfind.
Qed.

(** C5. With unique track ids and a valid selection, [removeFromPlaylist]
    leaves a valid selection.  Removing the selected track clears the
    selection to -1, pauses the element and leaves the render loop stopped:
    no frame handle, no pending frame, an empty canvas and a zero background
    offset.  Removing an earlier track decrements the index, which then
    points at the same track as before; removing a later one leaves index and
    track alone.  Removing an id that is not in the playlist changes
    nothing. *)
Theorem removeTrack_revalidates_selection (s : State) (trackId : Z) :
  NoDup (id <$> playlist s) ->
  selection_ok s ->
  let s' := exec (removeFromPlaylist trackId) s in
  let cur := currentTrackIndex s in
  outcome (removeFromPlaylist trackId) s = Normal tt /\
  selection_ok s' /\
  (forall index track,
     list_find (fun t => id t = trackId) (playlist s) = Some (index, track) ->
     playlist s' = delete index (playlist s) /\
     (cur = Z.of_nat index ->
        currentTrackIndex s' = -1 /\
        audioRef s' = with_paused true <$> audioRef s /\
        animationIdRef s' = None /\
        canvasRef s' = (fun _ => []) <$> canvasRef s /\
        backgroundRef s' = (fun _ => Translate 0 0) <$> backgroundRef s /\
        (frames_ok s -> frames s' = [])) /\
     (Z.of_nat index < cur ->
        currentTrackIndex s' = cur - 1 /\
        playlist s' !! Z.to_nat (cur - 1) = playlist s !! Z.to_nat cur) /\
     (0 <= cur < Z.of_nat index ->
        currentTrackIndex s' = cur /\
        playlist s' !! Z.to_nat cur = playlist s !! Z.to_nat cur)) /\
  (list_find (fun t => id t = trackId) (playlist s) = None ->
     removeFromPlaylist trackId s = (Normal tt, s)).
Proof.
  intros Hnd Hsel. cbv zeta.
  destruct (list_find (fun t => id t = trackId) (playlist s)) as [[index track]|] eqn:Hfind.
  2: { pose proof (removeFromPlaylist_absent s trackId Hfind) as Hr.
       unfold exec, outcome. rewrite Hr. simpl.
       split; [reflexivity|]. split; [exact Hsel|].
       split; [intros ? ? ?; discriminate | reflexivity]. }
  destruct (removeFromPlaylist_found s trackId index track Hfind)
    as (Hn & Hpl & Hcur & Hgt & Hlt & _).
  pose proof (filter_drops_found _ _ _ _ Hnd Hfind) as Hdel.
  pose proof (list_find_index_lt _ _ _ _ Hfind) as Hidx.
  rewrite Hdel in Hpl.
  assert (Hlen : track_count (exec (removeFromPlaylist trackId) s) = track_count s - 1).
  { unfold track_count. rewrite Hpl, length_delete by (apply lookup_lt_is_Some; lia). lia. }
  split; [exact Hn|]. split; [|split; [|discriminate]].
  - unfold selection_ok in *. rewrite Hlen. unfold track_count in *.
    destruct (Z.lt_trichotomy (currentTrackIndex s) (Z.of_nat index)) as [H|[H|H]].
    + rewrite (Hlt H). lia.
    + left. now apply Hcur.
    + rewrite (Hgt H). lia.
  - intros i t Heq. injection Heq as <- <-. split; [exact Hpl|].
    split; [|split].
    + intros H. destruct (Hcur H) as (H1 & H2 & H3 & H4 & H5 & H6).
      repeat split; auto. intros Hok. rewrite H6. now apply frames_ok_stop.
    + intros H. split; [now apply Hgt|].
      rewrite Hpl, list_lookup_delete_ge by lia. f_equal. lia.
    + intros H. split; [apply Hlt; lia|].
      rewrite Hpl. apply list_lookup_delete_lt. lia.
Qed.

Lemma removeTrack_witness :
  currentTrackIndex (exec (removeFromPlaylist 1) playing_third) = 1 /\
  playlist (exec (removeFromPlaylist 1) playing_third) !! Z.to_nat (2 - 1)
    = playlist playing_third !! Z.to_nat 2.
Proof.
  refine (proj1 (proj2 (proj2 (proj1 (proj2 (proj2
    (removeTrack_revalidates_selection playing_third 1 _ _))) 0%nat track_a eq_refl))) _).
  - simpl. repeat constructor; rewrite ?elem_of_cons, ?elem_of_nil; intuition discriminate.
  - right. unfold track_count. simpl. lia.
  - simpl. lia.
Defined.

(** ** [animate] *)

Lemma animate_unmounted s env spectrum rx ry :
  audioRef s = None \/ canvasRef s = None \/ audioContextRef s = None \/
    dataArrayRef s = None ->
  animate env spectrum rx ry s = (Normal tt, s).
Proof.
  intros H. unfold animate. unfold_M.
  destruct (audioRef s), (canvasRef s), (audioContextRef s), (dataArrayRef s);
    try reflexivity.
  destruct H as [H|[H|[H|H]]]; discriminate H.
Qed.

Lemma animate_not_playing s env spectrum rx ry audio canvas ctx dataArray :
  audioRef s = Some audio -> canvasRef s = Some canvas ->
  audioContextRef s = Some ctx -> dataArrayRef s = Some dataArray ->
  negb (paused audio) && negb (ended audio) = false ->
  animate env spectrum rx ry s = stopAnimation s.
Proof.
  intros Ha Hc Hx Hd Hp. unfold animate. unfold mbind at 1, M_bind, get.
  now rewrite Ha, Hc, Hx, Hd, Hp.
Qed.

(** One tick while the element is playing. *)
Lemma animate_playing s env spectrum rx ry audio canvas ctx dataArray :
  audioRef s = Some audio -> canvasRef s = Some canvas ->
  audioContextRef s = Some ctx -> dataArrayRef s = Some dataArray ->
  negb (paused audio) && negb (ended audio) = true ->
  let s' := exec (animate env spectrum rx ry) s in
  let n := bufferLengthRef s in
  let data := getByteFrequencyData spectrum dataArray in
  outcome (animate env spectrum rx ry) s = Normal tt /\
  animationIdRef s' = Some (nextHandle s) /\
  frames s' = (frames s ++ [(nextHandle s, env)])%list /\
  dataArrayRef s' = Some data /\
  canvasRef s' = Some (draw_bars env n data 0 (Z.to_nat n) 0%Q) /\
  backgroundRef s' =
    match backgroundRef s with
    | Some t =>
        if env_vibration env
        then Some (Translate (shake rx (intensity n data)) (shake ry (intensity n data)))
        else if is_zero_translate t then Some t else Some (Translate 0 0)
    | None => None
    end.
Proof.
  intros Ha Hc Hx Hd Hp. cbv zeta.
  unfold animate, requestAnimationFrame. unfold_ops. unfold_M. cbn beta.
  rewrite Ha, Hc, Hx, Hd, Hp. cbn beta iota.
  destruct (is_suspended (Some ctx)); cbn -[draw_bars intensity shake getByteFrequencyData];
    rewrite ?Hc; cbn -[draw_bars intensity shake getByteFrequencyData].
  all: destruct (backgroundRef s) as [t|] eqn:Hb;
    [destruct (env_vibration env); [|destruct (is_zero_translate t)]|];
    cbn -[draw_bars intensity shake getByteFrequencyData]; rewrite ?Hb;
    repeat split; reflexivity.
Qed.

Lemma getByteFrequencyData_full (spectrum arr : list byte) :
  length spectrum = length arr -> getByteFrequencyData spectrum arr = spectrum.
Proof.
  intros H. unfold getByteFrequencyData.
  rewrite take_ge, drop_ge by lia. apply app_nil_r.
Qed.







(** ** The frame handle *)

Lemma frames_ok_ext s s' : frame_view s' = frame_view s -> frames_ok s -> frames_ok s'.
Proof. unfold frames_ok, frame_view. now intros [= -> ->]. Qed.

Lemma keeps_frames_ok {A} (m : M A) : keeps frame_view m -> preserves frames_ok m.
Proof. intros H s Hok. eapply frames_ok_ext; eauto. Qed.

Section Keeps.
Context {B : Type} (f : State -> B).

Lemma keeps_ret {A} (a : A) : keeps f (mret a).
Proof. intros s. reflexivity. Qed.

Lemma keeps_throw {A} (e : Exn) : keeps f (@throw A e).
Proof. intros s. reflexivity. Qed.

Lemma keeps_get : keeps f get.
Proof. intros s. reflexivity. Qed.

Lemma keeps_modify (g : State -> State) :
  (forall s, f (g s) = f s) -> keeps f (modify g).
Proof. intros H s. apply H. Qed.

Lemma keeps_bind {A C} (m : M A) (k : A -> M C) :
  keeps f m -> (forall a, keeps f (k a)) -> keeps f (m ≫= k).
Proof.
  intros Hm Hk s. specialize (Hm s). unfold exec, mbind, M_bind in *.
  destruct (m s) as [[a|e] s1]; simpl in *; [|exact Hm].
  specialize (Hk a s1). unfold exec in Hk. congruence.
Qed.

Lemma keeps_try_catch {A} (m : M A) (h : Exn -> M A) :
  keeps f m -> (forall e, keeps f (h e)) -> keeps f (try_catch m h).
Proof.
  intros Hm Hh s. specialize (Hm s). unfold exec, try_catch in *.
  destruct (m s) as [[a|e] s1]; simpl in *; [exact Hm|].
  specialize (Hh e s1). unfold exec in Hh. congruence.
Qed.

Lemma keeps_iter {A} (m : M A) (k : M unit) (n : nat) :
  keeps f m -> keeps f k -> keeps f (Nat.iter n (fun rest => m;; rest) k).
Proof.
  intros Hm Hk. induction n as [|n IH]; simpl; [exact Hk|].
  apply keeps_bind; [exact Hm | intros _; exact IH].
Qed.
End Keeps.

Lemma keeps_both_frame {A} (m : M A) : keeps both_views m -> keeps frame_view m.
Proof. intros H s. exact (f_equal fst (H s)). Qed.

Lemma keeps_both_playlist {A} (m : M A) : keeps both_views m -> keeps playlist_view m.
Proof. intros H s. exact (f_equal snd (H s)). Qed.

Lemma preserves_bind {A B} (P : State -> Prop) (m : M A) (k : A -> M B) :
  preserves P m -> (forall a, preserves P (k a)) -> preserves P (m ≫= k).
Proof.
  intros Hm Hk s Hok. specialize (Hm s Hok). unfold exec, mbind, M_bind in *.
  destruct (m s) as [[a|e] s1]; simpl in *; [|exact Hm].
  apply (Hk a s1 Hm).
Qed.

(** Sequences, branches and state updates that stay away from a view. *)
Ltac keeps :=
  repeat first
    [ apply keeps_ret
    | apply keeps_get
    | apply keeps_throw
    | apply keeps_modify; intros ?; reflexivity
    | apply keeps_bind; [|intros ?]
    | apply keeps_try_catch; [|intros ?]
    | match goal with
      | |- keeps _ (match ?x with _ => _ end) => destruct x
      end ].

(** The helpers around the audio element and the graph touch neither view. *)
Lemma keeps_setupAudioSource : keeps both_views setupAudioSource.
Proof.
  unfold setupAudioSource, construct_graph, connect_fallback,
    createMediaElementSource, skip. unfold_ops. keeps.
Qed.

Lemma keeps_ensureAudioContextActive : keeps both_views ensureAudioContextActive.
Proof. unfold ensureAudioContextActive, skip. unfold_ops. keeps. Qed.

Lemma keeps_audio_play : keeps both_views audio_play.
Proof. unfold audio_play, skip. unfold_ops. keeps. Qed.

Lemma keeps_on_audio g : keeps both_views (on_audio g).
Proof. unfold on_audio. keeps. Qed.

Lemma keeps_handleLoadedData : keeps both_views handleLoadedData.
Proof.
  unfold handleLoadedData.
  apply keeps_bind; [apply keeps_setupAudioSource|intros ?].
  apply keeps_bind; [apply keeps_audio_play|intros ?]. apply keeps_on_audio.
Qed.

Lemma keeps_loadeddata_event : keeps both_views (step EvLoadedData).
Proof.
  simpl. apply keeps_bind; [apply keeps_get|intros s].
  destruct (audioRef s) as [a|]; [|apply keeps_ret].
  apply keeps_bind; [apply keeps_on_audio|intros ?].
  apply keeps_iter; [apply keeps_handleLoadedData | apply keeps_ret].
Qed.

Lemma keeps_frames_handlePlay : keeps frame_view handlePlay.
Proof.
  unfold handlePlay.
  apply keeps_bind; [apply keeps_both_frame, keeps_ensureAudioContextActive|intros ?].
  apply keeps_bind; [apply keeps_both_frame, keeps_setupAudioSource|intros ?]. keeps.
Qed.

Lemma keeps_toggles :
  keeps both_views toggleLoopTrack /\ keeps both_views toggleLoopPlaylist /\
  keeps both_views toggleVibration.
Proof.
  unfold toggleLoopTrack, toggleLoopPlaylist, toggleVibration, skip.
  repeat split; keeps.
Qed.

Lemma keeps_playlist_stopAnimation : keeps playlist_view stopAnimation.
Proof. unfold stopAnimation, skip. unfold_ops. keeps. Qed.

Lemma keeps_playlist_animate env spectrum rx ry :
  keeps playlist_view (animate env spectrum rx ry).
Proof.
  unfold animate, requestAnimationFrame, skip. unfold_ops.
  apply keeps_bind; [apply keeps_get|intros s].
  destruct (audioRef s) as [audio|]; [|apply keeps_ret].
  destruct (canvasRef s); [|apply keeps_ret].
  destruct (audioContextRef s); [|apply keeps_ret].
  destruct (dataArrayRef s); [|apply keeps_ret].
  destruct (negb (paused audio) && negb (ended audio));
    [|apply keeps_playlist_stopAnimation].
  destruct (is_suspended _), (backgroundRef s) as [t|];
    try destruct (env_vibration env); try destruct (is_zero_translate t); keeps.
Qed.

Lemma keeps_ok_stopAnimation : preserves frames_ok stopAnimation.
Proof.
  intros s Hok. unfold frames_ok.
  now rewrite (frames_ok_stop s Hok).
Qed.

Lemma keeps_ok_playTrackFromPlaylist_in l i : preserves frames_ok (playTrackFromPlaylist_in l i).
Proof.
  unfold playTrackFromPlaylist_in.
  apply preserves_bind; [apply keeps_frames_ok, keeps_get|intros s].
  destruct ((0 <=? i) && (i <? Z.of_nat (length l)));
    [|apply keeps_frames_ok; unfold skip; keeps].
  destruct (l !! Z.to_nat i) as [track|];
    [|apply keeps_frames_ok; unfold skip; keeps].
  destruct (audioRef s) as [audio|];
    [|apply keeps_frames_ok; unfold skip; keeps].
  apply preserves_bind; [apply keeps_frames_ok; keeps|intros ?].
  apply preserves_bind; [apply keeps_ok_stopAnimation|intros ?].
  apply keeps_frames_ok.
  repeat (apply keeps_bind;
          [try apply keeps_both_frame, keeps_ensureAudioContextActive; unfold skip; unfold_ops; keeps
          |intros ?]).
  unfold_ops. keeps.
Qed.

Lemma keeps_ok_playTrackFromPlaylist i : preserves frames_ok (playTrackFromPlaylist i).
Proof.
  unfold playTrackFromPlaylist.
  apply preserves_bind; [apply keeps_frames_ok, keeps_get|intros s].
  apply keeps_ok_playTrackFromPlaylist_in.
Qed.

Lemma keeps_frames_addToPlaylist tid n u : keeps frame_view (addToPlaylist tid n u).
Proof.
  unfold addToPlaylist, skip.
  apply keeps_bind; [apply keeps_get|intros s].
  destruct ((currentTrackIndex s =? -1) && (Z.of_nat (length (playlist s)) =? 0)); keeps.
Qed.

Lemma keeps_frames_metadataLoaded tid d : keeps frame_view (metadataLoaded tid d).
Proof. unfold metadataLoaded. keeps. Qed.

Lemma keeps_ok_handleEnded : preserves frames_ok handleEnded.
Proof.
  unfold handleEnded.
  apply preserves_bind; [apply keeps_ok_stopAnimation|intros ?].
  apply preserves_bind; [apply keeps_frames_ok, keeps_get|intros s].
  repeat match goal with
  | |- preserves _ (if ?c then _ else _) => destruct c
  end; try apply keeps_ok_playTrackFromPlaylist.
  - apply keeps_frames_ok.
    apply keeps_bind; [unfold_ops; keeps|intros ?]. apply keeps_both_frame, keeps_audio_play.
  - apply keeps_frames_ok. keeps.
Qed.

Lemma keeps_ok_removeFromPlaylist tid : preserves frames_ok (removeFromPlaylist tid).
Proof.
  unfold removeFromPlaylist.
  apply preserves_bind; [apply keeps_frames_ok, keeps_get|intros s].
  destruct (list_find (fun t => id t = tid) (playlist s)) as [[index track]|];
    [|apply keeps_frames_ok; unfold skip; keeps].
  apply preserves_bind;
    [apply keeps_frames_ok; unfold skip; unfold_ops;
     destruct (String.prefix "blob:" (url track)); keeps|intros ?].
  apply preserves_bind; [|intros ?; apply keeps_frames_ok; keeps].
  destruct (currentTrackIndex s =? Z.of_nat index).
  - apply preserves_bind; [apply keeps_frames_ok; unfold_ops; keeps|intros ?].
    apply preserves_bind; [apply keeps_frames_ok; keeps|intros ?].
    apply keeps_ok_stopAnimation.
  - apply keeps_frames_ok. unfold skip.
    destruct (Z.of_nat index <? currentTrackIndex s); keeps.
Qed.

(** A tick started with no frame pending leaves at most the frame it
    scheduled itself. *)
Lemma animate_from_idle s env spectrum rx ry :
  frames s = [] -> frames_ok (exec (animate env spectrum rx ry) s).
Proof.
  intros Hf.
  destruct (audioRef s) as [audio|] eqn:Ha;
    [|unfold exec; rewrite animate_unmounted by auto; unfold frames_ok; simpl; now rewrite Hf].
  destruct (canvasRef s) as [canvas|] eqn:Hc;
    [|unfold exec; rewrite animate_unmounted by auto; unfold frames_ok; simpl; now rewrite Hf].
  destruct (audioContextRef s) as [ctx|] eqn:Hx;
    [|unfold exec; rewrite animate_unmounted by auto; unfold frames_ok; simpl; now rewrite Hf].
  destruct (dataArrayRef s) as [dataArray|] eqn:Hd;
    [|unfold exec; rewrite animate_unmounted by auto; unfold frames_ok; simpl; now rewrite Hf].
  destruct (negb (paused audio) && negb (ended audio)) eqn:Hp.
  - destruct (animate_playing s env spectrum rx ry audio canvas ctx dataArray
                Ha Hc Hx Hd Hp) as (_ & Hid & Hfr & _).
    unfold frames_ok. rewrite Hfr, Hf. exact Hid.
  - unfold exec.
    rewrite (animate_not_playing s env spectrum rx ry audio canvas ctx dataArray)
      by assumption.
    apply keeps_ok_stopAnimation. unfold frames_ok. now rewrite Hf.
Qed.

Lemma playTimerFired_running s env spectrum rx ry h :
  animationIdRef s = Some h ->
  playTimerFired env spectrum rx ry s = (Normal tt, s).
Proof. intros H. unfold playTimerFired. unfold_M. now rewrite H. Qed.

Lemma keeps_resume_settled ok : keeps both_views (step (EvResumeSettled ok)).
Proof.
  intros s. simpl. unfold resumeSettled, skip. unfold_ops. unfold_M.
  destruct (audioContextRef s) as [c|]; [|reflexivity].
  destruct (pendingResumes c) as [|[] rest]; [reflexivity| |]; destruct ok; reflexivity.
Qed.

Lemma keeps_ok_step e : preserves frames_ok (step e).
Proof.
  destruct e.
  - apply keeps_frames_ok, keeps_frames_addToPlaylist.
  - apply keeps_frames_ok, keeps_frames_metadataLoaded.
  - apply keeps_ok_playTrackFromPlaylist.
  - apply keeps_ok_removeFromPlaylist.
  - apply keeps_frames_ok, keeps_both_frame, keeps_toggles.
  - apply keeps_frames_ok, keeps_both_frame, keeps_toggles.
  - apply keeps_frames_ok, keeps_both_frame, keeps_toggles.
  - apply keeps_frames_ok.
    apply keeps_bind; [apply keeps_both_frame, keeps_on_audio|intros ?].
    apply keeps_frames_handlePlay.
  - apply preserves_bind; [apply keeps_frames_ok, keeps_both_frame, keeps_on_audio|intros ?].
    apply keeps_ok_stopAnimation.
  - apply preserves_bind; [apply keeps_frames_ok, keeps_both_frame, keeps_on_audio|intros ?].
    apply keeps_ok_handleEnded.
  - apply keeps_frames_ok, keeps_both_frame, keeps_loadeddata_event.
  - apply keeps_frames_ok, keeps_both_frame, keeps_resume_settled.
  - simpl. intros s Hok. unfold exec, mbind, M_bind, get.
    destruct (timers s !! k) as [cb|] eqn:Ht; [|exact Hok].
    unfold modify. cbn beta iota.
    set (s1 := set_timers (delete k (timers s)) s).
    assert (Hok1 : frames_ok s1) by exact Hok.
    destruct cb as [env|captured index];
      [|now apply keeps_ok_playTrackFromPlaylist_in].
    destruct (animationIdRef s1) as [h|] eqn:Hid.
    + now rewrite (playTimerFired_running s1 env spectrum rx ry h Hid).
    + unfold playTimerFired, mbind, M_bind, get. rewrite Hid.
      apply animate_from_idle.
      unfold frames_ok in Hok1. rewrite Hid in Hok1.
      destruct (frames s1) as [|[h env'] [|f fs]]; [reflexivity|discriminate|contradiction].
  - simpl. intros s Hok. unfold exec, mbind, M_bind, get.
    destruct (frames s) as [|[h env] rest] eqn:Hf; [exact Hok|].
    unfold modify. cbn beta iota. apply animate_from_idle.
    unfold frames_ok in Hok. rewrite Hf in Hok.
    destruct rest; [reflexivity|contradiction].
Qed.

Lemma keeps_ok_run events : forall s, frames_ok s -> frames_ok (run events s).
Proof.
  induction events as [|e events IH]; intros s Hok; simpl; [exact Hok|].
  apply IH, keeps_ok_step, Hok.
Qed.

Lemma frames_ok_at_most_one s : frames_ok s -> (length (frames s) <= 1)%nat.
Proof.
  unfold frames_ok. destruct (frames s) as [|[h env] [|f fs]]; simpl; intros; lia.
Qed.

(** C8. In every state the component reaches from its mount, through user
    actions, element events, timers and frames in any order, at most one
    animation frame is pending, and it is the one [animationIdRef] names.
    The deferred start of the loop does nothing when a handle is already
    recorded.  [stopAnimation] never throws, clears the handle, cancels its
    frame, empties the canvas and zeroes the background offset, and a second
    [stopAnimation] changes nothing more. *)
Theorem at_most_one_frame_handle
    (w h : Z) (st : ContextState) (events : list Event) :
  let s := run events (exec (mountEffect st) (initialState w h)) in
  (length (frames s) <= 1)%nat /\ frames_ok s /\
  (forall s0 env spectrum rx ry h0,
     animationIdRef s0 = Some h0 ->
     playTimerFired env spectrum rx ry s0 = (Normal tt, s0)) /\
  (forall s0,
     let s1 := exec stopAnimation s0 in
     outcome stopAnimation s0 = Normal tt /\
     animationIdRef s1 = None /\
     (forall h0 env, animationIdRef s0 = Some h0 -> ~ In (h0, env) (frames s1)) /\
     canvasRef s1 = (fun _ => []) <$> canvasRef s0 /\
     backgroundRef s1 = (fun _ => Translate 0 0) <$> backgroundRef s0 /\
     stopAnimation s1 = (Normal tt, s1)).
Proof.
  cbv zeta.
  assert (Hok : frames_ok (run events (exec (mountEffect st) (initialState w h))))
    by (apply keeps_ok_run; exact I).
  split; [now apply frames_ok_at_most_one|]. split; [exact Hok|].
  split; [intros; eapply playTimerFired_running; eauto|].
  intros s0.
  destruct (stopAnimation_effect s0) as (Hr & Hid & Hcv & Hbg & Hfr).
  split; [unfold outcome; now rewrite Hr|]. split; [exact Hid|].
  split; [|split; [exact Hcv|split; [exact Hbg|]]].
  - intros h0 env Hh Hin. rewrite Hfr, Hh in Hin.
    apply filter_In in Hin. destruct Hin as [_ Hneq]. simpl in Hneq.
    now rewrite Pos.eqb_refl in Hneq.
  - clear. unfold stopAnimation. unfold_ops. unfold_M.
    destruct (animationIdRef s0) eqn:Hid; simpl; rewrite ?Hid;
      destruct (canvasRef s0), (backgroundRef s0); reflexivity.
Qed.

(** ** The playlist invariant *)

Lemma playlist_ok_ext s s' :
  playlist_view s' = playlist_view s -> playlist_ok s -> playlist_ok s'.
Proof.
  unfold playlist_ok, selection_ok, track_count, playlist_view.
  now intros [= -> -> ->].
Qed.

Lemma keeps_playlist_ok {A} (m : M A) :
  keeps playlist_view m -> preserves playlist_ok m.
Proof. intros H s. apply playlist_ok_ext, H. Qed.

(** A selection either does nothing to the playlist side or moves the
    selection to the index asked for, which then lies inside the captured
    playlist. *)
Lemma playTrackFromPlaylist_in_view l i s :
  let s' := exec (playTrackFromPlaylist_in l i) s in
  playlist_view s' = playlist_view s \/
  (playlist_view s' = (playlist s, i, timers s) /\ 0 <= i < Z.of_nat (length l)).
Proof.
  cbv zeta. unfold exec.
  remember (playTrackFromPlaylist_in l i s) as r eqn:E.
  unfold playTrackFromPlaylist_in in E.
  unfold mbind at 1, M_bind at 1, get in E. cbv beta iota in E.
  destruct ((0 <=? i) && (i <? Z.of_nat (length l))) eqn:Hi; [|subst r; now left].
  apply in_range_test in Hi.
  destruct (l !! Z.to_nat i) as [track|]; [|subst r; now left].
  destruct (audioRef s) as [audio|]; [|subst r; now left].
  right. split; [|exact Hi].
  unfold mbind at 1, M_bind at 1, modify in E. cbv beta iota in E. subst r.
  match goal with
  | |- playlist_view (snd (?rest ?s1)) = _ =>
      change (playlist_view (exec rest s1) = playlist_view s1);
      generalize s1; change (keeps playlist_view rest)
  end.
  apply keeps_bind; [apply keeps_playlist_stopAnimation|intros ?].
  repeat (apply keeps_bind;
          [try apply keeps_both_playlist, keeps_ensureAudioContextActive;
           unfold skip; unfold_ops; keeps
          |intros ?]).
  unfold_ops. keeps.
Qed.

Lemma playTrackFromPlaylist_in_ok l i s :
  l = playlist s \/ l = [] ->
  playlist_ok s -> playlist_ok (exec (playTrackFromPlaylist_in l i) s).
Proof.
  intros Hl Hok.
  destruct (playTrackFromPlaylist_in_view l i s) as [H|[H Hi]];
    [now apply (playlist_ok_ext s)|].
  destruct Hl as [->| ->]; [|simpl in Hi; lia].
  destruct Hok as (Hnd & _ & Htm).
  unfold playlist_ok, selection_ok, track_count.
  injection H as -> -> ->. auto.
Qed.

Lemma playTrackFromPlaylist_ok i s :
  playlist_ok s -> playlist_ok (exec (playTrackFromPlaylist i) s).
Proof.
  intros Hok. unfold playTrackFromPlaylist, exec, mbind, M_bind, get.
  apply playTrackFromPlaylist_in_ok; auto.
Qed.

Lemma handleEnded_ok s : playlist_ok s -> playlist_ok (exec handleEnded s).
Proof.
  intros Hok.
  replace (exec handleEnded s)
    with (exec (ended_decision s) (exec stopAnimation s))
    by (unfold exec; now rewrite handleEnded_unfold).
  pose proof (keeps_playlist_stopAnimation s) as Hv.
  pose proof (playlist_ok_ext _ _ Hv Hok) as Hok1.
  unfold ended_decision.
  destruct (loopTrack s && (0 <=? currentTrackIndex s)).
  { apply keeps_playlist_ok; [|exact Hok1].
    apply keeps_bind; [unfold_ops; keeps|intros ?].
    apply keeps_both_playlist, keeps_audio_play. }
  destruct (loopPlaylist s && (0 <? track_count s));
    destruct ((0 <=? currentTrackIndex s) && (currentTrackIndex s <? track_count s - 1));
    try now apply playTrackFromPlaylist_ok.
  destruct Hok1 as (Hnd & _ & Htm).
  unfold playlist_ok, selection_ok. simpl. auto.
Qed.

(** Removal keeps the selection valid; shared by the removal theorem and the
    invariant. *)
Lemma removeFromPlaylist_selection_ok s tid :
  NoDup (id <$> playlist s) -> selection_ok s ->
  selection_ok (exec (removeFromPlaylist tid) s).
Proof.
  intros Hnd Hsel.
  destruct (list_find (fun t => id t = tid) (playlist s)) as [[index track]|] eqn:Hfind.
  2: { unfold exec. now rewrite (removeFromPlaylist_absent s tid Hfind). }
  destruct (removeFromPlaylist_found s tid index track Hfind)
    as (_ & Hpl & Hcur & Hgt & Hlt & _).
  rewrite (filter_drops_found _ _ _ _ Hnd Hfind) in Hpl.
  pose proof (list_find_index_lt _ _ _ _ Hfind) as Hidx.
  unfold selection_ok, track_count in *.
  rewrite Hpl, length_delete by (apply lookup_lt_is_Some; lia).
  destruct (Z.lt_trichotomy (currentTrackIndex s) (Z.of_nat index)) as [H|[H|H]].
  - rewrite (Hlt H). lia.
  - left. now apply Hcur.
  - rewrite (Hgt H). lia.
Qed.

Lemma removeFromPlaylist_ok s tid :
  playlist_ok s -> playlist_ok (exec (removeFromPlaylist tid) s).
Proof.
  intros (Hnd & Hsel & Htm).
  split; [|split; [now apply removeFromPlaylist_selection_ok|]].
  - destruct (list_find (fun t => id t = tid) (playlist s)) as [[index track]|] eqn:Hfind.
    2: { unfold exec. now rewrite (removeFromPlaylist_absent s tid Hfind). }
    destruct (removeFromPlaylist_found s tid index track Hfind) as (_ & Hpl & _).
    rewrite Hpl, (filter_drops_found _ _ _ _ Hnd Hfind), list_fmap_delete.
    exact (sublist_NoDup _ _ Hnd (sublist_delete _ _)).
  - destruct (list_find (fun t => id t = tid) (playlist s)) as [[index track]|] eqn:Hfind.
    2: { unfold exec. now rewrite (removeFromPlaylist_absent s tid Hfind). }
    destruct (removeFromPlaylist_found s tid index track Hfind)
      as (_ & _ & _ & _ & _ & Ht).
    now rewrite Ht.
Qed.

Lemma addToPlaylist_ok s tid n u :
  tid ∉ id <$> playlist s ->
  playlist_ok s -> playlist_ok (exec (addToPlaylist tid n u) s).
Proof.
  intros Hfresh (Hnd & Hsel & Htm).
  unfold addToPlaylist, exec, mbind, M_bind, get, modify, skip, mret, M_ret.
  destruct ((currentTrackIndex s =? -1) && (Z.of_nat (length (playlist s)) =? 0)) eqn:E;
    unfold playlist_ok, selection_ok, track_count in *; simpl;
    rewrite fmap_app, length_app; simpl.
  all: split; [apply NoDup_app; repeat split; auto;
               [intros x Hx Hin; apply list_elem_of_singleton in Hin; now subst
               |apply NoDup_singleton]|].
  all: split; [lia|].
  - apply Forall_app. split; [exact Htm|]. constructor; [|constructor].
    apply andb_true_iff in E. destruct E as [_ E]. apply Z.eqb_eq in E.
    simpl. destruct (playlist s); [reflexivity|discriminate].
  - exact Htm.
Qed.

Lemma metadataLoaded_ok s tid d :
  playlist_ok s -> playlist_ok (exec (metadataLoaded tid d) s).
Proof.
  intros (Hnd & Hsel & Htm).
  unfold metadataLoaded, exec, modify, playlist_ok, selection_ok, track_count in *.
  simpl. rewrite length_fmap. split; [|auto].
  rewrite <- list_fmap_compose.
  erewrite list_fmap_ext; [exact Hnd|].
  intros i t _. simpl. now destruct (id t =? tid).
Qed.

Lemma handlePlay_ok : preserves playlist_ok handlePlay.
Proof.
  unfold handlePlay.
  apply preserves_bind;
    [apply keeps_playlist_ok, keeps_both_playlist, keeps_ensureAudioContextActive|intros ?].
  apply preserves_bind;
    [apply keeps_playlist_ok, keeps_both_playlist, keeps_setupAudioSource|intros ?].
  intros s (Hnd & Hsel & Htm).
  unfold playlist_ok, selection_ok, track_count, exec, modify. simpl.
  repeat split; auto. apply Forall_app. split; [exact Htm|]. repeat constructor.
Qed.

Lemma playlist_ok_step s e :
  playlist_ok s -> fresh_upload s e -> playlist_ok (exec (step e) s).
Proof.
  intros Hok Hfresh. destruct e; simpl in *.
  - now apply addToPlaylist_ok.
  - now apply metadataLoaded_ok.
  - now apply playTrackFromPlaylist_ok.
  - now apply removeFromPlaylist_ok.
  - apply keeps_playlist_ok; [apply keeps_both_playlist, keeps_toggles | exact Hok].
  - apply keeps_playlist_ok; [apply keeps_both_playlist, keeps_toggles | exact Hok].
  - apply keeps_playlist_ok; [apply keeps_both_playlist, keeps_toggles | exact Hok].
  - clear Hfresh. revert s Hok.
    apply preserves_bind;
      [apply keeps_playlist_ok, keeps_both_playlist, keeps_on_audio|intros ?].
    apply handlePlay_ok.
  - clear Hfresh. revert s Hok.
    apply preserves_bind;
      [apply keeps_playlist_ok, keeps_both_playlist, keeps_on_audio|intros ?].
    apply keeps_playlist_ok, keeps_playlist_stopAnimation.
  - clear Hfresh. revert s Hok.
    apply preserves_bind;
      [apply keeps_playlist_ok, keeps_both_playlist, keeps_on_audio|intros ?].
    intros s. apply handleEnded_ok.
  - apply keeps_playlist_ok; [apply keeps_both_playlist, keeps_loadeddata_event | exact Hok].
  - exact (keeps_playlist_ok _ (keeps_both_playlist _ (keeps_resume_settled ok)) s Hok).
  - unfold exec, mbind, M_bind, get.
    destruct (timers s !! k) as [cb|] eqn:Ht; [|exact Hok].
    unfold modify. cbn beta iota.
    destruct Hok as (Hnd & Hsel & Htm).
    assert (Hcb : captured_nothing cb).
    { rewrite Forall_lookup in Htm. exact (Htm k cb Ht). }
    assert (Hok1 : playlist_ok (set_timers (delete k (timers s)) s)).
    { split; [exact Hnd|]. split; [exact Hsel|]. simpl. now apply Forall_delete. }
    destruct cb as [env|captured index].
    + apply keeps_playlist_ok; [|exact Hok1].
      unfold playTimerFired, skip.
      apply keeps_bind; [apply keeps_get|intros s0].
      destruct (animationIdRef s0); [apply keeps_ret | apply keeps_playlist_animate].
    + apply playTrackFromPlaylist_in_ok; [right; exact Hcb | exact Hok1].
  - unfold exec, mbind, M_bind, get.
    destruct (frames s) as [|[h env] rest]; [exact Hok|].
    unfold modify. cbn beta iota.
    apply keeps_playlist_ok; [apply keeps_playlist_animate|exact Hok].
Qed.

(** Every state the component reaches, when uploads bring fresh ids, has
    unique track ids, a selection that is -1 or inside the playlist, and
    consistent frame bookkeeping. *)
Lemma reachable_invariants s : reachable s -> playlist_ok s /\ frames_ok s.
Proof.
  induction 1 as [w h st|s e _ [IHp IHf] Hfresh].
  - split; [|exact I]. unfold playlist_ok, selection_ok. simpl.
    repeat split; auto; constructor.
  - split; [now apply playlist_ok_step | now apply keeps_ok_step].
Qed.

(** ** Blob URL ownership *)

(** C2, evaluated. From the freshly mounted component the user uploads three
    files, plays the first, then the second, then removes the first.
    Switching to the second track revokes the first track's URL although
    that track is still in the playlist, and removing the first track revokes
    the same URL a second time.  In the other run the user removes the track
    that is loaded: its URL is revoked while it is still the element's
    source. *)
Theorem blob_url_released_while_owned_and_twice :
  let s1 := run (uploads ++ [EvSelect 0; EvSelect 1]) mountedState in
  let s2 := run (uploads ++ [EvSelect 0; EvSelect 1; EvRemove 1]) mountedState in
  let s3 := run (uploads ++ [EvSelect 0; EvRemove 1]) mountedState in
  (In track_a (playlist s1) /\ In (url track_a) (revoked s1)) /\
  count_occ string_dec (revoked s2) (url track_a) = 2%nat /\
  (src <$> audioRef s3 = Some (url track_a) /\ In (url track_a) (revoked s3)).
Proof.
  vm_compute. repeat split; auto.
Qed.

(** ** Remarks on captured values *)

(** C6. With vibration disabled the background offset is not always (0, 0):
    a render loop that is already running keeps the vibration flag its
    closure captured.  The user uploads three files, starts the first track,
    turns vibration off while it plays, and the next frame (full-scale
    spectrum, draws 1/4 and 3/4) still displaces the background, by
    (-5, 5). *)
Theorem vibration_off_still_displaces_background :
  let full := repeat "255"%byte 128 in
  let s := run (uploads ++
                [EvSelect 0; EvLoadedData; EvPlay; EvTimer 1 full (1 # 2) (1 # 2);
                 EvToggleVibration; EvFrame full (1 # 4) (3 # 4)]) mountedState in
  vibrationEnabled s = false /\
  exists x y, backgroundRef s = Some (Translate x y) /\ (x == -5 /\ y == 5)%Q /\
    ~ (fst (offset (Translate x y)) == 0)%Q.
Proof.
  vm_compute. split; [reflexivity|]. do 2 eexists.
  split; [reflexivity|]. split; [split; reflexivity|]. discriminate.
Qed.

(** The deferred first selection of [addToPlaylist] runs against the empty
    playlist it captured, so the first upload selects nothing. *)
Remark first_upload_selects_nothing :
  let s := run [EvUpload 1 "a.mp3" "blob:a"; EvTimer 0 [] 0%Q 0%Q] mountedState in
  playlist s = [track_a] /\ currentTrackIndex s = -1 /\
  (src <$> audioRef s) = Some "".
Proof. vm_compute. repeat split. Qed.

(** * Further properties of the component *)

(** ** The bars of one frame *)

(** The loop paints one bar per iteration, and the [k]-th of them is the bar
    of bin [i + k], placed [k] steps of [barWidth + 1] to the right. *)
Lemma draw_bars_nth env n data : forall fuel i x,
  (i + fuel <= length data)%nat ->
  length (draw_bars env n data i fuel x) = fuel /\
  forall k, (k < fuel)%nat ->
    exists b bar, data !! (i + k)%nat = Some b /\
      draw_bars env n data i fuel x !! k = Some bar /\
      (bar_x bar == x + inject_Z (Z.of_nat k) * (barWidth env n + 1))%Q /\
      bar_y bar = (inject_Z (env_vh env) - magnitude b)%Q /\
      bar_w bar = barWidth env n /\
      bar_h bar = magnitude b /\
      bar_hue bar = (inject_Z (Z.of_nat (i + k)) / inject_Z n * 360)%Q.
Proof.
  induction fuel as [|fuel IH]; intros i x Hlen; [split; [reflexivity|lia]|].
  destruct (lookup_lt_is_Some_2 data i) as [b Hb]; [lia|].
  destruct (IH (S i) (x + barWidth env n + 1)%Q) as [IHlen IHnth]; [lia|].
  cbn [draw_bars]. fold (barWidth env n). rewrite Hb. split.
  - cbn [app length]. now rewrite IHlen.
  - intros [|k] Hk.
    + exists b. eexists. rewrite Nat.add_0_r. split; [exact Hb|].
      split; [reflexivity|]. cbn [bar_x bar_y bar_w bar_h bar_hue].
      repeat split. simpl. ring.
    + destruct (IHnth k) as (b' & bar & Hb' & Hbar & Hx & Hrest); [lia|].
      exists b', bar. replace (i + S k)%nat with (S i + k)%nat by lia.
      split; [exact Hb'|]. split; [exact Hbar|]. split; [|exact Hrest].
      rewrite Hx, Nat2Z.inj_succ. unfold Z.succ. rewrite inject_Z_plus. ring.
Qed.

(** X1. One tick on a playing, mounted component with 128 bins replaces the
    canvas content by exactly 128 bars.  Bar [k] has the height of magnitude
    [k], stands on the bottom edge of the viewport, is
    [vw / 128 * 2.5] wide, starts [k * (width + 1)] from the left, and its
    hue [k / 128 * 360] lies in [0, 360). *)
Theorem tick_paints_one_bar_per_bin
    (s : State) (env : RenderEnv) (spectrum : list byte) (rx ry : Q)
    (audio : Audio) (canvas : Canvas) (ctx : AudioContext) (dataArray : list byte) :
  audioRef s = Some audio -> canvasRef s = Some canvas ->
  audioContextRef s = Some ctx -> dataArrayRef s = Some dataArray ->
  paused audio = false -> ended audio = false ->
  bufferLengthRef s = 128 -> length dataArray = 128%nat ->
  length spectrum = 128%nat ->
  exists bars,
    canvasRef (exec (animate env spectrum rx ry) s) = Some bars /\
    length bars = 128%nat /\
    forall k b, spectrum !! k = Some b ->
      exists bar, bars !! k = Some bar /\
        bar_h bar = magnitude b /\
        (bar_y bar + bar_h bar == inject_Z (env_vh env))%Q /\
        bar_w bar = barWidth env 128 /\
        (bar_x bar == inject_Z (Z.of_nat k) * (bar_w bar + 1))%Q /\
        bar_hue bar = (inject_Z (Z.of_nat k) / 128 * 360)%Q /\
        (0 <= bar_hue bar < 360)%Q.
Proof.
  intros Ha Hc Hx Hd Hp He Hn Hlen Hsp.
  assert (Hplay : negb (paused audio) && negb (ended audio) = true)
    by now rewrite Hp, He.
  destruct (animate_playing s env spectrum rx ry audio canvas ctx dataArray
              Ha Hc Hx Hd Hplay) as (_ & _ & _ & _ & Hcv & _).
  rewrite Hn, getByteFrequencyData_full in Hcv by congruence.
  destruct (draw_bars_nth env 128 spectrum 128 0 0%Q) as [Hl Hnth]; [lia|].
  eexists. split; [exact Hcv|]. split; [exact Hl|].
  intros k b Hb. pose proof (lookup_lt_Some _ _ _ Hb) as Hk.
  destruct (Hnth k) as (b' & bar & Hb' & Hbar & Hbx & Hby & Hbw & Hbh & Hhue); [lia|].
  simpl in Hb'. rewrite Hb in Hb'. injection Hb' as <-.
  exists bar. split; [exact Hbar|]. split; [exact Hbh|].
  split; [rewrite Hby, Hbh; ring|]. split; [exact Hbw|].
  split; [rewrite Hbx, Hbw; ring|]. split; [exact Hhue|].
  rewrite Hhue. simpl.
  assert (H0 : (0 <= inject_Z (Z.of_nat k))%Q)
    by (change 0%Q with (inject_Z 0); rewrite <- Zle_Qle; lia).
  assert (H1 : (inject_Z (Z.of_nat k) < 128)%Q)
    by (change 128%Q with (inject_Z 128); rewrite <- Zlt_Qlt; lia).
  unfold Qdiv. change (/ inject_Z 128)%Q with (1 # 128)%Q. split; lra.
Qed.

Lemma tick_paints_witness :
  exists bars,
    canvasRef (exec (animate (current_env playing_first) (repeat "200"%byte 128)
                       (1 # 4) (3 # 4)) playing_first) = Some bars /\
    length bars = 128%nat.
Proof.
  destruct (tick_paints_one_bar_per_bin playing_first (current_env playing_first)
              (repeat "200"%byte 128) (1 # 4) (3 # 4) _ _ _ _
              eq_refl eq_refl eq_refl eq_refl eq_refl eq_refl eq_refl eq_refl eq_refl)
    as (bars & Hc & Hl & _).
  exists bars. split; assumption.
Defined.

(** ** The render loop from tick to tick *)

(** What a playing tick does beyond painting. *)
Lemma animate_playing_rest s env spectrum rx ry audio canvas ctx dataArray :
  audioRef s = Some audio -> canvasRef s = Some canvas ->
  audioContextRef s = Some ctx -> dataArrayRef s = Some dataArray ->
  negb (paused audio) && negb (ended audio) = true ->
  let s' := exec (animate env spectrum rx ry) s in
  nextHandle s' = Pos.succ (nextHandle s) /\
  audioContextRef s' =
    Some (if is_suspended (Some ctx) then add_pending_resume NoCallbacks ctx else ctx) /\
  audioRef s' = audioRef s /\
  vibrationEnabled s' = vibrationEnabled s /\ vw s' = vw s /\ vh s' = vh s.
Proof.
  intros Ha Hc Hx Hd Hp. cbv zeta.
  unfold animate, requestAnimationFrame. unfold_ops. unfold_M. cbn beta.
  rewrite Ha, Hc, Hx, Hd, Hp. cbn beta iota.
  destruct (is_suspended (Some ctx)); cbn -[draw_bars intensity shake getByteFrequencyData];
    rewrite ?Hx; cbn -[draw_bars intensity shake getByteFrequencyData].
  all: destruct (backgroundRef s) as [t|] eqn:Hb;
    [destruct (env_vibration env); [|destruct (is_zero_translate t)]|];
    cbn -[draw_bars intensity shake getByteFrequencyData];
    repeat split; first [reflexivity | exact Ha | exact Hx].
Qed.

(** X2. When the pending frame fires while the element is playing, the tick
    schedules exactly one new frame, records its fresh handle, hands the new
    frame the very closure values it ran with itself (whatever the component's
    current viewport and vibration flag are) and copies the spectrum into the
    data buffer.  If the audio context is suspended the tick asks it to
    resume and attaches no callback to the promise: when the tick returns the
    context is in the state it was in, with that one promise more pending;
    a context that is not suspended is left alone. *)
Theorem playing_tick_reschedules_its_own_closure
    (s : State) (h : positive) (env : RenderEnv) (spectrum : list byte) (rx ry : Q)
    (audio : Audio) (canvas : Canvas) (ctx : AudioContext) (dataArray : list byte) :
  audioRef s = Some audio -> canvasRef s = Some canvas ->
  audioContextRef s = Some ctx -> dataArrayRef s = Some dataArray ->
  paused audio = false -> ended audio = false ->
  frames s = [(h, env)] ->
  let s' := exec (step (EvFrame spectrum rx ry)) s in
  frames s' = [(nextHandle s, env)] /\
  animationIdRef s' = Some (nextHandle s) /\
  nextHandle s' = Pos.succ (nextHandle s) /\
  dataArrayRef s' = Some (getByteFrequencyData spectrum dataArray) /\
  (exists ctx', audioContextRef s' = Some ctx' /\
     ctx_state ctx' = ctx_state ctx /\ edges ctx' = edges ctx /\
     pendingResumes ctx' =
       (pendingResumes ctx ++
        match ctx_state ctx with Suspended => [NoCallbacks] | _ => [] end)%list) /\
  vibrationEnabled s' = vibrationEnabled s /\ vw s' = vw s /\ vh s' = vh s.
Proof.
  intros Ha Hc Hx Hd Hp He Hf. cbv zeta.
  assert (Hplay : negb (paused audio) && negb (ended audio) = true)
    by now rewrite Hp, He.
  simpl step. unfold exec, mbind, M_bind, get, modify. rewrite Hf. cbn beta iota.
  set (s0 := set_frames [] s).
  destruct (animate_playing s0 env spectrum rx ry audio canvas ctx dataArray
              Ha Hc Hx Hd Hplay) as (_ & Hid & Hfr & Hda & _).
  destruct (animate_playing_rest s0 env spectrum rx ry audio canvas ctx dataArray
              Ha Hc Hx Hd Hplay) as (Hnh & Hcx & _ & Hv & Hw & Hh).
  unfold exec in *. rewrite Hid, Hfr, Hnh, Hda, Hcx, Hv, Hw, Hh.
  repeat split.
  eexists. split; [reflexivity|].
  destruct ctx as [[] ? ? ?]; simpl; rewrite ?app_nil_r; repeat split.
Qed.

Lemma playing_tick_witness :
  let s' := exec (step (EvFrame (repeat "255"%byte 128) (1 # 4) (3 # 4)))
                 (exec (step EvToggleVibration) loop_running) in
  frames s' = [(2%positive, {| env_vw := 800; env_vh := 600; env_vibration := true |})].
Proof.
  refine (proj1 (playing_tick_reschedules_its_own_closure
    (exec (step EvToggleVibration) loop_running) 1%positive _ _ _ _ _ _ _ _
    eq_refl eq_refl eq_refl eq_refl eq_refl eq_refl eq_refl)).
Defined.

(** X3. When the pending frame fires while the element is paused or has
    ended, the tick stops the loop instead of painting: no frame is pending,
    no handle is recorded and none is drawn from the counter, the canvas is
    empty, the background offset is zero, and the data buffer and the element
    are left alone. *)
Theorem idle_tick_stops_the_loop
    (s : State) (h : positive) (env : RenderEnv) (spectrum : list byte) (rx ry : Q)
    (audio : Audio) (canvas : Canvas) (ctx : AudioContext) (dataArray : list byte) :
  audioRef s = Some audio -> canvasRef s = Some canvas ->
  audioContextRef s = Some ctx -> dataArrayRef s = Some dataArray ->
  paused audio = true \/ ended audio = true ->
  frames s = [(h, env)] ->
  let s' := exec (step (EvFrame spectrum rx ry)) s in
  frames s' = [] /\ animationIdRef s' = None /\
  nextHandle s' = nextHandle s /\
  canvasRef s' = Some [] /\
  backgroundRef s' = (fun _ => Translate 0 0) <$> backgroundRef s /\
  dataArrayRef s' = Some dataArray /\ audioRef s' = Some audio.
Proof.
  intros Ha Hc Hx Hd Hp Hf. cbv zeta.
  assert (Hidle : negb (paused audio) && negb (ended audio) = false)
    by (destruct Hp as [-> | ->]; [reflexivity | apply andb_false_r]).
  simpl step. unfold exec, mbind, M_bind, get, modify. rewrite Hf. cbn beta iota.
  set (s0 := set_frames [] s).
  rewrite (animate_not_playing s0 env spectrum rx ry audio canvas ctx dataArray)
    by assumption.
  destruct (stopAnimation_effect s0) as (_ & Hid & Hcv & Hbg & Hfr).
  destruct (stopAnimation_frame s0) as (_ & _ & _ & _ & Hau & _).
  unfold exec in *. rewrite Hid, Hcv, Hbg, Hfr, Hau.
  assert (Hrest : nextHandle (stopAnimation s0).2 = nextHandle s /\
                  dataArrayRef (stopAnimation s0).2 = dataArrayRef s).
  { unfold stopAnimation. unfold_ops. unfold_M.
    destruct (animationIdRef s0); simpl; auto. }
  destruct Hrest as [-> ->].
  subst s0. simpl. rewrite Hc, Hd, Ha.
  repeat split. destruct (animationIdRef s); reflexivity.
Qed.

Lemma idle_tick_witness :
  let s' := exec (step (EvFrame (repeat "255"%byte 128) (1 # 4) (3 # 4)))
                 (exec (on_audio (with_paused true)) loop_running) in
  frames s' = [] /\ animationIdRef s' = None.
Proof.
  destruct (idle_tick_stops_the_loop
    (exec (on_audio (with_paused true)) loop_running) 1%positive _
    (repeat "255"%byte 128) (1 # 4) (3 # 4) _ _ _ _
    eq_refl eq_refl eq_refl eq_refl (or_introl eq_refl) eq_refl) as (H1 & H2 & _).
  split; assumption.
Defined.

(** ** Handlers return normally *)

Lemma never_throws_ret {A} (a : A) : never_throws (mret a).
Proof. intros s. now exists a. Qed.

Lemma never_throws_get : never_throws get.
Proof. intros s. now exists s. Qed.

Lemma never_throws_modify f : never_throws (modify f).
Proof. intros s. now exists tt. Qed.

Lemma never_throws_bind {A B} (m : M A) (k : A -> M B) :
  never_throws m -> (forall a, never_throws (k a)) -> never_throws (m ≫= k).
Proof.
  intros Hm Hk s. destruct (Hm s) as [a Ha].
  destruct (Hk a (exec m s)) as [b Hb]. exists b.
  unfold exec, mbind, M_bind in *. rewrite Ha. simpl. rewrite Hb. reflexivity.
Qed.

Lemma never_throws_try_catch {A} (m : M A) (h : Exn -> M A) :
  (forall e, never_throws (h e)) -> never_throws (try_catch m h).
Proof.
  intros Hh s. unfold exec, try_catch.
  destruct (m s) as [[a|e] s1]; [now exists a|].
  destruct (Hh e s1) as [b Hb]. exists b. rewrite Hb. reflexivity.
Qed.

Lemma never_throws_iter {A} (m : M A) (k : M unit) (n : nat) :
  never_throws m -> never_throws k ->
  never_throws (Nat.iter n (fun rest => m;; rest) k).
Proof.
  intros Hm Hk. induction n as [|n IH]; simpl; [exact Hk|].
  apply never_throws_bind; [exact Hm | intros _; exact IH].
Qed.

Ltac returns :=
  repeat first
    [ apply never_throws_ret
    | apply never_throws_get
    | apply never_throws_modify
    | apply never_throws_try_catch; intros ?
    | apply never_throws_bind; [|intros ?]
    | match goal with
      | |- never_throws (match ?x with _ => _ end) => destruct x
      end ].

(** Sequencing after a computation that returns normally. *)
Lemma exec_seq {A B} (m : M A) (k : M B) s :
  never_throws m -> exec (m;; k) s = exec k (exec m s).
Proof.
  intros Hm. destruct (Hm s) as [a Ha].
  unfold exec, mbind, M_bind in *. now rewrite Ha.
Qed.

Lemma never_throws_outcome (m : M unit) s :
  never_throws m -> outcome m s = Normal tt.
Proof. intros Hm. destruct (Hm s) as [[] Ha]. unfold outcome. now rewrite Ha. Qed.

Lemma setupAudioSource_returns : never_throws setupAudioSource.
Proof.
  unfold setupAudioSource, connect_fallback, skip. unfold_ops. returns.
Qed.

Lemma ensureAudioContextActive_returns : never_throws ensureAudioContextActive.
Proof. unfold ensureAudioContextActive, skip. unfold_ops. returns. Qed.

Lemma audio_play_returns : never_throws audio_play.
Proof. unfold audio_play, skip. unfold_ops. returns. Qed.

Lemma stopAnimation_returns : never_throws stopAnimation.
Proof. unfold stopAnimation, skip. unfold_ops. returns. Qed.

Lemma on_audio_returns g : never_throws (on_audio g).
Proof. unfold on_audio. returns. Qed.

Lemma handleLoadedData_returns : never_throws handleLoadedData.
Proof.
  unfold handleLoadedData.
  apply never_throws_bind; [apply setupAudioSource_returns|intros ?].
  apply never_throws_bind; [apply audio_play_returns|intros ?].
  apply on_audio_returns.
Qed.

Lemma playTrackFromPlaylist_in_returns l i : never_throws (playTrackFromPlaylist_in l i).
Proof.
  unfold playTrackFromPlaylist_in, skip.
  apply never_throws_bind; [apply never_throws_get|intros s].
  destruct ((0 <=? i) && (i <? Z.of_nat (length l))); [|apply never_throws_ret].
  destruct (l !! Z.to_nat i); [|apply never_throws_ret].
  destruct (audioRef s); [|apply never_throws_ret].
  apply never_throws_bind; [apply never_throws_modify|intros ?].
  apply never_throws_bind; [apply stopAnimation_returns|intros ?].
  repeat (apply never_throws_bind;
          [first [apply ensureAudioContextActive_returns | unfold_ops; returns]
          |intros ?]).
  unfold_ops. returns.
Qed.

Lemma playTrackFromPlaylist_returns i : never_throws (playTrackFromPlaylist i).
Proof.
  unfold playTrackFromPlaylist.
  apply never_throws_bind; [apply never_throws_get|intros s].
  apply playTrackFromPlaylist_in_returns.
Qed.

Lemma animate_returns env spectrum rx ry : never_throws (animate env spectrum rx ry).
Proof.
  unfold animate, requestAnimationFrame, skip. unfold_ops.
  apply never_throws_bind; [apply never_throws_get|intros s].
  destruct (audioRef s) as [audio|]; [|apply never_throws_ret].
  destruct (canvasRef s); [|apply never_throws_ret].
  destruct (audioContextRef s); [|apply never_throws_ret].
  destruct (dataArrayRef s); [|apply never_throws_ret].
  destruct (negb (paused audio) && negb (ended audio)); [|apply stopAnimation_returns].
  destruct (is_suspended _), (backgroundRef s) as [t|];
    try destruct (env_vibration env); try destruct (is_zero_translate t); returns.
Qed.

Lemma handleEnded_returns : never_throws handleEnded.
Proof.
  unfold handleEnded.
  apply never_throws_bind; [apply stopAnimation_returns|intros ?].
  apply never_throws_bind; [apply never_throws_get|intros s].
  repeat match goal with
  | |- never_throws (if ?c then _ else _) => destruct c
  end; try apply playTrackFromPlaylist_returns.
  - apply never_throws_bind; [unfold_ops; returns|intros ?]. apply audio_play_returns.
  - apply never_throws_modify.
Qed.

Lemma removeFromPlaylist_returns tid : never_throws (removeFromPlaylist tid).
Proof.
  unfold removeFromPlaylist, skip.
  apply never_throws_bind; [apply never_throws_get|intros s].
  destruct (list_find (fun t => id t = tid) (playlist s)) as [[index track]|];
    [|apply never_throws_ret].
  apply never_throws_bind;
    [unfold_ops; destruct (String.prefix "blob:" (url track)); returns|intros ?].
  apply never_throws_bind; [|intros ?; apply never_throws_modify].
  destruct (currentTrackIndex s =? Z.of_nat index).
  - apply never_throws_bind; [unfold_ops; returns|intros ?].
    apply never_throws_bind; [apply never_throws_modify|intros ?].
    apply stopAnimation_returns.
  - destruct (Z.of_nat index <? currentTrackIndex s); returns.
Qed.

Lemma handlePlay_returns : never_throws handlePlay.
Proof.
  unfold handlePlay.
  apply never_throws_bind; [apply ensureAudioContextActive_returns|intros ?].
  apply never_throws_bind; [apply setupAudioSource_returns|intros ?].
  apply never_throws_modify.
Qed.

(** X4. No handler lets an exception escape: whatever the state, every user
    action, element event, timer and frame returns normally.  (The one
    operation that can throw, [createMediaElementSource], only ever runs
    inside the [try] block of [setupAudioSource].) *)
Theorem no_event_throws (e : Event) (s : State) :
  outcome (step e) s = Normal tt.
Proof.
  apply never_throws_outcome. destruct e; simpl.
  - unfold addToPlaylist, skip. returns.
  - unfold metadataLoaded. returns.
  - apply playTrackFromPlaylist_returns.
  - apply removeFromPlaylist_returns.
  - unfold toggleLoopTrack, skip. returns.
  - unfold toggleLoopPlaylist, skip. returns.
  - unfold toggleVibration. returns.
  - apply never_throws_bind; [apply on_audio_returns|intros ?]. apply handlePlay_returns.
  - apply never_throws_bind; [apply on_audio_returns|intros ?]. apply stopAnimation_returns.
  - apply never_throws_bind; [apply on_audio_returns|intros ?]. apply handleEnded_returns.
  - apply never_throws_bind; [apply never_throws_get|intros s0].
    destruct (audioRef s0) as [a|]; [|apply never_throws_ret].
    apply never_throws_bind; [apply on_audio_returns|intros ?].
    apply never_throws_iter; [apply handleLoadedData_returns | apply never_throws_ret].
  - apply never_throws_bind; [apply never_throws_get|intros s0].
    destruct (audioContextRef s0) as [c|]; [|apply never_throws_ret].
    destruct (pendingResumes c) as [|cb rest]; [apply never_throws_ret|].
    apply never_throws_bind; [apply never_throws_modify|intros ?].
    unfold resumeSettled, skip, log.
    destruct cb, ok; first [apply never_throws_modify | apply never_throws_ret].
  - apply never_throws_bind; [apply never_throws_get|intros s0].
    destruct (timers s0 !! k) as [[env|captured index]|]; [| |apply never_throws_ret].
    + apply never_throws_bind; [apply never_throws_modify|intros ?].
      unfold playTimerFired, skip.
      apply never_throws_bind; [apply never_throws_get|intros s1].
      destruct (animationIdRef s1); [apply never_throws_ret | apply animate_returns].
    + apply never_throws_bind; [apply never_throws_modify|intros ?].
      apply playTrackFromPlaylist_in_returns.
  - apply never_throws_bind; [apply never_throws_get|intros s0].
    destruct (frames s0) as [|[h env] rest]; [apply never_throws_ret|].
    apply never_throws_bind; [apply never_throws_modify|intros ?].
    apply animate_returns.
Qed.

(** ** Starting playback *)

(** As [keeps], for views that look inside the optional references. *)
Ltac keeps_inside :=
  repeat first
    [ apply keeps_ret
    | apply keeps_get
    | apply keeps_throw
    | apply keeps_modify;
      let s0 := fresh "s" in
      intros s0; cbv [element_view context_state resume_view]; simpl;
      destruct (audioRef s0); destruct (audioContextRef s0); reflexivity
    | apply keeps_bind; [|intros ?]
    | apply keeps_try_catch; [|intros ?]
    | match goal with
      | |- keeps _ (match ?x with _ => _ end) => destruct x
      end ].

Lemma setupAudioSource_keeps_inputs : keeps loop_inputs setupAudioSource.
Proof.
  unfold setupAudioSource, construct_graph, connect_fallback,
    createMediaElementSource, skip. unfold_ops. keeps.
Qed.

Lemma setupAudioSource_keeps_element : keeps element_view setupAudioSource.
Proof.
  unfold setupAudioSource, construct_graph, connect_fallback,
    createMediaElementSource, skip. unfold_ops. keeps_inside.
Qed.

Lemma setupAudioSource_keeps_context : keeps resume_view setupAudioSource.
Proof.
  unfold setupAudioSource, construct_graph, connect_fallback,
    createMediaElementSource, skip. unfold_ops. keeps_inside.
Qed.

Lemma ensureAudioContextActive_keeps_inputs : keeps loop_inputs ensureAudioContextActive.
Proof. unfold ensureAudioContextActive, skip. unfold_ops. keeps. Qed.

Lemma ensureAudioContextActive_keeps_element : keeps element_view ensureAudioContextActive.
Proof. unfold ensureAudioContextActive, skip. unfold_ops. keeps_inside. Qed.

Lemma ensureAudioContextActive_requests s :
  audioContextRef (exec ensureAudioContextActive s)
    = request_resume LogsOutcome <$> audioContextRef s.
Proof.
  unfold ensureAudioContextActive, request_resume, skip. unfold_ops. unfold_M.
  destruct (audioContextRef s) as [[[] ? ? ?]|] eqn:E; simpl; rewrite ?E; reflexivity.
Qed.

(** The state right after a [play] event, in terms of the state [sC] that
    [ensureAudioContextActive] and [setupAudioSource] leave. *)
Lemma play_event_run s :
  let sC := exec setupAudioSource
              (exec ensureAudioContextActive (exec (on_audio playback_started) s)) in
  exec (step EvPlay) s = set_timers (timers sC ++ [StartLoop (current_env sC)]) sC /\
  loop_inputs sC = loop_inputs s /\
  both_views sC = both_views s /\
  element_view sC = element_view (exec (on_audio playback_started) s) /\
  resume_view sC =
    (fun c => (ctx_state c, pendingResumes c))
      <$> (request_resume LogsOutcome <$> audioContextRef s).
Proof.
  cbv zeta. simpl step. unfold handlePlay.
  rewrite exec_seq by apply on_audio_returns.
  rewrite exec_seq by apply ensureAudioContextActive_returns.
  rewrite exec_seq by apply setupAudioSource_returns.
  split; [reflexivity|].
  set (sA := exec (on_audio playback_started) s).
  set (sB := exec ensureAudioContextActive sA).
  split; [|split; [|split]].
  - rewrite (setupAudioSource_keeps_inputs sB).
    unfold sB. rewrite (ensureAudioContextActive_keeps_inputs sA). reflexivity.
  - rewrite (keeps_setupAudioSource sB).
    unfold sB. rewrite (keeps_ensureAudioContextActive sA). reflexivity.
  - rewrite (setupAudioSource_keeps_element sB).
    unfold sB. now rewrite (ensureAudioContextActive_keeps_element sA).
  - rewrite (setupAudioSource_keeps_context sB).
    unfold sB, resume_view. rewrite ensureAudioContextActive_requests.
    unfold sA, on_audio, exec, modify. reflexivity.
Qed.

(** A timer that fires runs its callback on the state without that timer. *)
Lemma timer_event_run s k cb spectrum rx ry :
  timers s !! k = Some cb ->
  step (EvTimer k spectrum rx ry) s =
    match cb with
    | StartLoop env => playTimerFired env spectrum rx ry
    | AutoPlay captured index => playTrackFromPlaylist_in captured index
    end (set_timers (delete k (timers s)) s).
Proof.
  intros Hk. simpl. unfold mbind, M_bind, get, modify. now rewrite Hk.
Qed.

(** X5. A [play] event on a mounted component whose loop is idle, followed
    by the timer it registered: the timer starts the loop with the viewport
    and vibration flag of the moment of the [play] event, exactly one frame
    is pending under the freshly drawn handle, and the timer is gone.  This
    holds as well when the element had ended and is played again. *)
Theorem play_event_starts_the_loop
    (s : State) (spectrum : list byte) (rx ry : Q)
    (audio : Audio) (canvas : Canvas) (ctx : AudioContext) (dataArray : list byte) :
  audioRef s = Some audio -> canvasRef s = Some canvas ->
  audioContextRef s = Some ctx -> dataArrayRef s = Some dataArray ->
  frames s = [] -> animationIdRef s = None ->
  let s1 := exec (step EvPlay) s in
  let s2 := exec (step (EvTimer (length (timers s)) spectrum rx ry)) s1 in
  timers s1 = (timers s ++ [StartLoop (current_env s)])%list /\
  frames s1 = [] /\
  frames s2 = [(nextHandle s, current_env s)] /\
  animationIdRef s2 = Some (nextHandle s) /\
  timers s2 = timers s.
Proof.
  intros Ha Hc Hx Hd Hf Hid. cbv zeta.
  remember (exec (step EvPlay) s) as s1 eqn:E1.
  remember (exec (step (EvTimer (length (timers s)) spectrum rx ry)) s1) as s2 eqn:E2.
  destruct (play_event_run s) as (Hrun & Hin & Hboth & Hel & Hcx).
  set (sC := exec setupAudioSource _) in *.
  injection Hin as Hfr Hidr Hnh Hcv Hda Hbl Hvw Hvh Hvib Hbg.
  injection Hboth as _ _ Hpl Hcur Htm.
  assert (Henv : current_env sC = current_env s)
    by (unfold current_env; now rewrite Hvw, Hvh, Hvib).
  assert (HaC : exists a', audioRef sC = Some a' /\ paused a' = false /\ ended a' = false).
  { unfold element_view, on_audio, exec, modify in Hel. simpl in Hel.
    rewrite Ha in Hel. simpl in Hel.
    destruct (audioRef sC) as [a'|]; [|discriminate].
    injection Hel as _ Hp He' _ _ _ _. exists a'. rewrite He' , Hp. auto. }
  destruct HaC as (a' & HaC & Hp' & He').
  assert (HxC : exists c', audioContextRef sC = Some c').
  { unfold resume_view in Hcx. rewrite Hx in Hcx.
    destruct (audioContextRef sC) as [c'|]; [eauto|discriminate]. }
  destruct HxC as (c' & HxC).
  rewrite Hrun, Htm, Henv in E1.
  assert (Hk : timers s1 !! length (timers s) = Some (StartLoop (current_env s)))
    by (subst s1; simpl; now apply list_lookup_middle).
  unfold exec in E2. rewrite (timer_event_run s1 _ _ spectrum rx ry Hk) in E2.
  assert (Hdel : delete (length (timers s)) (timers s1) = timers s)
    by (subst s1; simpl; now rewrite delete_middle, app_nil_r).
  rewrite Hdel in E2.
  set (s1' := set_timers (timers s) s1) in *.
  assert (Hid1 : animationIdRef s1' = None) by (subst s1; simpl; congruence).
  unfold playTimerFired, mbind, M_bind, get in E2. rewrite Hid1 in E2.
  assert (Hplay : negb (paused a') && negb (ended a') = true) by now rewrite Hp', He'.
  destruct (animate_playing s1' (current_env s) spectrum rx ry a' canvas c' dataArray)
    as (_ & Hid2 & Hfr2 & _); try assumption; try (subst s1; simpl; congruence).
  pose proof (keeps_playlist_animate (current_env s) spectrum rx ry s1') as Hkp.
  unfold exec in Hid2, Hfr2, Hkp. rewrite <- E2 in Hid2, Hfr2, Hkp.
  injection Hkp as _ _ Ht.
  rewrite Hid2, Hfr2, Ht. subst s1. simpl. rewrite Hfr, Hf, Hnh. repeat split.
Qed.

Lemma play_event_witness :
  let s1 := exec (step EvPlay) paused_first in
  let s2 := exec (step (EvTimer 0 (repeat "255"%byte 128) (1 # 4) (3 # 4))) s1 in
  frames s2 = [(1%positive, current_env paused_first)].
Proof.
  refine (proj1 (proj2 (proj2 (play_event_starts_the_loop paused_first
    (repeat "255"%byte 128) (1 # 4) (3 # 4) _ _ _ _
    eq_refl eq_refl eq_refl eq_refl eq_refl eq_refl)))).
Defined.






(** ** From selection to playback *)

Lemma handleLoadedData_attached u c log k t :
  attached_playing u c log k t ->
  attached_playing u c log (pred k) (exec handleLoadedData t).
Proof.
  intros ((a & Ha & Hs & Hp & He & Hcap & Hl & Hauto & Hk) & Hf & Hc & Hlog).
  unfold handleLoadedData.
  rewrite exec_seq by apply setupAudioSource_returns.
  unfold exec at 2. rewrite (setupAudioSource_attached t Hf). simpl snd.
  unfold audio_play. unfold_ops. unfold_M. rewrite Ha, Hauto. simpl.
  rewrite Ha. simpl. rewrite He.
  unfold attached_playing. simpl. split; [|auto].
  eexists. split; [reflexivity|]. simpl. repeat split; auto; congruence.
Qed.

Lemma handleLoadedData_first s a c n :
  audioRef s = Some a -> audioContextRef s = Some c ->
  isSourceCreatedRef s = false -> src a <> "" -> captured a = false ->
  autoplayAllowed a = true -> loading a = None -> loadedListeners a = S n ->
  attached_playing (src a)
    (add_edge (AnalyserNode, Destination) (add_edge (SourceNode, AnalyserNode) c))
    (console s ++ [LogInfo "Audio source connected successfully"])%list n
    (exec handleLoadedData s).
Proof.
  intros Ha Hc Hf Hs Hcap Hauto Hl Hn.
  unfold handleLoadedData.
  rewrite exec_seq by apply setupAudioSource_returns.
  destruct (construct_graph_succeeds s a c Ha Hc Hcap) as (Hr & Hfl & Hau & Hctx).
  assert (Hs1 : exec setupAudioSource s = exec construct_graph s).
  { unfold exec at 1. rewrite (setupAudioSource_attempts s a c Ha Hc Hf Hs).
    unfold try_catch. now rewrite Hr. }
  rewrite Hs1.
  assert (Hlog : console (exec construct_graph s)
                 = (console s ++ [LogInfo "Audio source connected successfully"])%list).
  { unfold construct_graph, createMediaElementSource. unfold_ops. unfold_M.
    rewrite Ha, Hcap. reflexivity. }
  set (s1 := exec construct_graph s) in *.
  unfold audio_play. unfold_ops. unfold_M. rewrite Hau. simpl. rewrite Hauto. simpl.
  rewrite Hau. simpl.
  unfold attached_playing. simpl. split; [|auto].
  eexists. split; [reflexivity|]. simpl. rewrite Hn. repeat split; auto; congruence.
Qed.

Lemma loadeddata_drains u c log n : forall k t,
  attached_playing u c log k t ->
  attached_playing u c log (k - n)
    (exec (Nat.iter n (fun rest => handleLoadedData;; rest) skip) t).
Proof.
  induction n as [|n IH]; intros k t H; simpl.
  - now rewrite Nat.sub_0_r.
  - rewrite exec_seq by apply handleLoadedData_returns.
    replace (k - S n)%nat with (pred k - n)%nat by lia.
    apply IH, handleLoadedData_attached, H.
Qed.

(** X7. The [loadeddata] event on an element that is not yet bound to the
    graph, with any positive number of listeners waiting (one per selection
    made since the last load): afterwards no listener is left, the element
    plays its source, the graph was attached exactly once (both connections
    are there and the success message was logged once), and playlist,
    selection and render loop are untouched. *)
Theorem loadeddata_attaches_once_and_plays
    (s : State) (a : Audio) (c : AudioContext) (n : nat) :
  audioRef s = Some a -> audioContextRef s = Some c ->
  isSourceCreatedRef s = false -> src a <> "" -> captured a = false ->
  autoplayAllowed a = true -> loadedListeners a = S n ->
  let s' := exec (step EvLoadedData) s in
  (exists a', audioRef s' = Some a' /\ src a' = src a /\ paused a' = false /\
     ended a' = false /\ loading a' = None /\ loadedListeners a' = 0%nat) /\
  isSourceCreatedRef s' = true /\
  (exists c', audioContextRef s' = Some c' /\
     In (SourceNode, AnalyserNode) (edges c') /\
     In (AnalyserNode, Destination) (edges c')) /\
  console s' = (console s ++ [LogInfo "Audio source connected successfully"])%list /\
  both_views s' = both_views s.
Proof.
  intros Ha Hc Hf Hs Hcap Hauto Hn. cbv zeta.
  split; [|split; [|split; [|split]]]; try apply keeps_loadeddata_event.
  all: simpl step; unfold exec, mbind at 1, M_bind at 1, get; rewrite Ha;
    cbv beta iota; fold (exec (on_audio (with_loading None);;
      Nat.iter (loadedListeners a) (fun rest => handleLoadedData;; rest) skip) s);
    rewrite exec_seq by apply on_audio_returns; rewrite Hn; simpl Nat.iter;
    rewrite exec_seq by apply handleLoadedData_returns.
  all: set (s0 := exec (on_audio (with_loading None)) s).
  all: assert (H1 : attached_playing (src a)
         (add_edge (AnalyserNode, Destination) (add_edge (SourceNode, AnalyserNode) c))
         (console s ++ [LogInfo "Audio source connected successfully"])%list n
         (exec handleLoadedData s0))
    by (apply (handleLoadedData_first s0 (with_loading None a) c n);
        subst s0; unfold on_audio, exec, modify; simpl; rewrite ?Ha; auto).
  all: destruct (loadeddata_drains _ _ _ n _ _ H1)
         as ((a' & Ha' & Hs' & Hp' & He' & Hc' & Hl' & _ & Hk') & Hf' & Hx' & Hlog').
  - exists a'. rewrite Nat.sub_diag in Hk'. auto 10.
  - exact Hf'.
  - eexists. split; [exact Hx'|]. split.
    + apply in_add_edge_other, in_add_edge.
    + apply in_add_edge.
  - exact Hlog'.
Qed.

Lemma loadeddata_witness :
  isSourceCreatedRef (exec (step EvLoadedData) selected_twice) = true.
Proof.
  refine (proj1 (proj2 (loadeddata_attaches_once_and_plays selected_twice _ _ 1
    eq_refl eq_refl eq_refl _ eq_refl eq_refl eq_refl))).
  discriminate.
Defined.

(** ** Uploads and metadata *)

Lemma uploads_reachable : reachable (run uploads mountedState).
Proof.
  unfold uploads, run. cbn [fold_left].
  apply reach_step; [apply reach_step; [apply reach_step; [apply reach_mount|]|]|].
  all: simpl; rewrite ?not_elem_of_cons; repeat split;
    first [apply not_elem_of_nil | discriminate].
Defined.

Lemma playTrackFromPlaylist_in_nil i s :
  playTrackFromPlaylist_in [] i s = (Normal tt, s).
Proof.
  unfold playTrackFromPlaylist_in. unfold_M.
  destruct ((0 <=? i) && (i <? Z.of_nat (length (@nil Track)))); reflexivity.
Qed.

(** X8. In every state the component reaches, a pending first selection left
    behind by an upload does nothing when its timer fires: the timer
    disappears and the rest of the state, selection and audio element
    included, stays as it is.  (The callback runs against the empty playlist
    that its closure captured.) *)
Theorem deferred_first_selection_selects_nothing
    (s : State) (k : nat) (captured : list Track) (index : Z)
    (spectrum : list byte) (rx ry : Q) :
  reachable s ->
  timers s !! k = Some (AutoPlay captured index) ->
  step (EvTimer k spectrum rx ry) s
    = (Normal tt, set_timers (delete k (timers s)) s).
Proof.
  intros Hr Hk.
  destruct (reachable_invariants s Hr) as ((_ & _ & Htm) & _).
  rewrite Forall_lookup in Htm. specialize (Htm k _ Hk). simpl in Htm. subst captured.
  rewrite (timer_event_run s k _ spectrum rx ry Hk).
  apply playTrackFromPlaylist_in_nil.
Qed.

Lemma deferred_first_selection_witness :
  let s := run uploads mountedState in
  currentTrackIndex (exec (step (EvTimer 0 [] 0%Q 0%Q)) s) = -1.
Proof.
  cbv zeta. unfold exec.
  rewrite (deferred_first_selection_selects_nothing (run uploads mountedState) 0 [] 0
             [] 0%Q 0%Q uploads_reachable eq_refl).
  reflexivity.
Defined.

(** X9. When the metadata of an uploaded file arrives, exactly the tracks
    with that id get the duration and keep id, name and URL; every other
    track, the order, the selection and the element are unchanged; and if the
    track was removed in the meantime, nothing changes at all. *)
Theorem metadata_sets_duration_of_that_track (s : State) (trackId : Z) (d : Q) :
  let s' := exec (step (EvMetadata trackId d)) s in
  length (playlist s') = length (playlist s) /\
  (forall k t, playlist s !! k = Some t ->
     exists t', playlist s' !! k = Some t' /\
       id t' = id t /\ name t' = name t /\ url t' = url t /\
       duration t' = (if id t =? trackId then d else duration t)) /\
  (trackId ∉ id <$> playlist s -> playlist s' = playlist s) /\
  currentTrackIndex s' = currentTrackIndex s /\ audioRef s' = audioRef s /\
  revoked s' = revoked s.
Proof.
  cbv zeta. simpl step. unfold metadataLoaded, exec, modify. simpl.
  split; [apply length_fmap|]. split; [|split; [|auto]].
  - intros k t Hk. rewrite list_lookup_fmap, Hk. simpl.
    eexists. split; [reflexivity|]. destruct (id t =? trackId); auto.
  - intros Hn. induction (playlist s) as [|t l IH]; [reflexivity|].
    rewrite fmap_cons in Hn. apply not_elem_of_cons in Hn. destruct Hn as [Ht Hl].
    rewrite fmap_cons, IH by exact Hl.
    destruct (Z.eqb_spec (id t) trackId); [congruence | reflexivity].
Qed.

(** X10. In every state the component reaches, provided uploads bring ids
    that are not in the playlist, the track ids are pairwise different and
    the selection is either -1 or an index into the playlist. *)
Theorem reachable_selection_is_valid (s : State) :
  reachable s ->
  NoDup (id <$> playlist s) /\
  (currentTrackIndex s = -1 \/
   0 <= currentTrackIndex s < Z.of_nat (length (playlist s))).
Proof.
  intros Hr. destruct (reachable_invariants s Hr) as ((Hnd & Hsel & _) & _).
  split; [exact Hnd | exact Hsel].
Qed.

Lemma reachable_selection_witness :
  NoDup (id <$> playlist (run uploads mountedState)).
Proof.
  exact (proj1 (reachable_selection_is_valid _ uploads_reachable)).
Defined.

(** ** Revocations *)

Ltac keeps_zeta :=
  repeat first
    [ apply keeps_ret
    | apply keeps_get
    | apply keeps_throw
    | apply keeps_modify; intros ?; reflexivity
    | apply keeps_bind; [|intros ?]
    | apply keeps_try_catch; [|intros ?]
    | apply keeps_iter
    | progress cbv zeta
    | match goal with
      | |- keeps _ (match ?x with _ => _ end) => destruct x
      end ].

Lemma animate_keeps_revoked env spectrum rx ry :
  keeps revoked (animate env spectrum rx ry).
Proof.
  unfold animate, requestAnimationFrame, stopAnimation, skip. unfold_ops. keeps_zeta.
Qed.

Lemma quiet_events_keep_revoked e :
  match e with
  | EvSelect _ | EvRemove _ | EvEnded | EvTimer _ _ _ _ => True
  | _ => keeps revoked (step e)
  end.
Proof.
  destruct e; try exact I; simpl.
  - unfold addToPlaylist, skip. keeps_zeta.
  - unfold metadataLoaded. keeps_zeta.
  - unfold toggleLoopTrack, skip. keeps_zeta.
  - unfold toggleLoopPlaylist, skip. keeps_zeta.
  - unfold toggleVibration. keeps_zeta.
  - unfold handlePlay, ensureAudioContextActive, setupAudioSource, construct_graph,
      connect_fallback, createMediaElementSource, skip. unfold_ops. keeps_zeta.
  - unfold handlePause, stopAnimation, skip. unfold_ops. keeps_zeta.
  - unfold handleLoadedData, audio_play, setupAudioSource, construct_graph,
      connect_fallback, createMediaElementSource, skip. unfold_ops. keeps_zeta.
  - unfold resumeSettled, skip. unfold_ops. keeps_zeta.
  - apply keeps_bind; [apply keeps_get|intros s].
    destruct (frames s) as [|[h env] rest]; [apply keeps_ret|].
    apply keeps_bind; [keeps_zeta | intros ?; apply animate_keeps_revoked].
Qed.

(** A selection revokes at most the element's source, and only a blob URL. *)
Lemma playTrackFromPlaylist_in_revoked l i s :
  Forall (fun u => is_blob u = true) (revoked s) ->
  Forall (fun u => is_blob u = true) (revoked (exec (playTrackFromPlaylist_in l i) s)).
Proof.
  intros H.
  unfold playTrackFromPlaylist_in, stopAnimation, ensureAudioContextActive.
  unfold_ops. unfold_M. cbn beta.
  destruct ((0 <=? i) && (i <? Z.of_nat (length l))); [|exact H].
  destruct (l !! Z.to_nat i) as [track|]; [|exact H].
  destruct (audioRef s) as [audio|] eqn:Ha; [|exact H]. simpl.
  destruct (animationIdRef s) eqn:Eid; simpl; rewrite ?Ha, ?Eid; simpl.
  all: destruct (negb (String.eqb (src audio) "") && String.prefix "blob:" (src audio))
    eqn:Eb; simpl; rewrite ?Ha; simpl.
  all: destruct (is_suspended (audioContextRef s)); simpl.
  all: try exact H.
  all: apply Forall_app; split; [exact H|]; constructor; [|constructor];
    apply andb_true_iff in Eb; apply Eb.
Qed.

Lemma removeFromPlaylist_revoked s tid :
  revoked (exec (removeFromPlaylist tid) s) =
    match list_find (fun t => id t = tid) (playlist s) with
    | Some (_, track) =>
        if is_blob (url track) then (revoked s ++ [url track])%list else revoked s
    | None => revoked s
    end.
Proof.
  unfold removeFromPlaylist, stopAnimation, is_blob. unfold_ops. unfold_M. cbn beta.
  destruct (list_find (fun t => id t = tid) (playlist s)) as [[index track]|];
    [|reflexivity].
  destruct (String.prefix "blob:" (url track)); simpl.
  all: destruct (currentTrackIndex s =? Z.of_nat index); simpl.
  all: try (destruct (animationIdRef s) eqn:Eid; simpl; rewrite ?Eid; reflexivity).
  all: destruct (Z.of_nat index <? currentTrackIndex s); reflexivity.
Qed.

Lemma step_revokes_blobs e s :
  Forall (fun u => is_blob u = true) (revoked s) ->
  Forall (fun u => is_blob u = true) (revoked (exec (step e) s)).
Proof.
  intros H. pose proof (quiet_events_keep_revoked e) as Hq.
  destruct e; try (rewrite (Hq s); exact H); clear Hq; simpl step.
  - unfold playTrackFromPlaylist, exec, mbind, M_bind, get.
    now apply playTrackFromPlaylist_in_revoked.
  - rewrite removeFromPlaylist_revoked.
    destruct (list_find _ _) as [[index track]|]; [|exact H].
    destruct (is_blob (url track)) eqn:Eb; [|exact H].
    apply Forall_app. split; [exact H|]. now repeat constructor.
  - rewrite exec_seq by apply on_audio_returns.
    set (s0 := exec (on_audio _) s).
    assert (H0 : Forall (fun u => is_blob u = true) (revoked s0)) by exact H.
    clearbody s0. clear H s.
    replace (exec handleEnded s0)
      with (exec (ended_decision s0) (exec stopAnimation s0))
      by (unfold exec; now rewrite handleEnded_unfold).
    destruct (stopAnimation_frame s0) as (_ & _ & _ & _ & _ & _ & _ & Hrv & _).
    rewrite <- Hrv in H0. set (s1 := exec stopAnimation s0) in *. clearbody s1.
    unfold ended_decision.
    repeat match goal with
    | |- context [if ?c then _ else _] => destruct c
    end;
      try (unfold playTrackFromPlaylist, exec, mbind, M_bind, get;
           now apply playTrackFromPlaylist_in_revoked).
    + assert (Hk : keeps revoked (audio_rewind;; audio_play))
        by (unfold audio_play, skip; unfold_ops; keeps_zeta).
      now rewrite (Hk s1).
    + exact H0.
  - unfold exec, mbind, M_bind, get.
    destruct (timers s !! k) as [[env|captured index]|]; [| |exact H];
      unfold modify; cbn beta iota.
    + unfold playTimerFired, mbind, M_bind, get.
      change (animationIdRef (set_timers (delete k (timers s)) s))
        with (animationIdRef s).
      destruct (animationIdRef s); [exact H|].
      change (Forall (fun u => is_blob u = true)
                (revoked (exec (animate env spectrum rx ry)
                            (set_timers (delete k (timers s)) s)))).
      now rewrite (animate_keeps_revoked env spectrum rx ry _).
    + now apply playTrackFromPlaylist_in_revoked.
Qed.

Lemma run_revokes_blobs events : forall s,
  Forall (fun u => is_blob u = true) (revoked s) ->
  Forall (fun u => is_blob u = true) (revoked (run events s)).
Proof.
  induction events as [|e events IH]; intros s H; simpl; [exact H|].
  apply IH, step_revokes_blobs, H.
Qed.

(** X11. Through any sequence of events from the mount, every URL the
    component hands to [URL.revokeObjectURL] is a blob URL; and removing a
    track that is in the playlist revokes that track's URL (when it is a blob
    URL) and no other, while asking to remove an unknown id revokes
    nothing. *)
Theorem only_blob_urls_are_revoked (events : list Event) (w h : Z) (st : ContextState) :
  let s := run events (exec (mountEffect st) (initialState w h)) in
  Forall (fun u => is_blob u = true) (revoked s) /\
  (forall trackId index track,
     list_find (fun t => id t = trackId) (playlist s) = Some (index, track) ->
     is_blob (url track) = true ->
     revoked (exec (step (EvRemove trackId)) s) = (revoked s ++ [url track])%list) /\
  (forall trackId,
     list_find (fun t => id t = trackId) (playlist s) = None ->
     revoked (exec (step (EvRemove trackId)) s) = revoked s).
Proof.
  cbv zeta. split; [|split].
  - apply run_revokes_blobs. constructor.
  - intros trackId index track Hfind Hb. simpl step.
    now rewrite removeFromPlaylist_revoked, Hfind, Hb.
  - intros trackId Hfind. simpl step. now rewrite removeFromPlaylist_revoked, Hfind.
Qed.

(** ** Time display *)

Lemma Qfloor_unique (x : Q) (m : Z) :
  (inject_Z m <= x)%Q -> (x < inject_Z (m + 1))%Q -> Qfloor x = m.
Proof.
  intros Hlo Hhi.
  pose proof (Qfloor_le x) as H1. pose proof (Qlt_floor x) as H2.
  assert (Ha : (inject_Z (Qfloor x) < inject_Z (m + 1))%Q)
    by (eapply Qle_lt_trans; eauto).
  assert (Hb : (inject_Z m < inject_Z (Qfloor x + 1))%Q)
    by (eapply Qle_lt_trans; eauto).
  rewrite <- Zlt_Qlt in Ha, Hb. lia.
Qed.

(** *** Powers of two, binades and rounding *)

Lemma Qpow2_pos e : (0 < Qpow2 e)%Q.
Proof. apply Qpower_0_lt. reflexivity. Qed.

Lemma Qpow2_add a b : (Qpow2 (a + b) == Qpow2 a * Qpow2 b)%Q.
Proof. apply Qpower_plus. discriminate. Qed.

Lemma Qpow2_sub a b : (Qpow2 (a - b) == Qpow2 a / Qpow2 b)%Q.
Proof. apply Qpower_minus. discriminate. Qed.

Lemma Qpow2_le a b : a <= b -> (Qpow2 a <= Qpow2 b)%Q.
Proof. intros H. apply Qpower_le_compat_l; [exact H | discriminate]. Qed.

Lemma Qpow2_lt a b : a < b -> (Qpow2 a < Qpow2 b)%Q.
Proof. intros H. apply Qpower_lt_compat_l; [exact H | reflexivity]. Qed.

Lemma Qpow2_lt_inv a b : (Qpow2 a < Qpow2 b)%Q -> a < b.
Proof. intros H. eapply Qpower_lt_compat_l_inv; [exact H | reflexivity]. Qed.

Lemma Qpow2_Z n : 0 <= n -> (Qpow2 n == inject_Z (2 ^ n))%Q.
Proof. intros H. unfold Qpow2. now rewrite Zpower_Qpower. Qed.

Lemma Qpow2_succ a : (Qpow2 (a + 1) == 2 * Qpow2 a)%Q.
Proof. rewrite Qpow2_add. change (Qpow2 1) with 2%Q. ring. Qed.

(** Fractions of positive numbers compare as their parts do. *)
Lemma Qdiv_lt_le a1 b1 a2 b2 :
  (0 <= a1)%Q -> (a1 < a2)%Q -> (0 < b2)%Q -> (b2 <= b1)%Q -> (a1 / b1 < a2 / b2)%Q.
Proof.
  intros Ha Hlt Hb Hle.
  assert (Hb1 : (0 < b1)%Q) by lra.
  apply Qlt_shift_div_l; [exact Hb|].
  set (t := (a1 / b1)%Q).
  assert (Ht : (t * b1 == a1)%Q) by (unfold t; field; lra).
  assert (Ht0 : (0 <= t)%Q) by (unfold t; apply Qle_shift_div_l; lra).
  nra.
Qed.

Lemma Qdiv_le_lt a1 b1 a2 b2 :
  (0 < a1)%Q -> (a1 <= a2)%Q -> (0 < b2)%Q -> (b2 < b1)%Q -> (a1 / b1 <= a2 / b2)%Q.
Proof.
  intros Ha Hlt Hb Hle.
  assert (Hb1 : (0 < b1)%Q) by lra.
  apply Qle_shift_div_l; [exact Hb|].
  set (t := (a1 / b1)%Q).
  assert (Ht : (t * b1 == a1)%Q) by (unfold t; field; lra).
  assert (Ht0 : (0 <= t)%Q) by (unfold t; apply Qle_shift_div_l; lra).
  nra.
Qed.

Lemma Zlog2_Q a : 0 < a ->
  (Qpow2 (Z.log2 a) <= inject_Z a)%Q /\ (inject_Z a < Qpow2 (Z.log2 a + 1))%Q.
Proof.
  intros Ha. destruct (Z.log2_spec a Ha) as [H1 H2].
  pose proof (Z.log2_nonneg a).
  rewrite !Qpow2_Z by lia. rewrite <- Zle_Qle, <- Zlt_Qlt. split; [exact H1|].
  now rewrite Z.add_1_r.
Qed.

(** [Qlog2 x] is the binade of a positive [x]. *)
Lemma Qlog2_spec x :
  (0 < x)%Q -> (Qpow2 (Qlog2 x) <= x)%Q /\ (x < Qpow2 (Qlog2 x + 1))%Q.
Proof.
  intros Hx. unfold Qlog2. cbv zeta.
  destruct x as [a b]. cbn [Qnum Qden].
  assert (Ha : 0 < a) by (unfold Qlt in Hx; simpl in Hx; lia).
  destruct (Zlog2_Q a Ha) as [Ha1 Ha2].
  destruct (Zlog2_Q (Zpos b) eq_refl) as [Hb1 Hb2].
  set (la := Z.log2 a) in *. set (lb := Z.log2 (Zpos b)) in *.
  assert (Hab : (a # b == inject_Z a / inject_Z (Zpos b))%Q) by apply Qmake_Qdiv.
  pose proof (Qpow2_pos la). pose proof (Qpow2_pos lb). pose proof (Qpow2_pos (lb + 1)).
  assert (H0a : (0 < inject_Z a)%Q) by (change 0%Q with (inject_Z 0); now rewrite <- Zlt_Qlt).
  destruct (Qle_bool (Qpow2 (la - lb)) (a # b)) eqn:E.
  - apply Qle_bool_iff in E. split; [exact E|].
    replace (la - lb + 1) with (la + 1 - lb) by lia.
    rewrite Hab, Qpow2_sub. apply Qdiv_lt_le; lra.
  - assert (E' : (a # b < Qpow2 (la - lb))%Q).
    { apply Qnot_le_lt. intros C. apply Qle_bool_iff in C. congruence. }
    replace (la - lb - 1 + 1) with (la - lb) by lia. split; [|exact E'].
    replace (la - lb - 1) with (la - (lb + 1)) by lia.
    rewrite Hab, Qpow2_sub. apply Qdiv_le_lt; lra.
Qed.

Lemma Qlog2_lt x k : (0 < x)%Q -> (x < Qpow2 k)%Q -> Qlog2 x < k.
Proof.
  intros Hx Hk. destruct (Qlog2_spec x Hx) as [H1 _].
  apply Qpow2_lt_inv. lra.
Qed.

Lemma Qlog2_ge x k : (0 < x)%Q -> (Qpow2 k <= x)%Q -> k <= Qlog2 x.
Proof.
  intros Hx Hk. destruct (Qlog2_spec x Hx) as [_ H2].
  assert (k < Qlog2 x + 1) by (apply Qpow2_lt_inv; lra). lia.
Qed.

(** Rounding to the nearest integer moves a number by at most one half. *)
Lemma round_half_even_near x :
  (x - (1 # 2) <= inject_Z (round_half_even x))%Q /\
  (inject_Z (round_half_even x) <= x + (1 # 2))%Q.
Proof.
  unfold round_half_even. cbv zeta.
  pose proof (Qfloor_le x) as H1. pose proof (Qlt_floor x) as H2.
  rewrite inject_Z_plus in H2. change (inject_Z 1) with 1%Q in H2.
  destruct (Qcompare_spec (x - inject_Z (Qfloor x)) (1 # 2)) as [E|E|E].
  - destruct (Z.even (Qfloor x)); rewrite ?inject_Z_plus;
      change (inject_Z 1) with 1%Q; lra.
  - lra.
  - rewrite inject_Z_plus. change (inject_Z 1) with 1%Q. lra.
Qed.

Lemma round_half_even_ge x k : (inject_Z k <= x)%Q -> k <= round_half_even x.
Proof.
  intros H. destruct (round_half_even_near x) as [H1 _].
  destruct (Z_lt_le_dec (round_half_even x) k) as [Hlt|]; [exfalso|assumption].
  assert (Hle : (inject_Z (round_half_even x + 1) <= inject_Z k)%Q)
    by (rewrite <- Zle_Qle; lia).
  rewrite inject_Z_plus in Hle. change (inject_Z 1) with 1%Q in Hle. lra.
Qed.

Lemma round_half_even_lt x k :
  (x < inject_Z k - (1 # 2))%Q -> round_half_even x < k.
Proof.
  intros H. destruct (round_half_even_near x) as [_ H2].
  rewrite Zlt_Qlt. lra.
Qed.

Lemma Qabs_nonneg_eq x : (0 <= x)%Q -> Qabs x = x.
Proof.
  destruct x as [a b]. unfold Qle, Qabs. simpl. intros H.
  f_equal. apply Z.abs_eq. lia.
Qed.

(** What [round_double] returns. *)

(** Away from zero and below the overflow threshold, the result is the
    nearest multiple of the unit in the last place. *)
Lemma round_double_finite x :
  ~ (x == 0)%Q ->
  let e := ulp_exponent x in
  let m := round_half_even (x / Qpow2 e) in
  (Qabs (inject_Z m * Qpow2 e) < Qpow2 1024)%Q ->
  exists y, round_double x = Finite y /\ (y == inject_Z m * Qpow2 e)%Q.
Proof.
  intros Hx e m Hy. unfold round_double.
  destruct (Qeq_bool x 0) eqn:E0; [apply Qeq_bool_eq in E0; contradiction|].
  fold e. fold m. cbv zeta.
  destruct (Qle_bool (Qpow2 1024) (Qabs (inject_Z m * Qpow2 e))) eqn:E.
  - apply Qle_bool_iff in E. lra.
  - eexists. split; [reflexivity | apply Qred_correct].
Qed.

(** The rounding error of a positive number below [2^k] is at most half a
    unit in the last place of that binade. *)
Lemma round_double_near x k :
  (0 < x)%Q -> (x < Qpow2 k)%Q -> -1021 <= k <= 1023 ->
  exists y, round_double x = Finite y /\
    (0 <= y)%Q /\ (x - Qpow2 (k - 54) <= y)%Q /\ (y <= x + Qpow2 (k - 54))%Q.
Proof.
  intros Hx Hk Hr.
  set (e := ulp_exponent x). set (m := round_half_even (x / Qpow2 e)).
  assert (He : e <= k - 53).
  { unfold e, ulp_exponent. rewrite Qabs_nonneg_eq by lra.
    pose proof (Qlog2_lt x k Hx Hk). lia. }
  pose proof (Qpow2_pos e) as Hpe.
  destruct (round_half_even_near (x / Qpow2 e)) as [Hm1 Hm2]. fold m in Hm1, Hm2.
  assert (Hxe : (x / Qpow2 e * Qpow2 e == x)%Q) by (field; lra).
  assert (Hhalf : (Qpow2 e == 2 * Qpow2 (e - 1))%Q).
  { rewrite <- Qpow2_succ. now replace (e - 1 + 1) with e by lia. }
  assert (Hle : (Qpow2 (e - 1) <= Qpow2 (k - 54))%Q) by (apply Qpow2_le; lia).
  assert (Hm0 : 0 <= m).
  { apply round_half_even_ge. change (inject_Z 0) with 0%Q.
    apply Qle_shift_div_l; lra. }
  assert (Hm0' : (0 <= inject_Z m)%Q)
    by (change 0%Q with (inject_Z 0); now rewrite <- Zle_Qle).
  set (t := (x / Qpow2 e)%Q) in *. set (P := Qpow2 e) in *.
  assert (Hp1 : (0 <= (inject_Z m - (t - (1 # 2))) * P)%Q)
    by (apply Qmult_le_0_compat; lra).
  assert (Hp2 : (0 <= (t + (1 # 2) - inject_Z m) * P)%Q)
    by (apply Qmult_le_0_compat; lra).
  assert (Hlo : (x - Qpow2 (k - 54) <= inject_Z m * P)%Q) by nra.
  assert (Hhi : (inject_Z m * P <= x + Qpow2 (k - 54))%Q) by nra.
  assert (Hbig : (Qpow2 (k - 54) < Qpow2 k)%Q) by (apply Qpow2_lt; lia).
  assert (Hk1 : (Qpow2 (k + 1) <= Qpow2 1024)%Q) by (apply Qpow2_le; lia).
  pose proof (Qpow2_succ k) as Hsucc.
  assert (Hx0 : ~ (x == 0)%Q) by lra.
  pose proof (round_double_finite x Hx0) as HF. cbv zeta in HF.
  change (ulp_exponent x) with e in HF. change (x / Qpow2 e)%Q with t in HF.
  change (round_half_even t) with m in HF. change (Qpow2 e) with P in HF.
  destruct HF as (y & Hy & Hyv); [rewrite Qabs_pos by nra; lra|].
  exists y. split; [exact Hy|].
  rewrite Hyv. split; [nra|]. split; assumption.
Qed.

Lemma Qpow2_inv e : e <= 0 -> (Qpow2 e * inject_Z (2 ^ (- e)) == 1)%Q.
Proof.
  intros He. rewrite <- Qpow2_Z by lia. rewrite <- Qpow2_add.
  now replace (e + - e) with 0 by lia.
Qed.

(** Two points of the grid of step [2^e] that differ are a step apart. *)
Lemma grid_gap e M K :
  e <= 0 -> (inject_Z M * Qpow2 e < inject_Z K)%Q ->
  (inject_Z M * Qpow2 e + Qpow2 e <= inject_Z K)%Q.
Proof.
  intros He Hlt. pose proof (Qpow2_inv e He) as Hinv.
  pose proof (Qpow2_pos e) as HP.
  set (P := Qpow2 e) in *. set (R := 2 ^ (- e)) in *.
  assert (HR : (0 < inject_Z R)%Q).
  { destruct (Qlt_le_dec 0 (inject_Z R)) as [|C]; [assumption|]. nra. }
  assert (H1 : (inject_Z M < inject_Z (K * R))%Q).
  { rewrite inject_Z_mult.
    assert (Hm : (inject_Z M == inject_Z M * P * inject_Z R)%Q)
      by (rewrite <- Qmult_assoc, Hinv; ring).
    rewrite Hm. apply Qmult_lt_compat_r; assumption. }
  rewrite <- Zlt_Qlt in H1.
  assert (H2 : (inject_Z (M + 1) <= inject_Z (K * R))%Q) by (rewrite <- Zle_Qle; lia).
  rewrite inject_Z_plus, inject_Z_mult in H2. change (inject_Z 1) with 1%Q in H2.
  assert (H3 : ((inject_Z M + 1) * P <= inject_Z K * inject_Z R * P)%Q)
    by (apply Qmult_le_compat_r; lra).
  assert (H4 : (inject_Z K * inject_Z R * P == inject_Z K)%Q)
    by (rewrite <- Qmult_assoc, (Qmult_comm (inject_Z R)), Hinv; ring).
  lra.
Qed.

(** Rounding to the grid of step [2^e] never crosses an integer downwards,
    and stays below an integer that is more than half a step away. *)
Lemma grid_round_between e x F :
  e <= 0 -> (inject_Z F <= x)%Q -> (x + Qpow2 e * (1 # 2) < inject_Z (F + 1))%Q ->
  let y := (inject_Z (round_half_even (x / Qpow2 e)) * Qpow2 e)%Q in
  (inject_Z F <= y)%Q /\ (y < inject_Z (F + 1))%Q.
Proof.
  intros He Hlo Hhi. cbv zeta.
  pose proof (Qpow2_inv e He) as Hinv. pose proof (Qpow2_pos e) as HP.
  set (P := Qpow2 e) in *. set (R := 2 ^ (- e)) in *.
  assert (HR : (0 < inject_Z R)%Q).
  { destruct (Qlt_le_dec 0 (inject_Z R)) as [|C]; [assumption|]. nra. }
  assert (Hdiv : (x / P == x * inject_Z R)%Q).
  { assert (E : (x / P * P == x)%Q) by (field; lra).
    rewrite <- (Qmult_1_r (x / P)), <- Hinv, Qmult_assoc, E. reflexivity. }
  set (m := round_half_even (x / P)).
  assert (H1 : F * R <= m).
  { apply round_half_even_ge. rewrite Hdiv, inject_Z_mult.
    apply Qmult_le_compat_r; lra. }
  assert (H2 : m < (F + 1) * R).
  { apply round_half_even_lt. rewrite Hdiv, inject_Z_mult.
    assert ((x + P * (1 # 2)) * inject_Z R < inject_Z (F + 1) * inject_Z R)%Q
      by (apply Qmult_lt_compat_r; assumption).
    nra. }
  rewrite Zle_Qle in H1. rewrite Zlt_Qlt in H2.
  rewrite inject_Z_mult in H1, H2.
  assert (H3 : (inject_Z F * inject_Z R * P <= inject_Z m * P)%Q)
    by (apply Qmult_le_compat_r; lra).
  assert (H4 : (inject_Z m * P < inject_Z (F + 1) * inject_Z R * P)%Q)
    by (apply Qmult_lt_compat_r; lra).
  assert (E1 : (inject_Z F * inject_Z R * P == inject_Z F)%Q)
    by (rewrite <- Qmult_assoc, (Qmult_comm (inject_Z R)), Hinv; ring).
  assert (E2 : (inject_Z (F + 1) * inject_Z R * P == inject_Z (F + 1))%Q)
    by (rewrite <- Qmult_assoc, (Qmult_comm (inject_Z R)), Hinv; ring).
  split; lra.
Qed.

Lemma is_double_grid q :
  is_double q -> (0 < q)%Q ->
  exists M, (q == inject_Z M * Qpow2 (ulp_exponent q))%Q.
Proof.
  unfold is_double, round_double. intros H Hq.
  destruct (Qeq_bool q 0) eqn:E0; [apply Qeq_bool_eq in E0; lra|].
  cbv zeta in H.
  destruct (Qle_bool (Qpow2 1024) _); [destruct (Qle_bool 0 q); discriminate|].
  injection H as H.
  exists (round_half_even (q / Qpow2 (ulp_exponent q))).
  rewrite <- (Qred_correct (_ * _)). now rewrite H.
Qed.

(** The code's [Math.floor(seconds / 60)]: for a double of at least one
    second and below [2^53], rounding the quotient to a double does not
    carry it across a whole number, because a double below a multiple of 60
    is at least 32 units in the quotient's last place, divided by 60, away
    from it. *)
Lemma quotient_60_floor q :
  is_double q -> (1 <= q)%Q -> (q < Qpow2 53)%Q ->
  exists z, round_double (q / 60) = Finite z /\
    (0 <= z)%Q /\ Qfloor z = Qfloor (q / 60).
Proof.
  intros Hd H1 H53.
  assert (Hq : (0 < q)%Q) by lra.
  destruct (is_double_grid q Hd Hq) as [M HM].
  set (y := (q / 60)%Q).
  assert (Hy60 : (y * 60 == q)%Q) by (unfold y; field).
  assert (Hy : (0 < y)%Q) by lra.
  destruct (Qlog2_spec q Hq) as [Hq1 Hq2].
  set (Lq := Qlog2 q) in *.
  assert (HLq0 : 0 <= Lq) by (apply Qlog2_ge; [lra | change (Qpow2 0) with 1%Q; lra]).
  assert (HLq52 : Lq < 53) by (apply Qlog2_lt; lra).
  assert (Heq : ulp_exponent q = Lq - 52).
  { unfold ulp_exponent. rewrite Qabs_nonneg_eq by lra. fold Lq. lia. }
  rewrite Heq in HM.
  assert (H32 : (Qpow2 (Lq + 1) == 32 * Qpow2 (Lq - 4))%Q).
  { replace (Lq + 1) with (5 + (Lq - 4)) by lia. rewrite Qpow2_add. reflexivity. }
  pose proof (Qpow2_pos (Lq - 4)) as HP4.
  assert (HLy1 : Qlog2 y < Lq - 4) by (apply Qlog2_lt; lra).
  assert (H64 : (Qpow2 (-6) == 1 # 64)%Q) by reflexivity.
  assert (HLy2 : -6 <= Qlog2 y) by (apply Qlog2_ge; lra).
  set (e := Qlog2 y - 52).
  assert (He : ulp_exponent y = e).
  { unfold ulp_exponent. rewrite Qabs_nonneg_eq by lra. unfold e. lia. }
  set (F := Qfloor y).
  pose proof (Qfloor_le y) as HF1. pose proof (Qlt_floor y) as HF2.
  fold F in HF1, HF2.
  assert (HF0 : 0 <= F).
  { assert (Hlt : (inject_Z 0 < inject_Z (F + 1))%Q)
      by (change (inject_Z 0) with 0%Q; lra).
    rewrite <- Zlt_Qlt in Hlt. lia. }
  (* the gap *)
  assert (Hgap : (q + Qpow2 (Lq - 52) <= inject_Z (60 * (F + 1)))%Q).
  { rewrite HM. apply grid_gap; [lia|]. rewrite <- HM.
    rewrite inject_Z_mult. change (inject_Z 60) with 60%Q. lra. }
  assert (H32e : (Qpow2 (Lq - 52) == Qpow2 (Lq - 57 - e) * (32 * Qpow2 e))%Q).
  { replace (Lq - 52) with ((Lq - 57 - e) + (5 + e)) by lia.
    rewrite !Qpow2_add. reflexivity. }
  assert (Hone : (1 <= Qpow2 (Lq - 57 - e))%Q).
  { change 1%Q with (Qpow2 0). apply Qpow2_le. unfold e. lia. }
  pose proof (Qpow2_pos e) as HPe.
  rewrite inject_Z_mult in Hgap. change (inject_Z 60) with 60%Q in Hgap.
  destruct (grid_round_between e y F) as [Hlo Hhi]; [unfold e; lia | exact HF1 | nra |].
  pose proof (round_double_finite y) as HFin. cbv zeta in HFin. rewrite He in HFin.
  set (v := (inject_Z (round_half_even (y / Qpow2 e)) * Qpow2 e)%Q) in *.
  assert (HFp : (inject_Z (F + 1) <= Qpow2 53)%Q).
  { assert (H2 : (Qpow2 1 <= Qpow2 53)%Q) by (apply Qpow2_le; lia).
    change (Qpow2 1) with 2%Q in H2.
    rewrite inject_Z_plus. change (inject_Z 1) with 1%Q. lra. }
  assert (Hbig : (Qpow2 53 < Qpow2 1024)%Q) by (apply Qpow2_lt; lia).
  destruct HFin as (z & Hz & Hzv); [lra | |].
  - assert (0 <= inject_Z F)%Q by (change 0%Q with (inject_Z 0); rewrite <- Zle_Qle; exact HF0).
    rewrite Qabs_pos by lra. lra.
  - exists z. split; [exact Hz|]. rewrite <- Hzv in Hlo, Hhi.
    assert (0 <= inject_Z F)%Q by (change 0%Q with (inject_Z 0); rewrite <- Zle_Qle; exact HF0).
    split; [lra|]. now apply Qfloor_unique.
Qed.

Lemma Qfloor_bounds (x : Q) :
  (inject_Z (Qfloor x) <= x)%Q /\ (x < inject_Z (Qfloor x) + 1)%Q.
Proof.
  split; [apply Qfloor_le|].
  pose proof (Qlt_floor x) as H. now rewrite inject_Z_plus in H.
Qed.

Lemma Qfloor_div_60 (q : Q) : Qfloor (q / 60) = Qfloor q / 60.
Proof.
  destruct (Qfloor_bounds q) as [Hlo Hhi].
  pose proof (Z.div_mod (Qfloor q) 60 ltac:(lia)) as Hdm.
  pose proof (Z.mod_pos_bound (Qfloor q) 60 ltac:(lia)) as Hm.
  set (z := Qfloor q) in *. set (m := z / 60) in *.
  assert (Hz : (inject_Z z == 60 * inject_Z m + inject_Z (z mod 60))%Q).
  { rewrite Hdm at 1. rewrite inject_Z_plus, inject_Z_mult. reflexivity. }
  assert (Hr0 : (0 <= inject_Z (z mod 60))%Q)
    by (change 0%Q with (inject_Z 0); rewrite <- Zle_Qle; lia).
  assert (Hr1 : (inject_Z (z mod 60) <= 59)%Q)
    by (change 59%Q with (inject_Z 59); rewrite <- Zle_Qle; lia).
  apply Qfloor_unique; rewrite ?inject_Z_plus; unfold Qdiv;
    change (/ 60)%Q with (1 # 60)%Q; change (inject_Z 1) with 1%Q; lra.
Qed.

Lemma Qfloor_rem_60 (q : Q) :
  (0 <= q)%Q -> Qfloor (js_rem q 60) = Qfloor q mod 60.
Proof.
  intros Hq.
  assert (Hpos : Qle_bool 0 (q / 60) = true).
  { apply Qle_bool_iff. unfold Qdiv. change (/ 60)%Q with (1 # 60)%Q. lra. }
  unfold js_rem, Qtrunc. rewrite Hpos, Qfloor_div_60.
  destruct (Qfloor_bounds q) as [Hlo Hhi].
  pose proof (Z.div_mod (Qfloor q) 60 ltac:(lia)) as Hdm.
  set (z := Qfloor q) in *. set (m := z / 60) in *.
  assert (Hz : (inject_Z z == 60 * inject_Z m + inject_Z (z mod 60))%Q).
  { rewrite Hdm at 1. rewrite inject_Z_plus, inject_Z_mult. reflexivity. }
  apply Qfloor_unique; rewrite ?inject_Z_plus; change (inject_Z 1) with 1%Q; lra.
Qed.

Lemma padStart_two_digits (r : Z) :
  0 <= r < 100 -> padStart0 2 (show_int r) = two_digits r.
Proof.
  intros Hr. rewrite <- (Z2Nat.id r) by lia.
  assert (Hn : (Z.to_nat r < 100)%nat) by lia.
  revert Hn. generalize (Z.to_nat r). clear.
  intros n Hn. do 100 (destruct n as [|n]; [reflexivity|]). lia.
Qed.

(** [round_double] against the binary64 division and addition of the
    Standard Library's specification of IEEE 754: a price literal, a time
    quotient beyond 2^53, a sum of two prices, a tie in the subnormal range
    and an overflow. *)
Lemma round_double_agrees_with_binary64 :
  let num := spec_float_of_Z in
  let div := SFdiv 53 1024 in
  let add := SFadd 53 1024 in
  of_spec_float (div (num 999) (num 100)) = js_literal (999 # 100) /\
  of_spec_float (div (num (10 ^ 21)) (num 60)) = round_double (inject_Z (10 ^ 21) / 60) /\
  of_spec_float (add (div (num 999) (num 100)) (div (num 1299) (num 100)))
    = js_add (js_literal (999 # 100)) (js_literal (1299 # 100)) /\
  of_spec_float (div (div (num 3) (num (2 ^ 1000))) (num (2 ^ 75)))
    = round_double (3 # Z.to_pos (2 ^ 1075)) /\
  of_spec_float (add (num (2 ^ 1023)) (num (2 ^ 1023)))
    = js_add (Finite (inject_Z (2 ^ 1023))) (Finite (inject_Z (2 ^ 1023))).
Proof. vm_compute. repeat split. Qed.

(** Below one second the quotient by 60 rounds to a number below one. *)
Lemma quotient_60_small q :
  (0 <= q)%Q -> (q < 1)%Q ->
  exists z, round_double (q / 60) = Finite z /\ (0 <= z)%Q /\ Qfloor z = 0.
Proof.
  intros H0 H1.
  destruct (Qeq_bool (q / 60) 0) eqn:E0.
  - exists 0%Q. unfold round_double. rewrite E0. repeat split. discriminate.
  - assert (Hy : (0 < q / 60)%Q).
    { destruct (Qlt_le_dec 0 q) as [|C]; [apply Qlt_shift_div_l; lra|].
      assert (Hq : (q == 0)%Q) by lra.
      assert (Hz : (q / 60 == 0)%Q) by (rewrite Hq; reflexivity).
      apply Qeq_eq_bool in Hz. congruence. }
    assert (H32 : (Qpow2 (-5) == 1 # 32)%Q) by reflexivity.
    assert (H59 : (Qpow2 (-5 - 54) == 1 # 576460752303423488)%Q) by reflexivity.
    assert (Hlt : (q / 60 < Qpow2 (-5))%Q) by (apply Qlt_shift_div_r; lra).
    destruct (round_double_near (q / 60) (-5) Hy Hlt ltac:(lia)) as (z & Hz & Hz0 & _ & Hhi).
    exists z. split; [exact Hz|]. split; [exact Hz0|].
    apply Qfloor_unique; [exact Hz0|]. change (inject_Z (0 + 1)) with 1%Q. lra.
Qed.

(** [Math.floor(seconds / 60)] is the whole number of minutes. *)
Lemma floor_quotient_60 q :
  is_double q -> (0 <= q)%Q -> (q < Qpow2 53)%Q ->
  exists z, round_double (q / 60) = Finite z /\ Qfloor z = Qfloor q / 60.
Proof.
  intros Hd H0 H53. destruct (Qlt_le_dec q 1) as [H1|H1].
  - destruct (quotient_60_small q H0 H1) as (z & Hz & _ & Hf).
    exists z. split; [exact Hz|]. rewrite Hf.
    assert (Hq : Qfloor q = 0)
      by (apply Qfloor_unique; [exact H0 | exact H1]).
    now rewrite Hq.
  - destruct (quotient_60_floor q Hd H1 H53) as (z & Hz & _ & Hf).
    exists z. split; [exact Hz|]. now rewrite Hf, Qfloor_div_60.
Qed.

Lemma show_integer_small z : 0 <= z < 2 ^ 53 -> show_integer z = show_int z.
Proof.
  intros Hz. destruct z as [|p|p]; [reflexivity| |lia].
  unfold show_integer, show_positive_integer.
  destruct (Z.ltb_spec (Z.pos p) (2 ^ 53)); [reflexivity|lia].
Qed.

(** X12. For a number of seconds that is a double, not negative and below
    2^53, [formatTime] prints the whole minutes, a colon and the remaining
    whole seconds as exactly two digits: the two parts are the quotient and
    the remainder by 60 of the seconds rounded down, so they add up to them
    again (the rounding of the division [seconds / 60] never reaches the
    next whole minute).  For NaN and the infinities it prints "0:00". *)
Theorem formatTime_minutes_colon_two_digits (q : Q) :
  is_double q -> (0 <= q)%Q -> (q < 9007199254740992)%Q ->
  (exists m r, formatTime (Finite q) = show_int m ++ ":" ++ two_digits r /\
     0 <= m /\ 0 <= r < 60 /\ 60 * m + r = Qfloor q /\
     String.length (two_digits r) = 2%nat) /\
  formatTime NaN = "0:00" /\ formatTime Infinity = "0:00" /\
  formatTime NegInfinity = "0:00".
Proof.
  intros Hd Hq H53. split; [|auto].
  exists (Qfloor q / 60), (Qfloor q mod 60).
  assert (H0 : 0 <= Qfloor q)
    by (rewrite <- (Qfloor_Z 0); now apply Qfloor_resp_le).
  assert (Hlt : Qfloor q < 2 ^ 53).
  { rewrite Zlt_Qlt. eapply Qle_lt_trans; [apply Qfloor_le|exact H53]. }
  pose proof (Z.mod_pos_bound (Qfloor q) 60 ltac:(lia)) as Hm.
  assert (Hdiv : 0 <= Qfloor q / 60 < 2 ^ 53).
  { split; [apply Z.div_pos; lia|].
    apply Z.le_lt_trans with (Qfloor q); [|exact Hlt].
    apply Z.div_le_upper_bound; lia. }
  split; [|split; [|split; [|split]]].
  - destruct (floor_quotient_60 q Hd Hq H53) as (z & Hz & Hf).
    unfold formatTime. cbv zeta. rewrite Hz. unfold show_floor.
    rewrite Hf, (Qfloor_rem_60 q Hq).
    rewrite !show_integer_small by lia.
    rewrite padStart_two_digits by lia. reflexivity.
  - apply Hdiv.
  - exact Hm.
  - symmetry. apply Z.div_mod. lia.
  - reflexivity.
Qed.

Lemma formatTime_witness :
  exists m r, formatTime (Finite (151 # 2)) = show_int m ++ ":" ++ two_digits r /\
    0 <= m /\ 0 <= r < 60 /\ 60 * m + r = Qfloor (151 # 2) /\
    String.length (two_digits r) = 2%nat.
Proof.
  refine (proj1 (formatTime_minutes_colon_two_digits (151 # 2) _ _ _));
    [vm_compute; reflexivity | discriminate | reflexivity].
Defined.

(** ** The rendered playlist *)

Lemma rendered_items_imap s :
  rendered_items (renderPlaylist s) = imap (playlistItem s) (playlist s).
Proof.
  unfold renderPlaylist. destruct (playlist s); reflexivity.
Qed.

Lemma rendered_item_lookup s k :
  rendered_items (renderPlaylist s) !! k = playlistItem s k <$> playlist s !! k.
Proof. rewrite rendered_items_imap. apply list_lookup_imap. Qed.

(** X13. The playlist window shows the empty hint exactly when there are no
    tracks; otherwise it shows one item per track, in playlist order and
    keyed by the track id.  An item is marked active exactly when its
    position is the current index, so at most one item is active; an item is
    marked playing only if it is active and the element is not paused; and a
    track whose duration is not yet known shows "--:--". *)
Theorem rendered_playlist_mirrors_state (s : State) :
  let items := rendered_items (renderPlaylist s) in
  (renderPlaylist s = PlaylistEmpty <-> playlist s = []) /\
  item_key <$> items = id <$> playlist s /\
  item_title <$> items = name <$> playlist s /\
  (forall k it, items !! k = Some it ->
     (item_active it = true <-> currentTrackIndex s = Z.of_nat k) /\
     (item_playing it = true ->
        item_active it = true /\ forall a, audioRef s = Some a -> paused a = false)) /\
  (forall j k itj itk, items !! j = Some itj -> items !! k = Some itk ->
     item_active itj = true -> item_active itk = true -> j = k) /\
  (forall k t it, playlist s !! k = Some t -> items !! k = Some it ->
     (duration t <= 0)%Q -> item_duration it = "--:--").
Proof.
  cbv zeta.
  assert (Hact : forall k it, rendered_items (renderPlaylist s) !! k = Some it ->
            (item_active it = true <-> currentTrackIndex s = Z.of_nat k)).
  { intros k it Hk. rewrite rendered_item_lookup in Hk.
    destruct (playlist s !! k) as [t|]; [|discriminate].
    injection Hk as <-. simpl. rewrite Z.eqb_eq. split; congruence. }
  split; [|split; [|split; [|split; [|split]]]].
  - unfold renderPlaylist. destruct (playlist s); simpl; split; congruence.
  - rewrite rendered_items_imap, fmap_imap, <- imap_const. apply imap_ext.
    reflexivity.
  - rewrite rendered_items_imap, fmap_imap, <- imap_const. apply imap_ext.
    reflexivity.
  - intros k it Hk. split; [now apply Hact|].
    rewrite rendered_item_lookup in Hk.
    destruct (playlist s !! k) as [t|]; [|discriminate].
    injection Hk as <-. simpl. rewrite andb_true_iff, negb_true_iff.
    intros [H1 H2]. split; [exact H1|]. intros a Ha. now rewrite Ha in H2.
  - intros j k itj itk Hj Hk Haj Hak.
    apply (Hact j) in Haj; [|exact Hj]. apply (Hact k) in Hak; [|exact Hk]. lia.
  - intros k t it Ht Hk Hd. rewrite rendered_item_lookup, Ht in Hk.
    injection Hk as <-. simpl.
    apply Qle_bool_iff in Hd. now rewrite Hd.
Qed.

(** X14. Clicking an item of the rendered playlist (with the audio element
    mounted) makes that item the one active item of the next rendering, and
    shows it as not playing while its resource loads. *)
Theorem clicking_an_item_activates_it (s : State) (k : nat) (audio : Audio) :
  (k < length (playlist s))%nat -> audioRef s = Some audio ->
  let s' := exec (clickItem k) s in
  let items := rendered_items (renderPlaylist s') in
  length items = length (playlist s) /\
  (exists it, items !! k = Some it /\ item_active it = true /\
              item_playing it = false) /\
  (forall j it, items !! j = Some it -> j <> k -> item_active it = false).
Proof.
  intros Hk Ha. cbv zeta. unfold clickItem.
  assert (Hi : 0 <= Z.of_nat k < Z.of_nat (length (playlist s))) by lia.
  destruct (playlist_lookup_in_range _ _ Hi) as [track Ht].
  destruct (playTrack_in_range s (Z.of_nat k) track audio Hi Ht Ha)
    as (_ & Hc & Hpl & _ & a' & Ha' & _ & _ & Hp & _).
  set (s' := exec (playTrackFromPlaylist (Z.of_nat k)) s) in *.
  rewrite Nat2Z.id in Ht.
  split; [|split].
  - rewrite rendered_items_imap, length_imap. now rewrite Hpl.
  - rewrite rendered_item_lookup, Hpl, Ht. eexists. split; [reflexivity|].
    simpl. rewrite Hc, Ha', Hp, Z.eqb_refl. auto.
  - intros j it Hj Hne. rewrite rendered_item_lookup in Hj.
    destruct (playlist s' !! j) as [t|]; [|discriminate].
    injection Hj as <-. simpl. rewrite Hc. apply Z.eqb_neq. lia.
Qed.

Lemma clicking_an_item_witness :
  exists it, rendered_items (renderPlaylist (exec (clickItem 1) three_tracks)) !! 1%nat
               = Some it /\ item_active it = true /\ item_playing it = false.
Proof.
  refine (proj1 (proj2 (clicking_an_item_activates_it three_tracks 1 fresh_audio
                          _ eq_refl))).
  simpl. lia.
Defined.

Lemma list_find_unique_id (l : list Track) : forall k t,
  NoDup (id <$> l) -> l !! k = Some t ->
  list_find (fun t' => id t' = id t) l = Some (k, t).
Proof.
  induction l as [|x l IH]; intros k t Hnd Hk; [discriminate|].
  rewrite fmap_cons in Hnd. apply NoDup_cons in Hnd. destruct Hnd as [Hx Hnd].
  simpl. destruct k as [|k]; simpl in Hk.
  - injection Hk as ->. now rewrite decide_True.
  - rewrite decide_False.
    + now rewrite (IH k t Hnd Hk).
    + intros Heq. apply Hx. rewrite Heq.
      apply list_elem_of_fmap. exists t. split; [reflexivity|].
      eapply list_elem_of_lookup_2; eauto.
Qed.

(** X15. With unique track ids, the remove button of the item at position
    [k] removes exactly that item from the next rendering and keeps the
    others in order.  If the removed item was the active one, no item is
    active afterwards; if another item was active, the item of that same
    track is the active one afterwards. *)
Theorem remove_button_removes_that_item (s : State) (k : nat) (t : Track) :
  NoDup (id <$> playlist s) -> playlist s !! k = Some t ->
  let s' := exec (clickRemove t) s in
  let items' := rendered_items (renderPlaylist s') in
  item_key <$> items' = delete k (id <$> playlist s) /\
  (currentTrackIndex s = Z.of_nat k ->
     forall j it, items' !! j = Some it -> item_active it = false) /\
  (forall j tj, currentTrackIndex s = Z.of_nat j -> j <> k ->
     playlist s !! j = Some tj ->
     exists j' it, items' !! j' = Some it /\ item_active it = true /\
                   item_key it = id tj).
Proof.
  intros Hnd Hk. cbv zeta. unfold clickRemove.
  pose proof (list_find_unique_id _ _ _ Hnd Hk) as Hfind.
  destruct (removeFromPlaylist_found s (id t) k t Hfind)
    as (_ & Hpl & Hcur & Hgt & Hlt & _).
  rewrite (filter_drops_found _ _ _ _ Hnd Hfind) in Hpl.
  set (s' := exec (removeFromPlaylist (id t)) s) in *.
  assert (Hkeys : item_key <$> rendered_items (renderPlaylist s') = id <$> playlist s').
  { rewrite rendered_items_imap, fmap_imap, <- imap_const. now apply imap_ext. }
  split; [|split].
  - now rewrite Hkeys, Hpl, list_fmap_delete.
  - intros Hc j it Hj. rewrite rendered_item_lookup in Hj.
    destruct (playlist s' !! j) as [tj|]; [|discriminate].
    injection Hj as <-. simpl. destruct (Hcur Hc) as (-> & _). apply Z.eqb_neq. lia.
  - intros j tj Hc Hne Hj.
    destruct (Nat.lt_ge_cases j k) as [Hlt'|Hge].
    + exists j. rewrite rendered_item_lookup, Hpl, list_lookup_delete_lt, Hj by lia.
      eexists. split; [reflexivity|]. simpl. rewrite Hlt by lia.
      split; [apply Z.eqb_eq; lia | reflexivity].
    + exists (j - 1)%nat.
      rewrite rendered_item_lookup, Hpl, list_lookup_delete_ge by lia.
      replace (S (j - 1)) with j by lia. rewrite Hj.
      eexists. split; [reflexivity|]. simpl. rewrite Hgt by lia.
      split; [apply Z.eqb_eq; lia | reflexivity].
Qed.

Lemma remove_button_witness :
  item_key <$> rendered_items (renderPlaylist (exec (clickRemove track_a) playing_third))
    = delete 0%nat (id <$> playlist playing_third).
Proof.
  refine (proj1 (remove_button_removes_that_item playing_third 0 track_a _ eq_refl)).
  simpl. repeat constructor; rewrite ?elem_of_cons, ?elem_of_nil; intuition discriminate.
Defined.

(** ** The beat store *)

Lemma findBeat_catalogue (beatId : Z) :
  1 <= beatId <= 8 ->
  exists b, findBeat beatId = Some b /\ In b beats /\ beat_id b = beatId.
Proof.
  intros H.
  assert (Hc : beatId = 1 \/ beatId = 2 \/ beatId = 3 \/ beatId = 4 \/
               beatId = 5 \/ beatId = 6 \/ beatId = 7 \/ beatId = 8) by lia.
  unfold findBeat, beats.
  repeat destruct Hc as [-> | Hc]; try subst beatId;
    (eexists; split; [reflexivity|]; split; [simpl; auto 10 | reflexivity]).
Qed.

Lemma findBeat_unknown (beatId : Z) :
  ~ 1 <= beatId <= 8 -> findBeat beatId = None.
Proof.
  intros H. unfold findBeat, beats, catalogue_entry. cbn -[Z.eqb].
  repeat match goal with
  | |- context [?a =? beatId] => destruct (Z.eqb_spec a beatId); [lia|]
  end.
  reflexivity.
Qed.

Lemma cartTotal_snoc l x : cartTotal (l ++ [x]) = js_add (cartTotal l) (price x).
Proof. unfold cartTotal. now rewrite fold_left_app. Qed.

(** X16. [addToCart] with an id of the catalogue (1 to 8) appends one item
    to the end of the cart: a copy of that catalogue entry (same id, title,
    artist and price) carrying the new cart id; the items already in the cart
    stay where they are and the new total is the old total plus that price,
    added as doubles.  With any other id it changes nothing. *)
Theorem addToCart_appends_the_catalogue_entry (st : Store) (beatId newCartId : Z) :
  (1 <= beatId <= 8 ->
   exists entry item,
     In entry beats /\ beat_id entry = beatId /\
     cart (addToCart beatId newCartId st) = (cart st ++ [item])%list /\
     beat_id item = beatId /\ title item = title entry /\
     artist item = artist entry /\ price item = price entry /\
     cartId item = Some newCartId /\
     cartTotal (cart (addToCart beatId newCartId st))
       = js_add (cartTotal (cart st)) (price entry)) /\
  (~ 1 <= beatId <= 8 -> addToCart beatId newCartId st = st).
Proof.
  split.
  - intros H. destruct (findBeat_catalogue beatId H) as (b & Hf & Hin & Hid).
    unfold addToCart. rewrite Hf. simpl.
    exists b. eexists. split; [exact Hin|]. split; [exact Hid|].
    split; [reflexivity|]. simpl. repeat split; auto.
    now rewrite cartTotal_snoc.
  - intros H. unfold addToCart. now rewrite (findBeat_unknown beatId H).
Qed.

Lemma addToCart_witness :
  addToCart 9 100 emptyStore = emptyStore.
Proof.
  apply (proj2 (addToCart_appends_the_catalogue_entry emptyStore 9 100)). lia.
Defined.

Lemma filter_cart_fresh (l : list Beat) (cid : Z) :
  Forall (fun item => cartId item <> Some cid) l ->
  filter (fun item => cartId item <> Some cid) l = l.
Proof.
  induction 1 as [|x l Hx _ IH]; [reflexivity|].
  rewrite filter_cons_True by exact Hx. now rewrite IH.
Qed.

Lemma filter_cart_found (l : list Beat) (cid : Z) : forall k item,
  NoDup (cartId <$> l) -> l !! k = Some item -> cartId item = Some cid ->
  filter (fun item => cartId item <> Some cid) l = delete k l.
Proof.
  induction l as [|x l IH]; intros k item Hnd Hk Hc; [discriminate|].
  rewrite fmap_cons in Hnd. apply NoDup_cons in Hnd. destruct Hnd as [Hx Hnd].
  destruct k as [|k]; simpl in Hk.
  - injection Hk as ->. rewrite filter_cons_False by (intros H; now apply H).
    simpl. apply filter_cart_fresh. apply Forall_forall. intros y Hy Heq.
    apply Hx. rewrite Hc, <- Heq. apply list_elem_of_fmap. eauto.
  - rewrite filter_cons_True.
    + simpl. f_equal. now apply (IH k item).
    + intros Heq. apply Hx. rewrite Heq, <- Hc.
      apply list_elem_of_fmap. exists item. split; [reflexivity|].
      eapply list_elem_of_lookup_2; eauto.
Qed.

(** X17. [removeFromCart] keeps exactly the items whose cart id differs from
    the given one, in their order.  If no item carries the id, the cart is
    unchanged; in particular adding a beat under a fresh cart id and removing
    that id again gives back the store as it was.  If cart ids are unique and
    the item at position [k] carries the id, exactly that item goes. *)
Theorem removeFromCart_removes_by_cart_id (st : Store) (cid : Z) :
  (forall item, In item (cart (removeFromCart cid st)) <->
     In item (cart st) /\ cartId item <> Some cid) /\
  (Forall (fun item => cartId item <> Some cid) (cart st) ->
     removeFromCart cid st = st /\
     forall beatId, removeFromCart cid (addToCart beatId cid st) = st) /\
  (forall k item, NoDup (cartId <$> cart st) -> cart st !! k = Some item ->
     cartId item = Some cid ->
     cart (removeFromCart cid st) = delete k (cart st)).
Proof.
  split; [|split].
  - intros item. unfold removeFromCart. simpl.
    rewrite <- !list_elem_of_In, list_elem_of_filter. tauto.
  - intros Hfresh.
    assert (H1 : removeFromCart cid st = st).
    { unfold removeFromCart. rewrite filter_cart_fresh by exact Hfresh.
      now destruct st. }
    split; [exact H1|]. intros beatId. unfold addToCart.
    destruct (findBeat beatId) as [b|]; [|exact H1].
    unfold removeFromCart. simpl. rewrite filter_app, filter_cart_fresh by exact Hfresh.
    rewrite filter_cons_False by (simpl; intros H; now apply H).
    rewrite filter_nil, app_nil_r. now destruct st.
  - intros k item Hnd Hk Hc. unfold removeFromCart. simpl.
    now rewrite (filter_cart_found _ _ _ _ Hnd Hk Hc).
Qed.

Lemma removeFromCart_witness :
  removeFromCart 7 (addToCart 3 7 emptyStore) = emptyStore.
Proof.
  apply (proj2 (proj1 (proj2 (removeFromCart_removes_by_cart_id emptyStore 7))
                  (Forall_nil_2 _))).
Defined.

(** X18. Checkout on an empty cart only shows the "cart is empty" alert and
    leaves cart and dialog as they are.  Checkout on a non-empty cart shows
    the formatted total of the prices in the cart, empties the cart and
    closes the dialog, so that a second checkout right after it reports an
    empty cart. *)
Theorem checkout_empties_the_cart (st : Store) :
  (cart st = [] ->
     handleCheckout st =
       {| cart := []; cartModalOpen := cartModalOpen st;
          alerts := alerts st ++ [AlertCartEmpty] |}) /\
  (cart st <> [] ->
     let st' := handleCheckout st in
     cart st' = [] /\ cartModalOpen st' = false /\
     alerts st' = (alerts st ++ [AlertCheckout (formatPrice (cartTotal (cart st)))])%list /\
     alerts (handleCheckout st') = (alerts st' ++ [AlertCartEmpty])%list /\
     cart (handleCheckout st') = []).
Proof.
  split.
  - intros H. unfold handleCheckout. now rewrite H.
  - intros H. unfold handleCheckout at 1 2 3.
    destruct (cart st) as [|x l] eqn:E; [contradiction|]. simpl. auto.
Qed.

Lemma checkout_witness :
  cart (handleCheckout (addToCart 1 5 emptyStore)) = [].
Proof.
  refine (proj1 (proj2 (checkout_empties_the_cart (addToCart 1 5 emptyStore)) _)).
  discriminate.
Defined.

Lemma act_keeps_catalogue a st :
  Forall from_catalogue (cart st) -> Forall from_catalogue (cart (act a st)).
Proof.
  intros H. destruct a; simpl; try exact H.
  - unfold addToCart. destruct (findBeat beatId) as [b|] eqn:Hf; [|exact H].
    simpl. apply Forall_app. split; [exact H|]. constructor; [|constructor].
    exists b. split; [|auto]. unfold findBeat in Hf.
    apply find_some in Hf. tauto.
  - apply Forall_forall. intros item Hin.
    apply list_elem_of_filter in Hin. destruct Hin as [_ Hin].
    rewrite Forall_forall in H. now apply H.
  - unfold previewBeat. now destruct (findBeat beatId).
  - unfold handleCheckout. destruct (length (cart st) =? 0)%nat; [exact H|constructor].
Qed.

Lemma acts_keep_catalogue l : forall st,
  Forall from_catalogue (cart st) -> Forall from_catalogue (cart (acts l st)).
Proof.
  induction l as [|a l IH]; intros st H; simpl; [exact H|].
  apply IH, act_keeps_catalogue, H.
Qed.

(** Every catalogue price is a double within [2^-40] of its decimal. *)
Lemma catalogue_price entry :
  In entry beats ->
  exists p, price entry = Finite p /\ 999 <= cents entry <= 1599 /\
    (inject_Z (cents entry) * (1 # 100) - (1 # 1099511627776) <= p)%Q /\
    (p <= inject_Z (cents entry) * (1 # 100) + (1 # 1099511627776))%Q.
Proof.
  unfold beats. simpl. intros H.
  repeat destruct H as [<- | H]; try contradiction;
    (eexists; split; [vm_compute; reflexivity|]; split; [vm_compute; split; discriminate|];
     split; vm_compute; discriminate).
Qed.

Lemma cart_cents_snoc l x : cart_cents (l ++ [x]) = cart_cents l + cents x.
Proof.
  unfold cart_cents. induction l as [|y l IH]; simpl; [lia|]. rewrite IH. lia.
Qed.

(** The running total of a cart of up to 1000 catalogue items is a double
    within [2^-39] per item of the exact sum of the prices. *)
Lemma cartTotal_close l :
  Forall from_catalogue l -> (length l <= 1000)%nat ->
  let n := inject_Z (Z.of_nat (length l)) in
  let c := inject_Z (cart_cents l) in
  exists t, cartTotal l = Finite t /\
    (c * (1 # 100) - n * (1 # 549755813888) <= t)%Q /\
    (t <= c * (1 # 100) + n * (1 # 549755813888))%Q /\
    (999 * n <= c)%Q /\ (c <= 1599 * n)%Q.
Proof.
  induction l as [|x l IH] using rev_ind; intros Hall Hlen; cbv zeta.
  - exists 0%Q. repeat split; discriminate.
  - apply Forall_app in Hall. destruct Hall as [Hl Hx].
    apply Forall_inv in Hx. destruct Hx as (entry & Hin & _ & _ & Hp).
    rewrite length_app in Hlen |- *. simpl in Hlen |- *.
    destruct (IH Hl ltac:(lia)) as (t & Ht & Hlo & Hhi & Hc1 & Hc2).
    destruct (catalogue_price entry Hin) as (p & Hpe & Hc & Hplo & Hphi).
    assert (Hcx : cents x = cents entry) by (unfold cents; now rewrite Hp).
    rewrite cart_cents_snoc, cartTotal_snoc, Ht, Hp, Hpe, Hcx. simpl js_add.
    rewrite Nat2Z.inj_add, !inject_Z_plus. change (inject_Z (Z.of_nat 1)) with 1%Q.
    set (n := inject_Z (Z.of_nat (length l))) in *.
    set (c := inject_Z (cart_cents l)) in *.
    set (cx := inject_Z (cents entry)) in *.
    assert (Hn0 : (0 <= n)%Q)
      by (unfold n; change 0%Q with (inject_Z 0); rewrite <- Zle_Qle; lia).
    assert (Hn1 : (n <= 999)%Q)
      by (unfold n; change 999%Q with (inject_Z 999); rewrite <- Zle_Qle; lia).
    assert (Hcx1 : (999 <= cx)%Q)
      by (unfold cx; change 999%Q with (inject_Z 999); rewrite <- Zle_Qle; lia).
    assert (Hcx2 : (cx <= 1599)%Q)
      by (unfold cx; change 1599%Q with (inject_Z 1599); rewrite <- Zle_Qle; lia).
    assert (H14 : (Qpow2 14 == 16384)%Q) by reflexivity.
    assert (H40 : (Qpow2 (14 - 54) == 1 # 1099511627776)%Q) by reflexivity.
    destruct (round_double_near (t + p) 14) as (y & Hy & _ & Hylo & Hyhi);
      [lra | lra | lia |].
    exists y. split; [exact Hy|]. repeat split; lra.
Qed.

(** X19. Whatever the user does on the store screen, starting with an empty
    cart, every item in the cart is a copy of a catalogue entry, and as long
    as the cart holds at most 1000 items [formatPrice] prints the total
    exactly: the sum of the prices in cents, as whole units, a point and two
    digits.  (The total itself is a sum of doubles and not a whole number of
    cents; its error stays far below the half cent at which [toFixed] would
    round to another number.) *)
Theorem displayed_total_is_exact (actions : list StoreAction) :
  let st := acts actions emptyStore in
  (length (cart st) <= 1000)%nat ->
  Forall from_catalogue (cart st) /\
  formatPrice (cartTotal (cart st))
    = show_int (cart_cents (cart st) / 100) ++ "."
        ++ two_digits (cart_cents (cart st) mod 100).
Proof.
  cbv zeta. intros Hlen.
  assert (H : Forall from_catalogue (cart (acts actions emptyStore)))
    by (apply acts_keep_catalogue; constructor).
  split; [exact H|].
  destruct (cartTotal_close _ H Hlen) as (t & Ht & Hlo & Hhi & Hc1 & Hc2).
  set (l := cart (acts actions emptyStore)) in *.
  set (n := inject_Z (Z.of_nat (length l))) in *.
  set (c := cart_cents l) in *.
  assert (Hn0 : (0 <= n)%Q)
    by (unfold n; change 0%Q with (inject_Z 0); rewrite <- Zle_Qle; lia).
  assert (Hn1 : (n <= 1000)%Q)
    by (unfold n; change 1000%Q with (inject_Z 1000); rewrite <- Zle_Qle; lia).
  assert (Ht0 : (0 <= t)%Q) by lra.
  assert (Hc0 : 0 <= c).
  { rewrite Zle_Qle. change (inject_Z 0) with 0%Q. lra. }
  unfold formatPrice. rewrite Ht. unfold toFixed2. cbv zeta.
  assert (Hbig : Qle_bool (inject_Z (10 ^ 21)) (Qabs t) = false).
  { destruct (Qle_bool _ _) eqn:E; [|reflexivity].
    apply Qle_bool_iff in E. rewrite Qabs_pos in E by exact Ht0.
    change (inject_Z (10 ^ 21)) with 1000000000000000000000%Q in E. lra. }
  assert (Hle : Qle_bool 0 t = true) by now apply Qle_bool_iff.
  assert (Hn : Qfloor (Qabs t * 100 + (1 # 2)) = c).
  { apply Qfloor_unique; rewrite (Qabs_pos t Ht0), ?inject_Z_plus;
      change (inject_Z 1) with 1%Q; lra. }
  rewrite Hbig, Hle, Hn, padStart_two_digits; [reflexivity|].
  apply Z.mod_pos_bound. lia.
Qed.

Lemma displayed_total_witness :
  formatPrice (cartTotal (cart (acts all_beats emptyStore))) = "103.92".
Proof.
  refine (proj2 (displayed_total_is_exact all_beats _)).
  simpl. lia.
Defined.

(** ** The background image *)

(** X20. A background image read by the upload handler while the background
    element exists is stored under the key [backgroundImage] (other keys are
    untouched) and shown; any screen mounted later with a background element
    shows the same image again.  Without a background element the upload
    stores nothing, and the restoring effect changes nothing when no image,
    or an empty one, is stored or the element is missing; it never writes to
    the storage. *)
Theorem background_image_survives_remount
    (b : Backdrop) (bgImage : string) (element later : BackgroundStyle) :
  background b = Some element -> bgImage <> "" ->
  let b' := imageLoaded bgImage b in
  background b' = Some (coverWith bgImage) /\
  localStorage b' !! "backgroundImage" = Some bgImage /\
  (forall key, key <> "backgroundImage" ->
     localStorage b' !! key = localStorage b !! key) /\
  background (loadSavedBackground (remount (Some later) b')) = Some (coverWith bgImage) /\
  loadSavedBackground (remount None b') = remount None b' /\
  imageLoaded bgImage (remount None b) = remount None b /\
  (forall b0, localStorage (loadSavedBackground b0) = localStorage b0) /\
  (forall b0, localStorage b0 !! "backgroundImage" = None \/
              localStorage b0 !! "backgroundImage" = Some "" ->
              loadSavedBackground b0 = b0).
Proof.
  intros Hb Hne. cbv zeta. unfold imageLoaded. rewrite Hb.
  assert (Hs : String.eqb bgImage "" = false) by now apply String.eqb_neq.
  split; [reflexivity|]. split; [apply lookup_insert_eq|].
  split; [intros key Hk; simpl; now rewrite lookup_insert_ne|].
  split; [|split; [|split; [|split]]].
  - unfold loadSavedBackground, remount. simpl. rewrite lookup_insert_eq, Hs. reflexivity.
  - unfold loadSavedBackground, remount. simpl. now rewrite lookup_insert_eq.
  - reflexivity.
  - intros b0. unfold loadSavedBackground.
    destruct (localStorage b0 !! "backgroundImage") as [saved|]; [|reflexivity].
    destruct (background b0); [|reflexivity].
    now destruct (String.eqb saved "").
  - intros b0 [H|H]; unfold loadSavedBackground; rewrite H; [reflexivity|].
    now destruct (background b0).
Qed.

Lemma background_image_witness :
  background (loadSavedBackground
                (remount (background first_visit)
                   (imageLoaded "data:image/png;base64,AAAA" first_visit)))
    = Some (coverWith "data:image/png;base64,AAAA").
Proof.
  refine (proj1 (proj2 (proj2 (proj2
    (background_image_survives_remount first_visit "data:image/png;base64,AAAA"
       _ _ eq_refl _))))).
  discriminate.
Defined.
